(** * SVG2Gcode / SVGcut: the CAM core, embedded and verified

    A shallow embedding of the operation compilers of [Cam.js] ([pocket],
    [outline], [engrave], [mergePaths], [separateTabs]) and of
    [GcodeGenerationViewModel.generateGcode], followed by the properties
    the specification states about them, and then by further properties
    of the code: of the compilers, of generation and saving in the view
    model, of [App.showAlert] and [App.tutorial], and of the selection.
    The sources hold three revisions of the view model: the oldest, which
    writes preamble and postamble itself; the newest, which drives a
    [Gcode.Generator]; and the one in between, which calls
    [Gcode.startJob], [Gcode.generateOperation] and [Gcode.endJob], has
    the guards and the clamping of the newest and treats Perforate alone
    as precalculated.

    Numbers are JavaScript numbers; they are idealised here as rationals
    ([Q]), compared with [Qeq_bool] where the source uses [===]/[!==] and
    with [js_lt] where it uses [<].  The rounding of doubles is left out
    where it moves a result by its last bit; the one sum on which the end
    of a loop depends, the running width of [outline], is taken through a
    parameter ([js_add]).  Arrays are lists.  An array slot read out of
    range is [Undefined], as in JavaScript. *)

From Stdlib Require Import QArith Qminmax Lqa Lia String List Bool Permutation Sorted.
From Stdlib Require DecimalString.
From Stdlib Require Import Qround Qabs.
From stdpp Require Import base list.
Import ListNotations.
Open Scope Q_scope.

(** ** Data model *)

(** [a < b] on numbers *)
Definition js_lt (a b : Q) : bool := negb (Qle_bool b a).

(** A slot of an internal path: a point object [{X, Y}], or [undefined]
    (what [path[i]] gives out of range). *)
Inductive JsPoint : Type :=
| Undefined
| Pt (X Y : Q).

Abbreviation Path := (list JsPoint).
Abbreviation Paths := (list (list JsPoint)).

(** [@typedef CamPath]: a path in internal units and the flag telling
    whether it can be closed without retracting. *)
Record CamPath : Type := mkCamPath {
  path : Path;
  safeToClose : bool
}.

(** [path[0]] and [path[path.length - 1]]. *)
Definition js_first (p : Path) : JsPoint := hd Undefined p.
Definition js_last (p : Path) : JsPoint := List.last p Undefined.

(** Two slots hold the same point: both are [undefined], or their
    coordinates are the same numbers. *)
Definition same_point (a b : JsPoint) : bool :=
  match a, b with
  | Undefined, Undefined => true
  | Pt X1 Y1, Pt X2 Y2 => (Qeq_bool X1 X2 && Qeq_bool Y1 Y2)%bool
  | _, _ => false
  end.

(** Consecutive vertices differ. *)
Fixpoint no_repeat (p : Path) : bool :=
  match p with
  | a :: (b :: _) as p' => (negb (same_point a b) && no_repeat p')%bool
  | _ => true
  end.

(** The first vertex is not the last one. *)
Definition open_ended (p : Path) : bool := negb (same_point (js_first p) (js_last p)).

(** The shape the specification wants of a tool path: consecutive
    vertices differ and the first vertex is not the last. *)
Definition well_shaped (p : Path) : Prop := no_repeat p = true /\ open_ended p = true.

(** ** The heap of path arrays

    [pocket] reverses path arrays in place while a second array
    ([clipPoly]) still refers to them, so path arrays live in a store and
    the arrays of paths hold references. *)
Module Store.

Abbreviation Ref := nat (only parsing).
Abbreviation Heap := (list (list JsPoint)) (only parsing).

Definition deref (h : Heap) (r : Ref) : Path := default [] (h !! r).

Definition values (h : Heap) (refs : list Ref) : Paths := map (deref h) refs.

(** A function returning new path arrays allocates them at the end. *)
Definition alloc (ps : Paths) (h : Heap) : list Ref * Heap :=
  (seq (length h) (length ps), h ++ ps).

(** [paths[i].reverse()] *)
Definition reverse_in_place (r : Ref) (h : Heap) : Heap := alter (@rev JsPoint) r h.

(** [for (let i = 0; i < paths.length; ++i) paths[i].reverse();] *)
Definition reverse_each (refs : list Ref) (h : Heap) : Heap :=
  foldl (fun h r => reverse_in_place r h) h refs.

End Store.

(** ** Cam.js *)
Section Cam.

(** [InternalPaths.js] is not among the sources: its functions are
    parameters of the development.  A missing clip polygon ([null]) is
    [None]. *)
Variable InternalPaths_offset : Paths -> Q -> Paths.
Variable InternalPaths_mergePaths : option Paths -> Paths -> Paths.
Variable InternalPaths_crosses : option Paths -> JsPoint -> JsPoint -> bool.
Variable InternalPaths_diff : Paths -> Paths -> Paths.

(** [a + b] on numbers: the exact sum rounded to a double.  A term that
    is small beside the other is lost in the rounding ([2^53 + 1] is
    [2^53]), and the loop of [outline] ends only if its running width
    grows, so the sum is a parameter there and the properties of
    [outline] say what they need of it. *)
Variable js_add : Q -> Q -> Q.

(** A path, reversed when [reverse] is set. *)
Definition turn (reverse : bool) (p : Path) : Path := if reverse then rev p else p.

(** The paths of [ps], each reversed when [reverse] is set. *)
Definition direct (reverse : bool) (ps : Paths) : Paths :=
  if reverse then map (@rev JsPoint) ps else ps.

(** [function mergePaths(clipPoly, paths)] *)
Definition mergePaths (clipPoly : option Paths) (paths : Paths) : list CamPath :=
  map (fun p =>
         {| path := p;
            safeToClose := negb (InternalPaths_crosses clipPoly (js_first p) (js_last p)) |})
      (InternalPaths_mergePaths clipPoly paths).

(** [InternalPaths.offset] called on an array of path arrays: it reads
    the current contents and returns newly allocated arrays. *)
Definition offset_h (refs : list Store.Ref) (delta : Q) (h : Store.Heap)
  : list Store.Ref * Store.Heap :=
  Store.alloc (InternalPaths_offset (Store.values h refs) delta) h.

(** The [while (current.length != 0)] loop of [pocket]; [fuel] bounds
    the number of times the condition is tested. *)
Fixpoint pocket_loop (fuel : nat) (climb : bool) (delta : Q)
         (h : Store.Heap) (current allPaths : list Store.Ref)
  : option (Store.Heap * list Store.Ref) :=
  match fuel with
  | O => None
  | S fuel' =>
      match current with
      | [] => Some (h, allPaths)
      | _ :: _ =>
          let h1 := if climb then Store.reverse_each current h else h in
          let allPaths' := current ++ allPaths in
          let '(current', h2) := offset_h current delta h1 in
          pocket_loop fuel' climb delta h2 current' allPaths'
      end
  end.

(** [export function pocket(geometry, cutterDia, overlap, climb)] *)
Definition pocket (fuel : nat) (geometry : Paths) (cutterDia overlap : Q) (climb : bool)
  : option (list CamPath) :=
  let '(current, h) := Store.alloc (InternalPaths_offset geometry (- cutterDia / 2)) [] in
  let clipPoly := current in (* current.slice(0): the same path arrays *)
  match pocket_loop fuel climb (- cutterDia * (1 - overlap)) h current [] with
  | None => None
  | Some (h', allPaths) =>
      Some (mergePaths (Some (Store.values h' clipPoly)) (Store.values h' allPaths))
  end.

(** [export function engrave(geometry, climb)] *)
Definition engrave_copy (climb : bool) (p : Path) : Path :=
  let copy := if climb then p else rev p in
  copy ++ [js_first copy].

Definition engrave (geometry : Paths) (climb : bool) : list CamPath :=
  let allPaths := map (engrave_copy climb) geometry in
  map (fun cp => {| path := path cp; safeToClose := true |}) (mergePaths None allPaths).

(** [export function outline(geometry, cutterDia, isInside, width,
    overlap, climb)].  [bounds] is built by [InternalPaths.diff] before
    any array is reversed and no second array refers to the arrays of
    [current], so the in-place reversal is seen only by what follows it:
    the loop is written on values. *)
Fixpoint outline_loop (fuel : nat) (needReverse : bool) (eachWidth eachOffset width : Q)
         (currentWidth : Q) (current allPaths : Paths) : option Paths :=
  match fuel with
  | O => None
  | S fuel' =>
      if Qle_bool currentWidth width then
        let current := direct needReverse current in
        let allPaths := current ++ allPaths in
        let nextWidth := js_add currentWidth eachWidth in
        if (js_lt width nextWidth && js_lt 0 (width - currentWidth))%bool then
          let current := InternalPaths_offset current (width - currentWidth) in
          let current := direct needReverse current in
          Some (current ++ allPaths)
        else
          outline_loop fuel' needReverse eachWidth eachOffset width nextWidth
                       (InternalPaths_offset current eachOffset) allPaths
      else Some allPaths
  end.

Definition outline (fuel : nat) (geometry : Paths) (cutterDia : Q) (isInside : bool)
           (width overlap : Q) (climb : bool) : option (list CamPath) :=
  let currentWidth := cutterDia in
  let eachWidth := cutterDia * (1 - overlap) in
  let '(current, bounds, eachOffset, needReverse) :=
    if isInside then
      let current := InternalPaths_offset geometry (- cutterDia / 2) in
      (current,
       InternalPaths_diff current (InternalPaths_offset geometry (- (width - cutterDia / 2))),
       - eachWidth, climb)
    else
      let current := InternalPaths_offset geometry (cutterDia / 2) in
      (current,
       InternalPaths_diff (InternalPaths_offset geometry (width - cutterDia / 2)) current,
       eachWidth, negb climb) in
  match outline_loop fuel needReverse eachWidth eachOffset width currentWidth current [] with
  | None => None
  | Some allPaths => Some (mergePaths (Some bounds) allPaths)
  end.

(** *** The pocket algorithm in the words of the specification *)

Fixpoint pocket_passes (fuel : nat) (climb : bool) (delta : Q) (current acc : Paths)
  : option Paths :=
  match fuel with
  | O => None
  | S fuel' =>
      match current with
      | [] => Some acc
      | _ :: _ =>
          let cur := direct climb current in
          pocket_passes fuel' climb delta (InternalPaths_offset cur delta) (cur ++ acc)
      end
  end.

Definition pocket_spec (fuel : nat) (geometry : Paths) (cutterDia overlap : Q) (climb : bool)
  : option (list CamPath) :=
  let g0 := InternalPaths_offset geometry (- cutterDia / 2) in
  match pocket_passes fuel climb (- cutterDia * (1 - overlap)) g0 [] with
  | None => None
  | Some accumulated => Some (mergePaths (Some g0) accumulated)
  end.

End Cam.

(** ** Exceptions *)

Inductive JsError : Type :=
| ReferenceError   (* a [const] binding read before its declaration ran *)
| TypeError        (* a property read from [undefined] *)
| Error (message : string).

Inductive Completion (A : Type) : Type :=
| Normal (a : A)
| Throw (e : JsError).
Arguments Normal {A} a.
Arguments Throw {A} e.

Definition bind {A B : Type} (c : Completion A) (k : A -> Completion B) : Completion B :=
  match c with
  | Normal a => k a
  | Throw e => Throw e
  end.

Notation "x <- c ;; k" := (bind c (fun x => k))
  (at level 100, c at next level, right associativity).

Fixpoint mapM {A B : Type} (f : A -> Completion B) (l : list A) : Completion (list B) :=
  match l with
  | [] => Normal []
  | a :: l' => b <- f a ;; bs <- mapM f l' ;; Normal (b :: bs)
  end.

(** ** The tab splitter of Cam.js *)

(** Points of the [2d-geometry] library. *)
Record Point2d : Type := mkPoint2d { x : Q; y : Q }.

Abbreviation Polygon := (list Point2d).

(** [pt.X], [pt.Y] *)
Definition get_X (p : JsPoint) : Completion Q :=
  match p with Undefined => Throw TypeError | Pt X _ => Normal X end.
Definition get_Y (p : JsPoint) : Completion Q :=
  match p with Undefined => Throw TypeError | Pt _ Y => Normal Y end.

(** [new Point(pt.X, pt.Y)] *)
Definition new_Point (p : JsPoint) : Completion Point2d :=
  X <- get_X p ;; Y <- get_Y p ;; Normal {| x := X; y := Y |}.

(** [{ X: intersection.x, Y: intersection.y }] *)
Definition to_internal (i : Point2d) : JsPoint := Pt (x i) (y i).

(** [ip1.X !== ip0.X || ip1.Y !== ip0.Y] *)
Definition differs (ip1 ip0 : JsPoint) : Completion bool :=
  X1 <- get_X ip1 ;; X0 <- get_X ip0 ;;
  if negb (Qeq_bool X1 X0) then Normal true
  else Y1 <- get_Y ip1 ;; Y0 <- get_Y ip0 ;; Normal (negb (Qeq_bool Y1 Y0)).

Section Sorting.

Variable A : Type.
Variable key : A -> Q.

(** [Array.prototype.sort((a, b) => key(a) - key(b))]: a stable sort by
    ascending key. *)
Fixpoint insert_by (a : A) (l : list A) : list A :=
  match l with
  | [] => [a]
  | b :: l' => if Qle_bool (key a) (key b) then a :: l else b :: insert_by a l'
  end.

Definition sort_by (l : list A) : list A := foldr insert_by [] l.

(** The order the sort establishes. *)
Definition by_key (a b : A) : Prop := key a <= key b.

End Sorting.
Arguments insert_by {A} key a l.
Arguments sort_by {A} key l.
Arguments by_key {A} key a b.

Section SeparateTabs.

(** The [2d-geometry] library is external: [Polygon.contains],
    [Segment.intersect] and the distance of [Point.distanceTo] are
    parameters. *)
Variable Polygon_contains : Polygon -> Point2d -> bool.
Variable Segment_intersect : Point2d -> Point2d -> Polygon -> list Point2d.
Variable Point_distanceTo : Point2d -> Point2d -> Q.

(** [for (const intersection of intersections) { ... }]: every
    intersection ends the current sub-path and starts the next. *)
Fixpoint split_at (inters : list Point2d) (currPath : Path) (paths : Paths)
  : Path * Paths :=
  match inters with
  | [] => (currPath, paths)
  | i :: inters' =>
      let ins := to_internal i in
      split_at inters' [ins] (paths ++ [currPath ++ [ins]])
  end.

(** [for (const tabPoly of tabPolys) { ... }] for the segment [p0, p1]
    ending in [ip1]. *)
Fixpoint each_tab (p0 p1 : Point2d) (ip1 : JsPoint) (tabPolys : list Polygon)
         (currPath : Path) (paths : Paths) : Path * Paths :=
  match tabPolys with
  | [] => (currPath, paths)
  | tabPoly :: rest =>
      let intersections := Segment_intersect p0 p1 tabPoly in
      if (0 <? length intersections)%nat then
        let sorted := sort_by (fun a => Point_distanceTo a p0) intersections in
        let '(currPath1, paths1) := split_at sorted currPath paths in
        each_tab p0 p1 ip1 rest (currPath1 ++ [ip1]) paths1
      else
        each_tab p0 p1 ip1 rest (currPath ++ [ip1]) paths
  end.

(** [for (const ip1 of toolPath) { ... }] *)
Fixpoint walk (tabPolys : list Polygon) (toolPath : Path)
         (ip0 : JsPoint) (p0 : Point2d) (currPath : Path) (paths : Paths)
  : Completion (Path * Paths) :=
  match toolPath with
  | [] => Normal (currPath, paths)
  | ip1 :: rest =>
      d <- differs ip1 ip0 ;;
      if d : bool then
        p1 <- new_Point ip1 ;;
        let '(currPath1, paths1) := each_tab p0 p1 ip1 tabPolys currPath paths in
        walk tabPolys rest ip1 p1 currPath1 paths1
      else
        walk tabPolys rest ip0 p0 currPath paths
  end.

(** [export function separateTabs(toolPath, tabGeometry)] *)
Definition separateTabs (toolPath : Path) (tabGeometry : Paths) : Completion Paths :=
  tabPolys <- mapM (mapM new_Point) tabGeometry ;;
  let ip0 := js_last toolPath in
  p0 <- new_Point ip0 ;;
  if existsb (fun tab => Polygon_contains tab p0) tabPolys then
    (* paths.unshift([ ip0, ip0 ]), but [const paths] is declared only
       after this loop: the binding is still uninitialised *)
    Throw ReferenceError
  else
    r <- walk tabPolys toolPath ip0 p0 [ip0] [] ;;
    let '(currPath, paths) := r in
    if (1 <? length currPath)%nat then Normal (paths ++ [currPath])
    else Normal paths.

End SeparateTabs.

(** *** The closed walk of a tool path, in the words of the specification *)
Section ClosedWalk.

Variable Polygon_contains : Polygon -> Point2d -> bool.
Variable Segment_intersect : Point2d -> Point2d -> Polygon -> list Point2d.
Variable Point_distanceTo : Point2d -> Point2d -> Q.

(** The points where the segment from [p0] to [p1] meets the boundary
    of [tab], nearest to [p0] first. *)
Definition crossings (tab : Polygon) (p0 p1 : Point2d) : list Point2d :=
  sort_by (fun a => Point_distanceTo a p0) (Segment_intersect p0 p1 tab).

(** [p1] is another point than [p0]. *)
Definition moved (p1 p0 : Point2d) : bool :=
  (negb (Qeq_bool (x p1) (x p0)) || negb (Qeq_bool (y p1) (y p0)))%bool.

(** The vertices met when the path is followed from [p0]: for every
    vertex that is not where the walk stands, the crossings of the
    segment leading to it, then the vertex. *)
Fixpoint closed_walk (tab : Polygon) (p0 : Point2d) (pts : list Point2d) : Path :=
  match pts with
  | [] => []
  | p1 :: rest =>
      if moved p1 p0
      then map to_internal (crossings tab p0 p1) ++ to_internal p1 :: closed_walk tab p1 rest
      else closed_walk tab p0 rest
  end.

(** Every segment walked meets the boundary of [tab] an odd number of
    times exactly when its ends are on different sides. *)
Fixpoint crossing_parity (tab : Polygon) (p0 : Point2d) (pts : list Point2d) : bool :=
  match pts with
  | [] => true
  | p1 :: rest =>
      if moved p1 p0
      then (Bool.eqb (Nat.odd (length (Segment_intersect p0 p1 tab)))
                     (xorb (Polygon_contains tab p0) (Polygon_contains tab p1))
            && crossing_parity tab p1 rest)%bool
      else crossing_parity tab p0 rest
  end.

(** Whether a vertex lies in [tab]. *)
Definition inside (tab : Polygon) (v : JsPoint) : bool :=
  match v with
  | Undefined => false
  | Pt X Y => Polygon_contains tab {| x := X; y := Y |}
  end.

(** The loop of [separateTabs] for a single tab polygon and a path of
    points, without the exceptions that cannot occur then. *)
Fixpoint walk_one (tab : Polygon) (pts : list Point2d) (p0 : Point2d)
         (currPath : Path) (paths : Paths) : Path * Paths :=
  match pts with
  | [] => (currPath, paths)
  | p1 :: rest =>
      if moved p1 p0 then
        let '(currPath1, paths1) := split_at (crossings tab p0 p1) currPath paths in
        walk_one tab rest p1 (currPath1 ++ [to_internal p1]) paths1
      else walk_one tab rest p0 currPath paths
  end.

End ClosedWalk.

(** Sub-paths put end to end, the vertex two neighbours share taken once. *)
Definition join_chain (paths : Paths) : Path :=
  match paths with
  | [] => []
  | first :: others => first ++ flat_map (@tl JsPoint) others
  end.

(** Every sub-path starts where the one before it ends. *)
Fixpoint chained (paths : Paths) : Prop :=
  match paths with
  | c :: (c' :: _) as rest => js_last c = js_first c' /\ chained rest
  | _ => True
  end.

(** The vertices of a sub-path that are not its two ends. *)
Definition inner (c : Path) : Path := removelast (tl c).

(** The vertices strictly within the sub-paths are on the side [side]
    in the first sub-path, on the other side in the second, and so on. *)
Fixpoint alternating (inside : JsPoint -> bool) (side : bool) (paths : Paths) : Prop :=
  match paths with
  | [] => True
  | c :: rest =>
      (forall v, In v (inner c) -> inside v = side)
      /\ alternating inside (negb side) rest
  end.

(** ** G-code generation view model: shared parts *)

(** What [App.showAlert(id, alerttype, ...params)] was called with. *)
Record Alert : Type := mkAlert {
  alert_id : string;
  alert_type : string;
  alert_params : list Q
}.

(** A bounding box in G-code units, as [UnitConverter.fromUnits] returns it. *)
Record BBox : Type := mkBBox {
  bb_left : Q;
  bb_bottom : Q;
  bb_width : Q;
  bb_height : Q
}.

(** A holding tab of [App.models.Tabs.tabs()]. *)
Record Tab : Type := mkTab {
  tab_enabled : bool;
  combinedGeometry : Paths
}.

(** How a call of [generateGcode] ends, and in which state it leaves the
    view model. *)
Inductive Outcome (S : Type) : Type :=
| Returns (s : S)
| Throws (e : JsError) (s : S).
Arguments Returns {S} s.
Arguments Throws {S} e s.

(** The last line but one. *)
Definition penultimate (lines : list string) : option string := nth_error (rev lines) 1.

(** [ox], [oy]: the work origin offset, computed alike in every revision. *)
Definition origin_offset (origin : string) (svgBB tpBB : BBox) (extraOffsetX extraOffsetY : Q)
  : Q * Q :=
  let ox := bb_left svgBB + extraOffsetX in
  let oy := bb_bottom svgBB + extraOffsetY in
  if (String.eqb origin "Bounding box" || String.eqb origin "Centre")%bool then
    let ox := ox + (bb_left tpBB - bb_left svgBB) in
    let oy := oy + (bb_bottom svgBB - bb_bottom tpBB) in
    if String.eqb origin "Centre" then
      (ox + bb_width tpBB / 2, oy + bb_height tpBB / 2)
    else (ox, oy)
  else (ox, oy).

(** ** js/SelectionViewModel.js, second document: the revision of
    [GcodeGenerationViewModel] that writes preamble and postamble itself *)
Module Inline.

(** An operation of [App.models.Operations.operations()]. *)
Record Operation : Type := mkOperation {
  enabled : bool;
  toolPaths : option (list CamPath);   (* [None] is [null] *)
  name : string;
  operation : string;
  direction : string;
  cutDepth : Q;
  ramp : bool
}.

(** The observables and models the function reads; quantities with a
    unit are given as [toUnits] returns them. *)
Record Inputs : Type := mkInputs {
  allowGen : bool;
  operations : list Operation;
  units : string;
  zSafeMove : Q;
  rapidRate : Q;
  plungeRate : Q;
  cutRate : Q;
  tool_passDepth : Q;
  topZ : Q;
  maxCutDepth : Q;
  diameter : Q;              (* in internal units *)
  tabs : list Tab;
  svgBB : BBox;
  tpBB : BBox;
  origin : string;
  extraOffsetX : Q;
  extraOffsetY : Q;
  bbWidth : Q;
  bbHeight : Q;
  returnTo00 : bool
}.

(** The argument object of [Gcode.generate]. *)
Record GenerateArgs : Type := mkGenerateArgs {
  g_paths : list CamPath;
  g_ramp : bool;
  g_xScale : Q;
  g_yScale : Q;
  g_zScale : Q;
  g_offsetX : Q;
  g_offsetY : Q;
  g_useZ : bool;
  g_tabGeometry : Paths;
  g_tabZ : Q;
  g_decimal : Q;
  g_topZ : Q;
  g_botZ : Q;
  g_safeZ : Q;
  g_passDepth : Q;
  g_plungeFeed : Q;
  g_retractFeed : Q;
  g_cutFeed : Q;
  g_rapidFeed : Q
}.

(** The view model and what the host sees of a run. *)
Record ViewState : Type := mkViewState {
  gcode : string;              (* the [gcode] observable *)
  alerts : list Alert;         (* calls of [App.showAlert], oldest first *)
  events : list string;        (* events dispatched on [document] *)
  tutorial : list nat          (* calls of [App.tutorial] *)
}.

Section Generate.

(** [Gcode.js], [InternalPaths.js], [UnitConverter.js] and the
    rendering of numbers in template literals are not among the
    sources. *)
Variable Gcode_generate : GenerateArgs -> list string.
Variable InternalPaths_offset : Paths -> Q -> Paths.
Variable InternalPaths_clip_union : Paths -> Paths -> Paths.
Variable internal_to : string -> Q.
Variable Number_toString : Q -> string.
Variable Number_toFixed2 : Q -> string.

Local Open Scope string_scope.

(** The operations that are enabled and have tool paths. *)
Definition has_paths (op : Operation) : bool :=
  match toolPaths op with
  | None => false
  | Some tps => (0 <? length tps)%nat
  end.

Definition enabled_ops (ops : list Operation) : list Operation :=
  List.filter (fun op => enabled op && has_paths op)%bool ops.

(** The union of the enabled tabs, each bloated by the cutter radius. *)
Definition build_tabGeometry (diameter : Q) (tabs : list Tab) : Paths :=
  fold_left (fun tabGeometry tab =>
               if tab_enabled tab then
                 let bloat := (diameter / 2)%Q in
                 let tg := InternalPaths_offset (combinedGeometry tab) bloat in
                 InternalPaths_clip_union tabGeometry tg
               else tabGeometry)
            tabs [].

(** The body of [for (const op of ops)] for one operation: the lines
    pushed and the alerts shown. *)
Definition operation_lines (gunits : string) (passDepth plungeRate rapidRate cutRate : Q)
           (safeZ topZ tabZ ox oy : Q) (tabGeometry : Paths) (op : Operation)
  : list string * list Alert :=
  let '(cutDepth, shown) :=
    if js_lt (cutDepth op) 0
    then (0%Q, [mkAlert "cutDepthTooSmall" "alert-warning" []])
    else (cutDepth op, []) in
  (app
     [ "; ** Operation **";
       "; Name:        " ++ name op;
       "; Type:        " ++ operation op;
       "; Paths:       " ++ Number_toString (inject_Z (Z.of_nat (length (default [] (toolPaths op)))));
       "; Direction:   " ++ direction op;
       "; Cut Depth:   " ++ Number_toString cutDepth ++ gunits;
       "; Pass Depth:  " ++ Number_toString passDepth ++ gunits;
       "; Plunge rate: " ++ Number_toString plungeRate ++ gunits ++ "/min" ]
     (Gcode_generate
        {| g_paths := default [] (toolPaths op);
           g_ramp := ramp op;
           g_xScale := internal_to gunits;
           g_yScale := (- internal_to gunits)%Q;
           g_zScale := 1%Q;
           g_offsetX := ox;
           g_offsetY := oy;
           g_useZ := (String.eqb (operation op) "V Carve"
                      || String.eqb (operation op) "Perforate")%bool;
           g_tabGeometry := tabGeometry;
           g_tabZ := tabZ;
           g_decimal := 2%Q;
           g_topZ := topZ;
           g_botZ := (topZ - cutDepth)%Q;
           g_safeZ := safeZ;
           g_passDepth := if String.eqb (operation op) "Perforate" then cutDepth else passDepth;
           g_plungeFeed := plungeRate;
           g_retractFeed := rapidRate;
           g_cutFeed := cutRate;
           g_rapidFeed := rapidRate |}),
   shown).

(** [if (this.returnTo00()) gcode.push(G0 ...); gcode.push(M2 ...);]:
    only the first [push] is governed by the [if]. *)
Definition return_line (rapidRate : Q) : string :=
  "G0 X0 Y0 F" ++ Number_toString rapidRate ++ " ; Return to 0,0".

Definition end_line : string := "M2 ; end program".

Definition postamble (returnTo00 : bool) (rapidRate : Q) : list string :=
  app (if returnTo00 then [return_line rapidRate] else []) [end_line].

Definition join_lines (lines : list string) : string :=
  String.concat (String (Ascii.ascii_of_nat 10) EmptyString) lines.

(** The two comment lines and the three lines of the preamble. *)
Definition preamble (i : Inputs) (unit_line : string) (ox oy : Q) : list string :=
  [ "; Work area:(" ++ Number_toFixed2 (bbWidth i) ++ "," ++ Number_toFixed2 (bbHeight i)
    ++ ")" ++ units i;
    "; Offset:      (" ++ Number_toFixed2 ox ++ "," ++ Number_toFixed2 oy ++ ")" ++ units i;
    unit_line;
    "G90 ; Absolute positioning";
    "G0 Z" ++ Number_toString (zSafeMove i) ++ " F" ++ Number_toString (rapidRate i)
    ++ " ; Move to clearance level" ].

(** [switch (gunits)] *)
Definition unit_directive (gunits : string) : Completion string :=
  if String.eqb gunits "inch" then Normal "G20 ; Set units to inches"
  else if String.eqb gunits "mm" then Normal "G21 ; Set units to mm"
  else Throw (Error (gunits ++ " units not supported by gcode")).

(** [generateGcode()] *)
Definition generateGcode (i : Inputs) (s : ViewState) : Outcome ViewState :=
  if negb (allowGen i) then Returns s else
  let ops := enabled_ops (operations i) in
  if (length ops =? 0)%nat then Returns s else
  let gunits := units i in
  let safeZ := zSafeMove i in
  let tabZ := (topZ i - maxCutDepth i)%Q in
  let '(passDepth, s1) :=
    if js_lt (tool_passDepth i) 0
    then (0%Q,
          {| gcode := gcode s;
             alerts := app (alerts s)
                           [mkAlert "passDepthTooSmall" "alert-warning" [tool_passDepth i]];
             events := events s; tutorial := tutorial s |})
    else (tool_passDepth i, s) in
  let tabGeometry := build_tabGeometry (diameter i) (tabs i) in
  let '(ox, oy) := origin_offset (origin i) (svgBB i) (tpBB i) (extraOffsetX i) (extraOffsetY i) in
  match unit_directive gunits with
  | Throw e => Throws e s1
  | Normal unit_line =>
      let gcode1 := preamble i unit_line ox oy in
      let '(gcode2, shown) :=
        fold_left (fun '(lines, shown) op =>
                     let '(l, a) := operation_lines gunits passDepth (plungeRate i) (rapidRate i)
                                      (cutRate i) safeZ (topZ i) tabZ ox oy tabGeometry op in
                     (app lines l, app shown a))
                  ops (gcode1, []) in
      let gcode3 := app gcode2 (postamble (returnTo00 i) (rapidRate i)) in
      Returns {| gcode := join_lines gcode3;
                 alerts := app (alerts s1) shown;
                 events := app (events s1) ["UPDATE_SIMULATION"];
                 tutorial := app (tutorial s1) [5%nat] |}
  end.

(** The array [gcode] as it stands when it is joined, for inputs that
    get that far: preamble, one block per operation, postamble. *)
Definition operation_blocks (i : Inputs) : list string :=
  let passDepth := if js_lt (tool_passDepth i) 0 then 0%Q else tool_passDepth i in
  let '(ox, oy) := origin_offset (origin i) (svgBB i) (tpBB i) (extraOffsetX i) (extraOffsetY i) in
  flat_map (fun op => fst (operation_lines (units i) passDepth (plungeRate i) (rapidRate i)
                             (cutRate i) (zSafeMove i) (topZ i) (topZ i - maxCutDepth i)%Q ox oy
                             (build_tabGeometry (diameter i) (tabs i)) op))
           (enabled_ops (operations i)).

Definition emitted_lines (i : Inputs) (unit_line : string) : list string :=
  let '(ox, oy) := origin_offset (origin i) (svgBB i) (tpBB i) (extraOffsetX i) (extraOffsetY i) in
  app (preamble i unit_line ox oy)
      (app (operation_blocks i) (postamble (returnTo00 i) (rapidRate i))).

End Generate.

End Inline.

(** ** src/GcodeGenerationViewModel.js: the revision that drives a
    [Gcode.Generator] *)
Module Generator.

(** Modelled from the spec: the constants of [App.Ops], which is not
    among the sources; section 3 lists the operation kinds as Pocket,
    OutlineInside, OutlineOutside, Engrave, Perforate and Drill. *)
Inductive OpKind : Type :=
| Pocket | OutlineInside | OutlineOutside | Engrave | Perforate | Drill.

Definition OpKind_eqb (a b : OpKind) : bool :=
  match a, b with
  | Pocket, Pocket | OutlineInside, OutlineInside | OutlineOutside, OutlineOutside
  | Engrave, Engrave | Perforate, Perforate | Drill, Drill => true
  | _, _ => false
  end.

(** An operation of [App.models.Operations.operations()]; [cutDepth] is
    [Number(op.cutDepth())]. *)
Record Operation : Type := mkOperation {
  enabled : bool;
  toolPaths : option (list CamPath);   (* [None] is [null] *)
  name : string;
  operation : OpKind;
  direction : string;
  cutDepth : Q;
  ramp : bool;
  spindleSpeed : Q
}.

(** [opCard] *)
Record OpCard : Type := mkOpCard {
  c_name : string;
  c_cutType : OpKind;
  c_paths : list CamPath;
  c_ramp : bool;
  c_cutDepth : Q;
  c_direction : string;
  c_spinSpeed : Q;
  c_passDepth : Q;
  c_precalculatedZ : bool
}.

(** The options [new Gcode.Generator({...})] is called with. *)
Record JobOptions : Type := mkJobOptions {
  gunits : string;
  xScale : Q;
  yScale : Q;
  zScale : Q;
  decimal : Q;
  topZ : Q;
  botZ : Q;
  safeZ : Q;
  passDepth : Q;
  plungeFeed : Q;
  retractFeed : Q;
  cutFeed : Q;
  rapidFeed : Q;
  returnTo00 : bool;
  workWidth : Q;
  workHeight : Q;
  offsetX : Q;
  offsetY : Q
}.

Definition set_passDepth (o : JobOptions) (v : Q) : JobOptions :=
  {| gunits := gunits o; xScale := xScale o; yScale := yScale o; zScale := zScale o;
     decimal := decimal o; topZ := topZ o; botZ := botZ o; safeZ := safeZ o;
     passDepth := v;
     plungeFeed := plungeFeed o; retractFeed := retractFeed o; cutFeed := cutFeed o;
     rapidFeed := rapidFeed o; returnTo00 := returnTo00 o; workWidth := workWidth o;
     workHeight := workHeight o; offsetX := offsetX o; offsetY := offsetY o |}.

(** The observables and models the function reads; quantities with a
    unit are given as [toUnits] returns them. *)
Record Inputs : Type := mkInputs {
  allowGen : bool;
  operations : list Operation;
  units : string;
  material_topZ : Q;
  material_botZ : Q;
  zSafeMove : Q;
  tool_passDepth : Q;
  plungeRate : Q;
  rapidRate : Q;
  cutRate : Q;
  maxCutDepth : Q;
  diameter : Q;              (* in integer units *)
  tabs : list Tab;
  svgBB : BBox;
  tpBB : BBox;
  origin : string;
  extraOffsetX : Q;
  extraOffsetY : Q;
  bbWidth : Q;
  bbHeight : Q;
  i_returnTo00 : bool
}.

Record ViewState : Type := mkViewState {
  gcode : list string;         (* the [gcode] observable *)
  gcodeS : string;             (* kept equal to [gcode().join("\n")] by a subscription *)
  alerts : list Alert;         (* calls of [App.showAlert], oldest first *)
  events : list string;        (* events dispatched on [document] *)
  tutorial : list nat          (* calls of [App.tutorial] *)
}.

Section Generate.

(** [Gcode.js] (the [Generator] class), [CutPaths.js] and
    [UnitConverter.js] are not among the sources.  [G] is whatever a
    generator keeps besides the properties this file reads and
    writes. *)
Variable G : Type.

(** The generator [job]: the options it was built with, the two
    properties assigned afterwards, and the rest. *)
Record Job : Type := mkJob {
  options : JobOptions;
  tabZ : option Q;
  tabGeometry : option Paths;
  rest : G
}.

Variable Generator_new : JobOptions -> G.
Variable Generator_addOperation : OpCard -> Job -> Job.
Variable Generator_end : Job -> list string.
Variable CutPaths_offset : Paths -> Q -> Paths.
Variable CutPaths_union : Paths -> Paths -> Paths.
Variable integer_to : string -> Q.

Local Open Scope string_scope.

Definition has_paths (op : Operation) : bool :=
  match toolPaths op with
  | None => false
  | Some tps => (0 <? length tps)%nat
  end.

Definition enabled_ops (ops : list Operation) : list Operation :=
  List.filter (fun op => enabled op && has_paths op)%bool ops.

Definition build_tabGeometry (diameter : Q) (tabs : list Tab) : Paths :=
  fold_left (fun tabGeometry tab =>
               if tab_enabled tab then
                 let bloat := (diameter / 2)%Q in
                 let tg := CutPaths_offset (combinedGeometry tab) bloat in
                 CutPaths_union tabGeometry tg
               else tabGeometry)
            tabs [].

(** [const precalc = ...; const opCard = {...}; if (opCard.cutDepth < 0)
    {...}]: the card handed to [job.addOperation] and the alert shown
    on the way. *)
Definition is_precalc (k : OpKind) : bool :=
  (OpKind_eqb k Perforate || OpKind_eqb k Drill)%bool.

Definition make_opCard (job_passDepth : Q) (op : Operation) : OpCard * list Alert :=
  let precalc := is_precalc (operation op) in
  let opCard :=
    {| c_name := name op;
       c_cutType := operation op;
       c_paths := default [] (toolPaths op);
       c_ramp := ramp op;
       c_cutDepth := cutDepth op;
       c_direction := direction op;
       c_spinSpeed := spindleSpeed op;
       c_passDepth := if precalc then cutDepth op else job_passDepth;
       c_precalculatedZ := precalc |} in
  if js_lt (c_cutDepth opCard) 0 then
    ({| c_name := c_name opCard; c_cutType := c_cutType opCard; c_paths := c_paths opCard;
        c_ramp := c_ramp opCard;
        c_cutDepth := 0%Q;
        c_direction := c_direction opCard; c_spinSpeed := c_spinSpeed opCard;
        c_passDepth := c_passDepth opCard; c_precalculatedZ := c_precalculatedZ opCard |},
     [mkAlert "cutDepthTooSmall" "alert-warning" []])
  else (opCard, []).

(** [for (const op of ops) { ...; job.addOperation(opCard); }].  The
    card reads [job.passDepth] from the generator as it is then. *)
Definition add_operations (ops : list Operation) (job : Job) (shown : list Alert)
  : Job * list Alert :=
  fold_left (fun '(job, shown) op =>
               let '(opCard, a) := make_opCard (passDepth (options job)) op in
               (Generator_addOperation opCard job, app shown a))
            ops (job, shown).

(** The alert shown for an operation. *)
Definition cut_alerts (op : Operation) : list Alert :=
  if js_lt (cutDepth op) 0 then [mkAlert "cutDepthTooSmall" "alert-warning" []] else [].

(** The alert shown for the job. *)
Definition pass_alerts (i : Inputs) : list Alert :=
  if js_lt (tool_passDepth i) 0
  then [mkAlert "passDepthTooSmall" "alert-warning" [tool_passDepth i]] else [].

(** The cards [job.addOperation] is called with, in order. *)
Fixpoint opCards (ops : list Operation) (job : Job) : list OpCard :=
  match ops with
  | [] => []
  | op :: ops' =>
      let opCard := fst (make_opCard (passDepth (options job)) op) in
      opCard :: opCards ops' (Generator_addOperation opCard job)
  end.

Definition join_lines (lines : list string) : string :=
  String.concat (String (Ascii.ascii_of_nat 10) EmptyString) lines.

(** The generator as it stands when the loop over the operations starts. *)
Definition prepare_job (i : Inputs) : Job * list Alert :=
  let gunits := units i in
  let '(ox, oy) := origin_offset (origin i) (svgBB i) (tpBB i) (extraOffsetX i) (extraOffsetY i) in
  let opts :=
    {| gunits := gunits;
       xScale := integer_to gunits;
       yScale := (- integer_to gunits)%Q;
       zScale := 1%Q;
       decimal := 2%Q;
       topZ := material_topZ i;
       botZ := material_botZ i;
       safeZ := zSafeMove i;
       passDepth := tool_passDepth i;
       plungeFeed := plungeRate i;
       retractFeed := rapidRate i;
       cutFeed := cutRate i;
       rapidFeed := rapidRate i;
       returnTo00 := i_returnTo00 i;
       workWidth := bbWidth i;
       workHeight := bbHeight i;
       offsetX := ox;
       offsetY := oy |} in
  let job := {| options := opts; tabZ := None; tabGeometry := None; rest := Generator_new opts |} in
  let job := {| options := options job;
                tabZ := Some (topZ (options job) - maxCutDepth i)%Q;
                tabGeometry := tabGeometry job; rest := rest job |} in
  let '(job, shown) :=
    if js_lt (passDepth (options job)) 0
    then ({| options := set_passDepth (options job) 0;
             tabZ := tabZ job; tabGeometry := tabGeometry job; rest := rest job |},
          [mkAlert "passDepthTooSmall" "alert-warning" [passDepth (options job)]])
    else (job, []) in
  ({| options := options job; tabZ := tabZ job;
      tabGeometry := Some (build_tabGeometry (diameter i) (tabs i));
      rest := rest job |},
   shown).

(** The generator after every card has been added. *)
Definition loaded_job (i : Inputs) : Job :=
  fold_left (fun job opCard => Generator_addOperation opCard job)
            (opCards (enabled_ops (operations i)) (fst (prepare_job i)))
            (fst (prepare_job i)).

(** [generateGcode()] *)
Definition generateGcode (i : Inputs) (s : ViewState) : Outcome ViewState :=
  if negb (allowGen i) then Returns s else
  let ops := enabled_ops (operations i) in
  if (length ops =? 0)%nat then Returns s else
  let '(job, shown) := prepare_job i in
  let '(job, shown) := add_operations ops job shown in
  let lines := Generator_end job in
  Returns {| gcode := lines;
             gcodeS := join_lines lines;
             alerts := app (alerts s) shown;
             events := app (events s) ["UPDATE_SIMULATION"];
             tutorial := app (tutorial s) [5%nat] |}.

End Generate.

End Generator.

(** ** What the specification says of the absent polygon algebra *)

(** Modelled from the spec: how far the result of [InternalPaths.offset]
    (InternalPaths.js is not among the sources) may be from the exact
    one.  Section 4.1: "Minkowski sum with a disk of radius |delta|,
    signed.  Joins are rounded (arc segments) with a chord tolerance of
    max(1, |delta| / 256)."  Section 3 puts every vertex on the integer
    grid, and section 8.1 has an offset right "up to one grid unit".  The
    tolerance is the chord tolerance and one grid unit. *)
Definition offset_tolerance (delta : Q) : Q := Qmax 1 (Qabs delta / 256) + 1.

(** Modelled from the spec: [InternalPaths.offset] with a negative
    delta.  Section 4.1: "Negative delta on an outer contour shrinks it;
    if the contour collapses, it is dropped (no failure)."  With
    [inradius] the radius of the largest disk that fits inside a polygon
    set: the exact sum with a disk of radius [|delta|] takes [|delta|]
    off that radius; the offset of the specification does so up to
    [offset_tolerance], whichever way the contours are listed, and what
    has no room left is not in the result.  Nothing is said of a
    [|delta|] below the tolerance: there the result may be the contours
    as they were. *)
Definition shrinking_within_tolerance
           (offset : Paths -> Q -> Paths) (inradius : Paths -> Q) : Prop :=
  (forall g, 0 <= inradius g)
  /\ (forall g, inradius (map (@rev JsPoint) g) == inradius g)
  /\ (forall g delta, delta < 0 -> offset g delta <> [] ->
                      inradius (offset g delta)
                      <= inradius g + delta + offset_tolerance delta).

(** Modelled from the spec: how [InternalPaths.mergePaths] and
    [InternalPaths.crosses] look at the clip polygon.  Section 4.1 has them
    ask whether a segment crosses "the boundary of clip": the boundary is
    the same whichever way a contour is listed. *)
Definition clip_direction_irrelevant
           (merge : option Paths -> Paths -> Paths)
           (crosses : option Paths -> JsPoint -> JsPoint -> bool) : Prop :=
  (forall clip ps, merge (Some (map (@rev JsPoint) clip)) ps = merge (Some clip) ps)
  /\ (forall clip a b, crosses (Some (map (@rev JsPoint) clip)) a b = crosses (Some clip) a b).

(** Modelled from the spec: [InternalPaths.mergePaths] called without a
    clip polygon, as [engrave] calls it.  Section 4.1 joins consecutive
    paths only where they "share an endpoint inside clip"; with no clip
    polygon there is no such endpoint, and every path is returned as it
    came, in order. *)
Definition unclipped_paths_stay_apart (merge : option Paths -> Paths -> Paths) : Prop :=
  forall paths, merge None paths = paths.

(** Modelled from the spec: the shape of what the absent polygon algebra
    returns.  Section 3: "A path's first and last points are never equal
    (no duplicate closing vertex)", and the grid is fine enough that
    "rounding never produces degenerate edges".  The merger is taken to
    hand on paths of that shape when it is given such paths. *)
Definition offset_well_shaped (offset : Paths -> Q -> Paths) : Prop :=
  forall g delta, Forall well_shaped (offset g delta).

Definition merge_keeps_shape (merge : option Paths -> Paths -> Paths) : Prop :=
  forall clip ps, Forall well_shaped ps -> Forall well_shaped (merge clip ps).

(** ** A small concrete geometry

    Instances of the absent geometry functions on which the development
    can be run: every polygon is taken to be its bounding rectangle. *)
Module Sample.

(** Least and greatest element of a non-empty list. *)
Definition lo (l : list Q) : Q :=
  match l with
  | [] => 0
  | a :: l' => fold_right Qmin a l'
  end.

Definition hi (l : list Q) : Q := - lo (map Qopp l).

Record Box : Type := mkBox { x_lo : Q; x_hi : Q; y_lo : Q; y_hi : Q }.

Definition box_of (xs ys : list Q) : option Box :=
  match xs with
  | [] => None
  | _ :: _ => Some {| x_lo := lo xs; x_hi := hi xs; y_lo := lo ys; y_hi := hi ys |}
  end.

(** Two rectangles with the same sides. *)
Definition same_box (b b' : Box) : Prop :=
  x_lo b == x_lo b' /\ x_hi b == x_hi b' /\ y_lo b == y_lo b' /\ y_hi b == y_hi b'.

Definition same_bbox (o o' : option Box) : Prop :=
  match o, o' with
  | Some b, Some b' => same_box b b'
  | None, None => True
  | _, _ => False
  end.

Definition Xs (p : Path) : list Q :=
  flat_map (fun v => match v with Pt X _ => [X] | Undefined => [] end) p.
Definition Ys (p : Path) : list Q :=
  flat_map (fun v => match v with Pt _ Y => [Y] | Undefined => [] end) p.

Definition bbox (p : Path) : option Box := box_of (Xs p) (Ys p).

Definition rectangle (b : Box) : Path :=
  [Pt (x_lo b) (y_lo b); Pt (x_hi b) (y_lo b); Pt (x_hi b) (y_hi b); Pt (x_lo b) (y_hi b)].

(** Modelled from the spec: [InternalPaths.offset], for rectangles.
    Section 4.1: a negative delta shrinks a contour, and a contour that
    collapses is dropped. *)
Definition offset_path (delta : Q) (p : Path) : Paths :=
  match bbox p with
  | None => []
  | Some b =>
      let b' := {| x_lo := x_lo b - delta; x_hi := x_hi b + delta;
                   y_lo := y_lo b - delta; y_hi := y_hi b + delta |} in
      if (js_lt (x_lo b') (x_hi b') && js_lt (y_lo b') (y_hi b'))%bool
      then [rectangle b'] else []
  end.

Definition offset (ps : Paths) (delta : Q) : Paths := flat_map (offset_path delta) ps.

(** The grid point nearest to a coordinate. *)
Definition nearest (q : Q) : Q := inject_Z (Qfloor (q + (1 # 2))).

(** Modelled from the spec: [InternalPaths.offset] on the integer grid
    of section 3 ("IntegerPoint. { x: i64, y: i64 }.  All polygon algebra
    and clipping operates in this space"), for rectangles: the sides are
    moved by [delta] and put on the nearest grid point, and a rectangle
    with no room left is dropped. *)
Definition grid_offset_path (delta : Q) (p : Path) : Paths :=
  match bbox p with
  | None => []
  | Some b =>
      let b' := {| x_lo := nearest (x_lo b - delta); x_hi := nearest (x_hi b + delta);
                   y_lo := nearest (y_lo b - delta); y_hi := nearest (y_hi b + delta) |} in
      if (js_lt (x_lo b') (x_hi b') && js_lt (y_lo b') (y_hi b'))%bool
      then [rectangle b'] else []
  end.

Definition grid_offset (ps : Paths) (delta : Q) : Paths :=
  flat_map (grid_offset_path delta) ps.

(** Half the shorter side of the bounding rectangle: the radius of the
    largest disk inside it. *)
Definition inradius_path (p : Path) : Q :=
  match bbox p with
  | None => 0
  | Some b => Qmax 0 (Qmin (x_hi b - x_lo b) (y_hi b - y_lo b) / 2)
  end.

Definition inradius (ps : Paths) : Q :=
  fold_right (fun p m => Qmax (inradius_path p) m) 0 ps.

(** Modelled from the spec: [InternalPaths.mergePaths] where no two
    paths can be joined (section 4.1: every output path starts with an
    unmerged input, and un-mergeable inputs keep their order), and
    [InternalPaths.crosses] where no segment crosses the clip polygon. *)
Definition unmerged (clip : option Paths) (ps : Paths) : Paths := ps.
Definition never_crosses (clip : option Paths) (a b : JsPoint) : bool := false.

(** [Polygon.contains], [Segment.intersect] and the distance on
    bounding rectangles. *)
Definition box2d (poly : Polygon) : option Box := box_of (map x poly) (map y poly).

Definition between (a v b : Q) : bool := (Qle_bool a v && Qle_bool v b)%bool.
Definition strictly_between (a v b : Q) : bool := (js_lt a v && js_lt v b)%bool.

Definition contains (poly : Polygon) (p : Point2d) : bool :=
  match box2d poly with
  | None => false
  | Some b => (between (x_lo b) (x p) (x_hi b) && between (y_lo b) (y p) (y_hi b))%bool
  end.

(** Where the segment meets the line [x = c] within [y_lo, y_hi]. *)
Definition meet_vertical (p0 p1 : Point2d) (b : Box) (c : Q) : list Point2d :=
  if Qeq_bool (x p0) (x p1) then []
  else
    let t := (c - x p0) / (x p1 - x p0) in
    let Y := y p0 + t * (y p1 - y p0) in
    if (between 0 t 1 && between (y_lo b) Y (y_hi b))%bool
    then [{| x := c; y := Qred Y |}] else [].

(** Where the segment meets the line [y = c] strictly within [x_lo, x_hi]. *)
Definition meet_horizontal (p0 p1 : Point2d) (b : Box) (c : Q) : list Point2d :=
  if Qeq_bool (y p0) (y p1) then []
  else
    let t := (c - y p0) / (y p1 - y p0) in
    let X := x p0 + t * (x p1 - x p0) in
    if (between 0 t 1 && strictly_between (x_lo b) X (x_hi b))%bool
    then [{| x := Qred X; y := c |}] else [].

Definition intersect (p0 p1 : Point2d) (poly : Polygon) : list Point2d :=
  match box2d poly with
  | None => []
  | Some b =>
      meet_vertical p0 p1 b (x_lo b) ++ meet_vertical p0 p1 b (x_hi b)
      ++ meet_horizontal p0 p1 b (y_lo b) ++ meet_horizontal p0 p1 b (y_hi b)
  end.

(** The square of the distance: it orders points as the distance does. *)
Definition distance2 (a b : Point2d) : Q :=
  (x a - x b) * (x a - x b) + (y a - y b) * (y a - y b).

(** The 20 mm square of scenario S1 (in mm), and the tab and the tool
    path of scenario S4. *)
Definition square20 : Path := [Pt 0 0; Pt 20 0; Pt 20 20; Pt 0 20].
Definition tab_S4 : Path := [Pt 4 (-1); Pt 6 (-1); Pt 6 1; Pt 4 1].
Definition path_S4 : Path := [Pt 0 0; Pt 10 0].

(** Stand-ins for the rendering of numbers and for the absent emitter. *)
Definition show_Z (z : Z) : string := DecimalString.NilZero.string_of_int (Z.to_int z).

Definition number (q : Q) : string :=
  let r := Qred q in
  if (Qden r =? 1)%positive then show_Z (Qnum r)
  else (show_Z (Qnum r) ++ "/" ++ show_Z (Zpos (Qden r)))%string.

Definition generate (a : Inline.GenerateArgs) : list string :=
  [("G1 Z" ++ number (Inline.g_botZ a) ++ " F" ++ number (Inline.g_plungeFeed a))%string].

Definition scale (gunits : string) : Q := 1 # 1000000.

Definition page : BBox := {| bb_left := 0; bb_bottom := 100; bb_width := 100; bb_height := 100 |}.

(** A job for the revision that writes the postamble itself. *)
Definition pocket_op (on : bool) : Inline.Operation :=
  {| Inline.enabled := on;
     Inline.toolPaths := Some [{| path := square20; safeToClose := true |}];
     Inline.name := "pocket 1"; Inline.operation := "Pocket";
     Inline.direction := "Conventional"; Inline.cutDepth := 3; Inline.ramp := false |}.

Definition job (ops : list Inline.Operation) (back : bool) : Inline.Inputs :=
  {| Inline.allowGen := true; Inline.operations := ops; Inline.units := "mm";
     Inline.zSafeMove := 5; Inline.rapidRate := 1000; Inline.plungeRate := 100;
     Inline.cutRate := 300; Inline.tool_passDepth := 1; Inline.topZ := 0;
     Inline.maxCutDepth := 2; Inline.diameter := 3; Inline.tabs := [];
     Inline.svgBB := page; Inline.tpBB := page; Inline.origin := "SVG page";
     Inline.extraOffsetX := 0; Inline.extraOffsetY := 0;
     Inline.bbWidth := 20; Inline.bbHeight := 20; Inline.returnTo00 := back |}.

Definition blank : Inline.ViewState :=
  {| Inline.gcode := ""; Inline.alerts := []; Inline.events := []; Inline.tutorial := [] |}.

(** A job for the revision that drives a generator; the stand-in
    generator keeps the cards it is given. *)
Definition perforate_op (depth : Q) : Generator.Operation :=
  {| Generator.enabled := true;
     Generator.toolPaths := Some [{| path := [Pt 1 1; Pt 1 1]; safeToClose := false |}];
     Generator.name := "holes"; Generator.operation := Generator.Perforate;
     Generator.direction := "Conventional"; Generator.cutDepth := depth;
     Generator.ramp := false; Generator.spindleSpeed := 0 |}.

Definition engrave_op (depth : Q) : Generator.Operation :=
  {| Generator.enabled := true;
     Generator.toolPaths := Some [{| path := square20; safeToClose := true |}];
     Generator.name := "letters"; Generator.operation := Generator.Engrave;
     Generator.direction := "Conventional"; Generator.cutDepth := depth;
     Generator.ramp := false; Generator.spindleSpeed := 0 |}.

Definition generator_job (ops : list Generator.Operation) (pass : Q) : Generator.Inputs :=
  {| Generator.allowGen := true; Generator.operations := ops; Generator.units := "mm";
     Generator.material_topZ := 0; Generator.material_botZ := -10;
     Generator.zSafeMove := 5; Generator.tool_passDepth := pass;
     Generator.plungeRate := 100; Generator.rapidRate := 1000; Generator.cutRate := 300;
     Generator.maxCutDepth := 2; Generator.diameter := 3; Generator.tabs := [];
     Generator.svgBB := page; Generator.tpBB := page; Generator.origin := "SVG page";
     Generator.extraOffsetX := 0; Generator.extraOffsetY := 0;
     Generator.bbWidth := 20; Generator.bbHeight := 20; Generator.i_returnTo00 := false |}.

Definition generator_blank : Generator.ViewState :=
  {| Generator.gcode := []; Generator.gcodeS := ""; Generator.alerts := [];
     Generator.events := []; Generator.tutorial := [] |}.

Definition keep_card (c : Generator.OpCard) (j : Generator.Job (list Generator.OpCard))
  : Generator.Job (list Generator.OpCard) :=
  {| Generator.options := Generator.options _ j; Generator.tabZ := Generator.tabZ _ j;
     Generator.tabGeometry := Generator.tabGeometry _ j;
     Generator.rest := Generator.rest _ j ++ [c] |}.

Definition card_lines (j : Generator.Job (list Generator.OpCard)) : list string :=
  map (fun c => ("; " ++ Generator.c_name c)%string) (Generator.rest _ j).

End Sample.

(** ** Cam.js: the parts of [outline] *)
Section OutlineParts.

Variable InternalPaths_offset : Paths -> Q -> Paths.
Variable InternalPaths_diff : Paths -> Paths -> Paths.

(** [current] as [outline] first computes it: the geometry offset by
    half the cutter diameter, inwards for an inside cut. *)
Definition outline_start (geometry : Paths) (cutterDia : Q) (isInside : bool) : Paths :=
  if isInside then InternalPaths_offset geometry (- cutterDia / 2)
  else InternalPaths_offset geometry (cutterDia / 2).

(** [bounds] *)
Definition outline_bounds (geometry : Paths) (cutterDia : Q) (isInside : bool) (width : Q)
  : Paths :=
  if isInside then
    InternalPaths_diff (InternalPaths_offset geometry (- cutterDia / 2))
                       (InternalPaths_offset geometry (- (width - cutterDia / 2)))
  else
    InternalPaths_diff (InternalPaths_offset geometry (width - cutterDia / 2))
                       (InternalPaths_offset geometry (cutterDia / 2)).

End OutlineParts.

(** [needReverse] *)
Definition outline_needReverse (isInside climb : bool) : bool :=
  if isInside then climb else negb climb.

(** ** Cam.js: counts along the walk of [separateTabs] *)
Section WalkCounts.

Variable Segment_intersect : Point2d -> Point2d -> Polygon -> list Point2d.

(** In how many points the segment from [p0] to [p1] meets the
    boundaries of the tab polygons. *)
Definition segment_meets (tabPolys : list Polygon) (p0 p1 : Point2d) : nat :=
  list_sum (map (fun tab => length (Segment_intersect p0 p1 tab)) tabPolys).

(** The same, summed over the segments the walk follows from [p0]. *)
Fixpoint walk_meets (tabPolys : list Polygon) (p0 : Point2d) (pts : list Point2d) : nat :=
  match pts with
  | [] => 0
  | p1 :: rest =>
      if moved p1 p0
      then (segment_meets tabPolys p0 p1 + walk_meets tabPolys p1 rest)%nat
      else walk_meets tabPolys p0 rest
  end.

End WalkCounts.

(** The vertices the walk moves to: each vertex that is not the point
    the walk stands on when it comes to it. *)
Fixpoint stops (p0 : Point2d) (pts : list Point2d) : list Point2d :=
  match pts with
  | [] => []
  | p1 :: rest => if moved p1 p0 then p1 :: stops p1 rest else stops p0 rest
  end.

(** ** Saving the G-code: what the host is asked to do *)
Inductive HostCall : Type :=
| HideModals                                      (* [App.hideModals()] *)
| WindowAlert (message : string)                  (* [alert(message, ...)] *)
| SaveAs (content : string) (filename : string).  (* [saveAs(new Blob([content]), filename)] *)

(** The text [Click "Generate Gcode" first]. *)
Definition click_generate_first : string :=
  let quote := String (Ascii.ascii_of_nat 34) EmptyString in
  ("Click " ++ quote ++ "Generate Gcode" ++ quote ++ " first")%string.

(** ** js/SelectionViewModel.js, second document: what [generateGcode]
    hands to [Gcode.generate], and [haveGcode], [saveGcodeInFile] *)
Module InlineCalls.

Import Inline.

(** A depth after [if (depth < 0) { ...; depth = 0; }]. *)
Definition clamped (depth : Q) : Q := if js_lt depth 0 then 0 else depth.

Section Calls.

Variable InternalPaths_offset : Paths -> Q -> Paths.
Variable InternalPaths_clip_union : Paths -> Paths -> Paths.
Variable internal_to : string -> Q.
Variable Number_toString : Q -> string.

Local Open Scope string_scope.

(** The eight comment lines pushed for an operation before
    [Gcode.generate] is called. *)
Definition operation_header (i : Inputs) (op : Operation) : list string :=
  [ "; ** Operation **";
    "; Name:        " ++ name op;
    "; Type:        " ++ operation op;
    "; Paths:       " ++ Number_toString (inject_Z (Z.of_nat (length (default [] (toolPaths op)))));
    "; Direction:   " ++ direction op;
    "; Cut Depth:   " ++ Number_toString (clamped (cutDepth op)) ++ units i;
    "; Pass Depth:  " ++ Number_toString (clamped (tool_passDepth i)) ++ units i;
    "; Plunge rate: " ++ Number_toString (plungeRate i) ++ units i ++ "/min" ].

(** The object [Gcode.generate] is called with for an operation. *)
Definition operation_args (i : Inputs) (op : Operation) : GenerateArgs :=
  let offset := origin_offset (origin i) (svgBB i) (tpBB i) (extraOffsetX i) (extraOffsetY i) in
  {| g_paths := default [] (toolPaths op);
     g_ramp := ramp op;
     g_xScale := internal_to (units i);
     g_yScale := (- internal_to (units i))%Q;
     g_zScale := 1%Q;
     g_offsetX := fst offset;
     g_offsetY := snd offset;
     g_useZ := (String.eqb (operation op) "V Carve" || String.eqb (operation op) "Perforate")%bool;
     g_tabGeometry := build_tabGeometry InternalPaths_offset InternalPaths_clip_union
                                        (diameter i) (tabs i);
     g_tabZ := (topZ i - maxCutDepth i)%Q;
     g_decimal := 2%Q;
     g_topZ := topZ i;
     g_botZ := (topZ i - clamped (cutDepth op))%Q;
     g_safeZ := zSafeMove i;
     g_passDepth := if String.eqb (operation op) "Perforate"
                    then clamped (cutDepth op) else clamped (tool_passDepth i);
     g_plungeFeed := plungeRate i;
     g_retractFeed := rapidRate i;
     g_cutFeed := cutRate i;
     g_rapidFeed := rapidRate i |}.

End Calls.

(** [haveGcode()]: [gc && gc !== ""], as a condition. *)
Definition haveGcode (s : ViewState) : bool := negb (String.eqb (gcode s) "").

(** [saveGcodeInFile()], with the [gcodeFilename] observable. *)
Definition saveGcodeInFile (gcodeFilename : string) (s : ViewState) : list HostCall :=
  HideModals
  :: (if String.eqb (gcode s) "" then [WindowAlert click_generate_first]
      else [SaveAs (gcode s) gcodeFilename]).

End InlineCalls.

(** ** src/GcodeGenerationViewModel.js: [haveGcode], [saveGcodeInFile] *)
Module GeneratorUse.

Import Generator.

(** The inputs with the operations that are disabled or have no tool
    paths, and the tabs that are disabled, taken away. *)
Definition only_enabled (i : Inputs) : Inputs :=
  {| allowGen := allowGen i;
     operations := List.filter (fun op => enabled op && has_paths op)%bool (operations i);
     units := units i;
     material_topZ := material_topZ i;
     material_botZ := material_botZ i;
     zSafeMove := zSafeMove i;
     tool_passDepth := tool_passDepth i;
     plungeRate := plungeRate i;
     rapidRate := rapidRate i;
     cutRate := cutRate i;
     maxCutDepth := maxCutDepth i;
     diameter := diameter i;
     tabs := List.filter tab_enabled (tabs i);
     svgBB := svgBB i;
     tpBB := tpBB i;
     origin := origin i;
     extraOffsetX := extraOffsetX i;
     extraOffsetY := extraOffsetY i;
     bbWidth := bbWidth i;
     bbHeight := bbHeight i;
     i_returnTo00 := i_returnTo00 i |}.

(** [haveGcode()]: [gc && gc.length > 0], as a condition. *)
Definition haveGcode (s : ViewState) : bool := (0 <? length (gcode s))%nat.

(** [saveGcodeInFile()], with the [gcodeFilename] observable. *)
Definition saveGcodeInFile (gcodeFilename : string) (s : ViewState) : list HostCall :=
  HideModals
  :: (if negb (haveGcode s) then []
      else [SaveAs (join_lines (gcode s)) gcodeFilename]).

End GeneratorUse.

(** ** unnamed/part_003, first document: the revision of
    [GcodeGenerationViewModel] that calls [Gcode.startJob],
    [Gcode.generateOperation] and [Gcode.endJob] *)
Module Staged.

(** An operation of [App.models.Operations.operations()]; [cutDepth] is
    [Number(op.cutDepth())]. *)
Record Operation : Type := mkOperation {
  enabled : bool;
  toolPaths : option (list CamPath);   (* [None] is [null] *)
  name : string;
  operation : string;
  direction : string;
  cutDepth : Q;
  ramp : bool
}.

(** [opCard] *)
Record OpCard : Type := mkOpCard {
  c_name : string;
  c_cutType : string;
  c_paths : list CamPath;
  c_ramp : bool;
  c_cutDepth : Q;
  c_direction : string;
  c_passDepth : Q;
  c_precalculatedZ : bool
}.

(** [jobCard], as it stands when [Gcode.startJob] is called. *)
Record JobCard : Type := mkJobCard {
  gunits : string;
  xScale : Q;
  yScale : Q;
  zScale : Q;
  decimal : Q;
  topZ : Q;
  botZ : Q;
  safeZ : Q;
  passDepth : Q;
  plungeFeed : Q;
  retractFeed : Q;
  cutFeed : Q;
  rapidFeed : Q;
  returnTo00 : bool;
  workWidth : Q;
  workHeight : Q;
  tabZ : Q;
  tabGeometry : Paths;
  offsetX : Q;
  offsetY : Q
}.

(** The observables and models the function reads; quantities with a
    unit are given as [toUnits] returns them. *)
Record Inputs : Type := mkInputs {
  allowGen : bool;
  operations : list Operation;
  units : string;
  material_topZ : Q;
  material_botZ : Q;
  zSafeMove : Q;
  tool_passDepth : Q;
  plungeRate : Q;
  rapidRate : Q;
  cutRate : Q;
  maxCutDepth : Q;
  diameter : Q;              (* in integer units *)
  tabs : list Tab;
  svgBB : BBox;
  tpBB : BBox;
  origin : string;
  extraOffsetX : Q;
  extraOffsetY : Q;
  bbWidth : Q;
  bbHeight : Q;
  i_returnTo00 : bool
}.

Section Generate.

(** [Gcode.js], [Clipper.js] and [UnitConverter.js] are not among the
    sources, nor is the constant [App.PolyOps.Perforate].  The functions
    of [Gcode.js] are given the array [gcode] and push lines on it: they
    are taken as functions from the array before to the array after. *)
Variable Gcode_startJob : JobCard -> list string -> list string.
Variable Gcode_generateOperation : OpCard -> JobCard -> list string -> list string.
Variable Gcode_endJob : JobCard -> list string -> list string.
Variable Clipper_offset : Paths -> Q -> Paths.
Variable Clipper_clip_union : Paths -> Paths -> Paths.
Variable integer_to : string -> Q.
Variable PolyOps_Perforate : string.

Local Open Scope string_scope.

Definition has_paths (op : Operation) : bool :=
  match toolPaths op with
  | None => false
  | Some tps => (0 <? length tps)%nat
  end.

Definition enabled_ops (ops : list Operation) : list Operation :=
  List.filter (fun op => enabled op && has_paths op)%bool ops.

Definition build_tabGeometry (diameter : Q) (tabs : list Tab) : Paths :=
  fold_left (fun tabGeometry tab =>
               if tab_enabled tab then
                 let bloat := (diameter / 2)%Q in
                 let tg := Clipper_offset (combinedGeometry tab) bloat in
                 Clipper_clip_union tabGeometry tg
               else tabGeometry)
            tabs [].

(** [jobCard] once the pass depth is clamped and tab geometry and
    origin offset are filled in, and the alert shown on the way. *)
Definition job_card (i : Inputs) : JobCard * list Alert :=
  let offset := origin_offset (origin i) (svgBB i) (tpBB i) (extraOffsetX i) (extraOffsetY i) in
  let '(passDepth, shown) :=
    if js_lt (tool_passDepth i) 0
    then (0%Q, [mkAlert "passDepthTooSmall" "alert-warning" [tool_passDepth i]])
    else (tool_passDepth i, []) in
  ({| gunits := units i;
      xScale := integer_to (units i);
      yScale := (- integer_to (units i))%Q;
      zScale := 1%Q;
      decimal := 2%Q;
      topZ := material_topZ i;
      botZ := material_botZ i;
      safeZ := zSafeMove i;
      passDepth := passDepth;
      plungeFeed := plungeRate i;
      retractFeed := rapidRate i;
      cutFeed := cutRate i;
      rapidFeed := rapidRate i;
      returnTo00 := i_returnTo00 i;
      workWidth := bbWidth i;
      workHeight := bbHeight i;
      tabZ := (material_topZ i - maxCutDepth i)%Q;
      tabGeometry := build_tabGeometry (diameter i) (tabs i);
      offsetX := fst offset;
      offsetY := snd offset |},
   shown).

(** [const opCard = {...}; if (opCard.cutDepth < 0) {...}]: the card
    handed to [Gcode.generateOperation] and the alert shown on the
    way. *)
Definition make_opCard (jobCard : JobCard) (op : Operation) : OpCard * list Alert :=
  let opCard :=
    {| c_name := name op;
       c_cutType := operation op;
       c_paths := default [] (toolPaths op);
       c_ramp := ramp op;
       c_cutDepth := cutDepth op;
       c_direction := direction op;
       c_passDepth := if String.eqb (operation op) "Perforate"
                      then cutDepth op else passDepth jobCard;
       c_precalculatedZ := String.eqb (operation op) PolyOps_Perforate |} in
  if js_lt (c_cutDepth opCard) 0 then
    ({| c_name := c_name opCard; c_cutType := c_cutType opCard; c_paths := c_paths opCard;
        c_ramp := c_ramp opCard;
        c_cutDepth := 0%Q;
        c_direction := c_direction opCard;
        c_passDepth := c_passDepth opCard; c_precalculatedZ := c_precalculatedZ opCard |},
     [mkAlert "cutDepthTooSmall" "alert-warning" []])
  else (opCard, []).

(** [generateGcode()] *)
Definition generateGcode (i : Inputs) (s : Inline.ViewState) : Outcome Inline.ViewState :=
  if negb (allowGen i) then Returns s else
  let ops := enabled_ops (operations i) in
  if (length ops =? 0)%nat then Returns s else
  let '(jobCard, shown) := job_card i in
  let gcode := Gcode_startJob jobCard [] in
  let '(gcode, shown) :=
    fold_left (fun '(gcode, shown) op =>
                 let '(opCard, a) := make_opCard jobCard op in
                 (Gcode_generateOperation opCard jobCard gcode, app shown a))
              ops (gcode, shown) in
  let gcode := Gcode_endJob jobCard gcode in
  Returns {| Inline.gcode := Inline.join_lines gcode;
             Inline.alerts := app (Inline.alerts s) shown;
             Inline.events := app (Inline.events s) ["UPDATE_SIMULATION"];
             Inline.tutorial := app (Inline.tutorial s) [5%nat] |}.

End Generate.

End Staged.

(** ** unnamed/part_001: [App.showAlert] and [App.tutorial] *)
Module App.

(** An alert [div] of the page.  [ref] stands for the identity of the
    element, [message] is what its [innerHTML] was set to. *)
Record AlertDiv : Type := mkAlertDiv {
  ref : nat;
  alerttype : string;
  message : string
}.

Record State : Type := mkState {
  placeholder : list AlertDiv;   (* the children of [#alert_placeholder], first child first *)
  created : nat;                 (* how many alert elements were created so far *)
  tutorialAlert : option nat;    (* [undefined], or the element of the tutorial alert *)
  currentTutorialStep : Z
}.

(** The application as its constructor leaves it, before any alert. *)
Definition initial : State :=
  {| placeholder := []; created := 0; tutorialAlert := None; currentTutorialStep := -1 |}.

Local Open Scope string_scope.

(** The character [$]. *)
Definition dollar : Ascii.ascii := Ascii.ascii_of_nat 36.

(** [\d] *)
Definition digit (c : Ascii.ascii) : option nat :=
  let n := Ascii.nat_of_ascii c in
  if ((48 <=? n) && (n <=? 57))%nat then Some (n - 48)%nat else None.

(** [params[index - 1]] as it is put into the text: the text
    [undefined] where there is no such parameter. *)
Definition param (params : list string) (index : nat) : string :=
  match index with
  | O => "undefined"
  | S k => nth k params "undefined"
  end.

(** Where the scan for [/\$(\d+)/g] stands: in plain text, behind a [$],
    or within the digits of an index. *)
Inductive Scan : Type :=
| Text
| Dollar
| Index (n : nat).

(** [template.replace(/\$(\d+)/g, (m, index) => params[index - 1])],
    read from left to right. *)
Fixpoint scan (params : list string) (st : Scan) (s : string) : string :=
  match s with
  | EmptyString =>
      match st with
      | Text => EmptyString
      | Dollar => String dollar EmptyString
      | Index n => param params n
      end
  | String c rest =>
      let plain :=
        if Ascii.eqb c dollar then scan params Dollar rest
        else String c (scan params Text rest) in
      match st with
      | Text => plain
      | Dollar =>
          match digit c with
          | Some d => scan params (Index d) rest
          | None => String dollar plain
          end
      | Index n =>
          match digit c with
          | Some d => scan params (Index (10 * n + d)) rest
          | None => param params n ++ plain
          end
      end
  end.

Definition expand (template : string) (params : list string) : string :=
  scan params Text template.

(** A text without [$]. *)
Fixpoint plain (s : string) : bool :=
  match s with
  | EmptyString => true
  | String c rest => (negb (Ascii.eqb c dollar) && plain rest)%bool
  end.

(** A text that does not start with a digit. *)
Definition no_digit_ahead (s : string) : bool :=
  match s with
  | EmptyString => true
  | String c _ => match digit c with Some _ => false | None => true end
  end.

(** The number a run of digits stands for, after the digits that gave [n]. *)
Fixpoint index_of (n : nat) (digits : string) : nat :=
  match digits with
  | EmptyString => n
  | String c rest => index_of (10 * n + default 0%nat (digit c)) rest
  end.

(** A non-empty text of digits only. *)
Fixpoint all_digits (s : string) : bool :=
  match s with
  | EmptyString => true
  | String c rest => match digit c with Some _ => all_digits rest | None => false end
  end.

Section Page.

(** What the page holds: the message named [id] under [#alerts], the
    message of a tutorial step under [#tutorialSteps], if there is one;
    and how a step number reads in a text. *)
Variable alert_text : string -> option string.
Variable step_text : Z -> option string.
Variable Number_toString : Z -> string.

(** [showAlert(id, alerttype, ...params)]: the new element and the page
    with it.  The parameters are given as they read in a text. *)
Definition showAlert (id alerttype : string) (params : list string) (s : State)
  : nat * State :=
  let text := match alert_text id with
              | Some template => expand template params
              | None => id
              end in
  let alDiv := {| ref := created s; alerttype := alerttype; message := text |} in
  (ref alDiv,
   {| placeholder := alDiv :: placeholder s;
      created := S (created s);
      tutorialAlert := tutorialAlert s;
      currentTutorialStep := currentTutorialStep s |}).

(** [element.remove()] for an alert element. *)
Definition remove (r : nat) (s : State) : State :=
  {| placeholder := List.filter (fun a => negb (ref a =? r)%nat) (placeholder s);
     created := created s;
     tutorialAlert := tutorialAlert s;
     currentTutorialStep := currentTutorialStep s |}.

(** [tutorial(step)] *)
Definition tutorial (step : Z) (s : State) : State :=
  if (currentTutorialStep s <? step)%Z then
    let s1 := match tutorialAlert s with
              | Some r => remove r s
              | None => s
              end in
    match step_text step with
    | Some message =>
        let '(r, s2) := showAlert "tutorialStep" "alert-info"
                                  [Number_toString step; message] s1 in
        {| placeholder := placeholder s2;
           created := created s2;
           tutorialAlert := Some r;
           currentTutorialStep := step |}
    | None => s1
    end
  else s.

(** A run of calls of [tutorial]. *)
Definition tutorials (steps : list Z) (s : State) : State :=
  fold_left (fun s step => tutorial step s) steps s.

End Page.

End App.

(** ** js/SelectionViewModel.js, first document: the selection *)
Module Selection.

(** An SVG element as [clickOnSvg] uses it: which element it is, and its
    [class] and [fill-rule] attributes. *)
Record Element : Type := mkElement {
  el_ref : nat;
  el_class : option string;
  el_fill_rule : option string
}.

Definition attr_is (a : option string) (v : string) : bool :=
  match a with
  | Some s => String.eqb s v
  | None => false
  end.

Section Select.

(** [SnapPaths.js] is not among the sources: the path data it makes of
    an element, or what it throws, is a parameter (with the segment
    settings of [App.models.CurveConversion] it is called with). *)
Variable PathData : Type.
Variable SnapPaths_fromElement : Element -> Completion PathData.

(** A path of the selection group. *)
Record SelectedPath : Type := mkSelectedPath {
  sp_ref : nat;
  sp_path : PathData;
  sp_evenodd : bool            (* [fill-rule] was set to [evenodd] *)
}.

Record State : Type := mkState {
  svgGroup : list SelectedPath;       (* the paths in the selection group *)
  created : nat;                      (* how many elements the group has made *)
  numSelected : Z;
  shown : list (JsError * string)     (* calls of [App.showAlert(e, alerttype)] *)
}.

Local Open Scope string_scope.

(** [clickOnSvg(elem)]: whether the click was handled, and the state. *)
Definition clickOnSvg (elem : Element) (s : State) : bool * State :=
  let clas := el_class elem in
  if (attr_is clas "combinedGeometry" || attr_is clas "toolPath"
      || attr_is clas "tabsGeometry")%bool then (false, s)
  else if attr_is clas "selectedPath" then
    (true,
     {| svgGroup := List.filter (fun p => negb (sp_ref p =? el_ref elem)%nat) (svgGroup s);
        created := created s;
        numSelected := (numSelected s - 1)%Z;
        shown := shown s |})
  else
    match SnapPaths_fromElement elem with
    | Normal path =>
        (true,
         {| svgGroup := svgGroup s
                        ++ [{| sp_ref := created s; sp_path := path;
                               sp_evenodd := attr_is (el_fill_rule elem) "evenodd" |}];
            created := S (created s);
            numSelected := (numSelected s + 1)%Z;
            shown := shown s |})
    | Throw e =>
        (false,
         {| svgGroup := svgGroup s; created := created s; numSelected := numSelected s;
            shown := shown s ++ [(e, "alert-warning")] |})
    end.

(** [isSomethingSelected()] *)
Definition isSomethingSelected (s : State) : bool := (0 <? numSelected s)%Z.

(** [getSelection()] *)
Definition getSelection (s : State) : list SelectedPath := svgGroup s.

(** [clearSelection()] *)
Definition clearSelection (s : State) : State :=
  {| svgGroup := []; created := created s; numSelected := 0; shown := shown s |}.

(** The count is the size of the group, and the paths of the group are
    different elements made by the group. *)
Definition counted (s : State) : Prop :=
  numSelected s = Z.of_nat (length (svgGroup s))
  /\ List.NoDup (map sp_ref (svgGroup s))
  /\ Forall (fun p => (sp_ref p < created s)%nat) (svgGroup s).

(** The element of a path of the group. *)
Definition element_of (p : SelectedPath) : Element :=
  {| el_ref := sp_ref p; el_class := Some "selectedPath";
     el_fill_rule := if sp_evenodd p then Some "evenodd" else None |}.

End Select.

End Selection.

(** ** More examples to run the development on *)
Module Trial.

(** Stands in for [InternalPaths.diff] where a run needs one: the paths
    of the first operand. *)
Definition diff (a b : Paths) : Paths := a.

(** A square too small for a cutter of diameter 4. *)
Definition square2 : Path := [Pt 0 0; Pt 2 0; Pt 2 2; Pt 0 2].

(** A sum rounded to the nearest whole number: a coarse picture of the
    sum of doubles, which is rounded to 53 binary digits. *)
Definition add_whole (a b : Q) : Q := Sample.nearest (a + b).

(** Two tab polygons: the tab of scenario S4, and one far from every
    path of the examples. *)
Definition tab_near : Polygon :=
  [{| x := 4; y := -1 |}; {| x := 6; y := -1 |}; {| x := 6; y := 1 |}; {| x := 4; y := 1 |}].
Definition tab_far : Polygon :=
  [{| x := 20; y := 20 |}; {| x := 22; y := 20 |}; {| x := 22; y := 22 |}; {| x := 20; y := 22 |}].

(** Jobs for the revision that writes the postamble itself, in any
    units and with any depths. *)
Definition inline_op (kind : string) (depth : Q) : Inline.Operation :=
  {| Inline.enabled := true;
     Inline.toolPaths := Some [{| path := Sample.square20; safeToClose := true |}];
     Inline.name := "cut"; Inline.operation := kind;
     Inline.direction := "Conventional"; Inline.cutDepth := depth; Inline.ramp := false |}.

Definition inline_job (gunits : string) (pass : Q) (ops : list Inline.Operation)
  : Inline.Inputs :=
  {| Inline.allowGen := true; Inline.operations := ops; Inline.units := gunits;
     Inline.zSafeMove := 5; Inline.rapidRate := 1000; Inline.plungeRate := 100;
     Inline.cutRate := 300; Inline.tool_passDepth := pass; Inline.topZ := 0;
     Inline.maxCutDepth := 2; Inline.diameter := 3; Inline.tabs := [];
     Inline.svgBB := Sample.page; Inline.tpBB := Sample.page; Inline.origin := "SVG page";
     Inline.extraOffsetX := 0; Inline.extraOffsetY := 0;
     Inline.bbWidth := 20; Inline.bbHeight := 20; Inline.returnTo00 := false |}.

(** A selection with nothing in it, and an element of the drawing. *)
Definition nothing_selected : Selection.State string :=
  {| Selection.svgGroup := []; Selection.created := 0;
     Selection.numSelected := 0; Selection.shown := [] |}.

Definition drawn : Selection.Element :=
  {| Selection.el_ref := 7; Selection.el_class := None;
     Selection.el_fill_rule := Some "evenodd"%string |}.

Definition path_data (elem : Selection.Element) : Completion string :=
  Normal "M0,0 L20,0 L20,20 Z"%string.

End Trial.

(** ** Tactics *)

(** Name every minimum and maximum, keep what is known of it, and leave
    the rest to linear arithmetic. *)
Ltac name_minmax :=
  repeat match goal with
    | |- context [Qmin ?a ?b] =>
        let m := fresh "m" in
        pose proof (Q.min_spec a b); set (m := Qmin a b) in *; clearbody m
    | _ : context [Qmin ?a ?b] |- _ =>
        let m := fresh "m" in
        pose proof (Q.min_spec a b); set (m := Qmin a b) in *; clearbody m
    | |- context [Qmax ?a ?b] =>
        let m := fresh "m" in
        pose proof (Q.max_spec a b); set (m := Qmax a b) in *; clearbody m
    | _ : context [Qmax ?a ?b] |- _ =>
        let m := fresh "m" in
        pose proof (Q.max_spec a b); set (m := Qmax a b) in *; clearbody m
    end.

Ltac minmax :=
  name_minmax;
  repeat match goal with
    | H : _ \/ _ |- _ => destruct H as [[? ?]|[? ?]]
    end;
  lra.

(** * Properties *)

(** ** Numbers *)

Lemma js_lt_iff (a b : Q) : js_lt a b = true <-> a < b.
Proof.
  unfold js_lt. rewrite negb_true_iff. split; intros H.
  - apply Qnot_le_lt. intros Hle. apply Qle_bool_iff in Hle. congruence.
  - destruct (Qle_bool b a) eqn:E; [|reflexivity].
    apply Qle_bool_iff in E. lra.
Qed.

Lemma js_lt_false_iff (a b : Q) : js_lt a b = false <-> b <= a.
Proof.
  unfold js_lt. rewrite negb_false_iff. apply Qle_bool_iff.
Qed.

(** ** Strings *)

Lemma append_empty (s : string) : (s ++ "")%string = s.
Proof. induction s as [|c s IH]; [reflexivity|]. cbn. now rewrite IH. Qed.

Lemma append_assoc (a b c : string) : ((a ++ b) ++ c)%string = (a ++ (b ++ c))%string.
Proof. induction a as [|x a IH]; [reflexivity|]. cbn. now rewrite IH. Qed.

(** ** The store *)
Module StoreFacts.
Import Store.

Lemma deref_app_l (h ps : Heap) (r : Ref) :
  (r < length h)%nat -> deref (h ++ ps) r = deref h r.
Proof.
  intros Hr. unfold deref. now rewrite lookup_app_l.
Qed.

Lemma values_app_l (h ps : Heap) (refs : list Ref) :
  (forall r, In r refs -> (r < length h)%nat) ->
  values (h ++ ps) refs = values h refs.
Proof.
  intros Hrefs. unfold values. apply map_ext_in.
  intros r Hr. apply deref_app_l. auto.
Qed.

Lemma values_seq (h : Heap) (ps : Paths) :
  values (h ++ ps) (seq (length h) (length ps)) = ps.
Proof.
  revert h. induction ps as [|p ps IH]; intros h; simpl; [reflexivity|].
  f_equal.
  - unfold deref. rewrite lookup_app_r by lia.
    now replace (length h - length h)%nat with 0%nat by lia.
  - specialize (IH (h ++ [p])).
    rewrite <- app_assoc in IH. simpl in IH.
    rewrite length_app in IH. simpl in IH.
    now replace (length h + 1)%nat with (S (length h)) in IH by lia.
Qed.

Lemma length_reverse_each (refs : list Ref) (h : Heap) :
  length (reverse_each refs h) = length h.
Proof.
  revert h. induction refs as [|r refs IH]; intros h; simpl; [reflexivity|].
  unfold reverse_each in *. simpl. rewrite IH.
  unfold reverse_in_place. apply length_alter.
Qed.

Lemma deref_reverse_each_other (refs : list Ref) (h : Heap) (r : Ref) :
  ~ In r refs -> deref (reverse_each refs h) r = deref h r.
Proof.
  revert h. induction refs as [|r' refs IH]; intros h Hr; [reflexivity|].
  unfold reverse_each in *. simpl.
  rewrite IH by (intros Hin; apply Hr; now right).
  unfold deref, reverse_in_place.
  rewrite list_lookup_alter_ne; [reflexivity|].
  intros ->. apply Hr. now left.
Qed.

Lemma deref_reverse_each_in (refs : list Ref) (h : Heap) (r : Ref) :
  List.NoDup refs -> In r refs -> deref (reverse_each refs h) r = rev (deref h r).
Proof.
  revert h. induction refs as [|r' refs IH]; intros h Hnd Hr; [contradiction|].
  inversion Hnd as [|? ? Hnotin Hnd']; subst.
  unfold reverse_each in *. simpl.
  destruct Hr as [->|Hr].
  - fold (reverse_each refs (reverse_in_place r h)).
    rewrite deref_reverse_each_other by assumption.
    unfold deref, reverse_in_place. rewrite list_lookup_alter_eq.
    now destruct (h !! r).
  - rewrite IH by assumption.
    unfold deref, reverse_in_place.
    rewrite list_lookup_alter_ne; [reflexivity|].
    intros ->. contradiction.
Qed.

(** Reversing every array of [refs] in place, seen through [refs]. *)
Lemma values_reverse_each (refs : list Ref) (h : Heap) :
  List.NoDup refs -> values (reverse_each refs h) refs = map (@rev JsPoint) (values h refs).
Proof.
  intros Hnd. unfold values. rewrite map_map. apply map_ext_in.
  intros r Hr. now apply deref_reverse_each_in.
Qed.

End StoreFacts.

(** ** pocket *)
Section PocketFacts.

Variable offset : Paths -> Q -> Paths.
Variable merge : option Paths -> Paths -> Paths.
Variable crosses : option Paths -> JsPoint -> JsPoint -> bool.

Import Store StoreFacts.

Lemma direct_map (climb : bool) (ps : Paths) : direct climb ps = map (turn climb) ps.
Proof. destruct climb; simpl; [reflexivity|]. now rewrite map_id. Qed.

(** The heap after the optional in-place reversal of [current]. *)
Lemma reversed_heap (climb : bool) (h : Heap) (current : list Ref) :
  List.NoDup current ->
  let h1 := if climb then reverse_each current h else h in
  length h1 = length h
  /\ values h1 current = direct climb (values h current)
  /\ (forall r, In r current -> deref h1 r = turn climb (deref h r))
  /\ (forall r, ~ In r current -> deref h1 r = deref h r).
Proof.
  intros Hnd. destruct climb; simpl.
  - split; [apply length_reverse_each|].
    split; [now apply values_reverse_each|].
    split; intros r Hr.
    + now apply deref_reverse_each_in.
    + now apply deref_reverse_each_other.
  - repeat split; reflexivity.
Qed.

Lemma pocket_passes_step (climb : bool) (delta : Q) (fuel : nat) (current acc : Paths) :
  current <> [] ->
  pocket_passes offset (S fuel) climb delta current acc
  = pocket_passes offset fuel climb delta
      (offset (direct climb current) delta) (direct climb current ++ acc).
Proof. destruct current; [congruence|reflexivity]. Qed.

Lemma pocket_loop_step (climb : bool) (delta : Q) (fuel : nat)
      (h : Heap) (current allPaths : list Ref) :
  current <> [] ->
  pocket_loop offset (S fuel) climb delta h current allPaths
  = let h1 := if climb then reverse_each current h else h in
    let next := offset (values h1 current) delta in
    pocket_loop offset fuel climb delta (h1 ++ next)
      (seq (length h1) (length next)) (current ++ allPaths).
Proof. destruct current; [congruence|reflexivity]. Qed.

(** The loop on the store computes the passes of the specification: it
    stops for the same fuel, the references it returns hold the
    accumulated passes, the arrays it was started on are turned once and
    then left alone, and so are all older arrays. *)
Lemma pocket_loop_passes (climb : bool) (delta : Q) (fuel : nat) :
  forall (h : Heap) (current allPaths : list Ref),
    List.NoDup current ->
    (forall r, In r current -> (r < length h)%nat) ->
    (forall r, In r allPaths -> (r < length h)%nat /\ ~ In r current) ->
    match pocket_loop offset fuel climb delta h current allPaths with
    | None =>
        pocket_passes offset fuel climb delta (values h current) (values h allPaths) = None
    | Some (h', allPaths') =>
        pocket_passes offset fuel climb delta (values h current) (values h allPaths)
        = Some (values h' allPaths')
        /\ (forall r, In r current -> deref h' r = turn climb (deref h r))
        /\ (forall r, (r < length h)%nat -> ~ In r current -> deref h' r = deref h r)
    end.
Proof.
  induction fuel as [|fuel IH]; intros h current allPaths Hnd Hcur Hall; [reflexivity|].
  destruct (decide (current = [])) as [->|Hne].
  { simpl. split; [reflexivity|]. split; [intros r []|reflexivity]. }
  assert (Hvne : values h current <> []).
  { destruct current; [congruence|discriminate]. }
  rewrite pocket_loop_step, pocket_passes_step by assumption. cbv zeta.
  destruct (reversed_heap climb h current Hnd) as (Hlen & Hvals & Hin & Hout).
  set (h1 := if climb then reverse_each current h else h) in *.
  set (next := offset (values h1 current) delta).
  assert (Hfresh : forall r, In r (seq (length h1) (length next)) -> (length h <= r)%nat).
  { intros r Hr. apply in_seq in Hr. lia. }
  assert (Hold : forall r, (r < length h)%nat -> deref (h1 ++ next) r = deref h1 r).
  { intros r Hr. apply deref_app_l. lia. }
  assert (Hvnew : values (h1 ++ next) (current ++ allPaths)
                  = direct climb (values h current) ++ values h allPaths).
  { rewrite values_app_l.
    - unfold values at 1. rewrite map_app. fold (values h1 current). rewrite Hvals. f_equal.
      apply map_ext_in. intros r Hr. apply Hout. now apply Hall.
    - intros r Hr. rewrite Hlen. apply in_app_or in Hr as [Hr|Hr]; [auto|now apply Hall]. }
  specialize (IH (h1 ++ next) (seq (length h1) (length next)) (current ++ allPaths)).
  lapply IH; [clear IH; intros IH|apply seq_NoDup].
  lapply IH; [clear IH; intros IH|].
  2:{ intros r Hr. apply in_seq in Hr. rewrite length_app. lia. }
  lapply IH; [clear IH; intros IH|].
  2:{ intros r Hr. split.
      - rewrite length_app, Hlen.
        apply in_app_or in Hr as [Hr|Hr]; [specialize (Hcur r Hr)|destruct (Hall r Hr)]; lia.
      - intros Hr'. apply Hfresh in Hr'.
        apply in_app_or in Hr as [Hr|Hr]; [specialize (Hcur r Hr)|destruct (Hall r Hr)]; lia. }
  rewrite values_seq, Hvnew in IH. subst next. rewrite Hvals in *.
  destruct (pocket_loop offset fuel climb delta _ _ _) as [[h' all']|]; [|exact IH].
  destruct IH as (Hp & _ & Hframe).
  split; [exact Hp|]. split.
  - intros r Hr. rewrite Hframe.
    + rewrite Hold by auto. now apply Hin.
    + rewrite length_app, Hlen. specialize (Hcur r Hr). lia.
    + intros Hr'. apply Hfresh in Hr'. specialize (Hcur r Hr). lia.
  - intros r Hr Hnot. rewrite Hframe.
    + rewrite Hold by auto. now apply Hout.
    + rewrite length_app, Hlen. lia.
    + intros Hr'. apply Hfresh in Hr'. lia.
Qed.

End PocketFacts.

(** ** The pocket compiler follows the algorithm of the specification *)
Section PocketAlgorithm.

Variable offset : Paths -> Q -> Paths.
Variable merge : option Paths -> Paths -> Paths.
Variable crosses : option Paths -> JsPoint -> JsPoint -> bool.

Import Store StoreFacts.

(** What [pocket] returns, without the store: the passes of the
    specification, merged against the initial pass; the contours of
    that clip polygon are the path arrays of the first pass, so they
    have been reversed in place when [climb] is set. *)
Lemma pocket_computes (fuel : nat) (geometry : Paths) (cutterDia overlap : Q) (climb : bool) :
  pocket offset merge crosses fuel geometry cutterDia overlap climb
  = let g0 := offset geometry (- cutterDia / 2) in
    match pocket_passes offset fuel climb (- cutterDia * (1 - overlap)) g0 [] with
    | None => None
    | Some accumulated =>
        Some (mergePaths merge crosses (Some (direct climb g0)) accumulated)
    end.
Proof.
  unfold pocket, alloc. cbv zeta. simpl length. simpl app.
  set (g0 := offset geometry (- cutterDia / 2)).
  set (delta := - cutterDia * (1 - overlap)).
  pose proof (pocket_loop_passes offset climb delta fuel g0 (seq 0 (length g0)) []) as H.
  lapply H; [clear H; intros H|apply seq_NoDup].
  lapply H; [clear H; intros H|intros r Hr; apply in_seq in Hr; lia].
  lapply H; [clear H; intros H|intros r []].
  pose proof (values_seq [] g0) as Hv. simpl in Hv. rewrite Hv in H. simpl in H.
  destruct (pocket_loop offset fuel climb delta g0 (seq 0 (length g0)) []) as [[h' all']|].
  - destruct H as (Hp & Hturn & _). rewrite Hp.
    assert (Hclip : values h' (seq 0 (length g0)) = direct climb g0).
    { rewrite direct_map.
      assert (E : map (turn climb) g0 = map (turn climb) (values g0 (seq 0 (length g0))))
        by now rewrite Hv.
      rewrite E. unfold values. rewrite map_map.
      apply map_ext_in. intros r Hr. now apply Hturn. }
    now rewrite Hclip.
  - now rewrite H.
Qed.

Lemma mergePaths_direct (climb : bool) (clip ps : Paths) :
  clip_direction_irrelevant merge crosses ->
  mergePaths merge crosses (Some (direct climb clip)) ps
  = mergePaths merge crosses (Some clip) ps.
Proof.
  intros [Hm Hc]. destruct climb; simpl; [|reflexivity].
  unfold mergePaths. rewrite Hm. apply map_ext. intros p. now rewrite Hc.
Qed.

(** C1. For every geometry, cutter diameter, overlap and climb flag
    (and every bound on the number of loop tests), [pocket] computes
    what the algorithm of the specification computes: the initial pass
    is [offset(geometry, -cutterDia/2)]; while the current set is not
    empty it is put in front of the accumulated list, each path reversed
    first when [climb] is set, and replaced by its offset by
    [-cutterDia*(1-overlap)]; the result is [mergePaths] of the
    accumulated list against the initial pass.  When the bound is too
    small for the one it is too small for the other.  Under [climb] the
    contours of the clip polygon are the reversed arrays of the first
    pass; the merger and the crossing test are then taken to see a clip
    polygon through its boundary only. *)
Theorem pocket_follows_spec
        (fuel : nat) (geometry : Paths) (cutterDia overlap : Q) (climb : bool) :
  (climb = true -> clip_direction_irrelevant merge crosses) ->
  pocket offset merge crosses fuel geometry cutterDia overlap climb
  = pocket_spec offset merge crosses fuel geometry cutterDia overlap climb.
Proof.
  intros Hdir. rewrite pocket_computes. unfold pocket_spec. cbv zeta.
  destruct (pocket_passes offset fuel climb _ _ []) as [acc|]; [|reflexivity].
  f_equal. destruct climb; [|reflexivity].
  apply mergePaths_direct. now apply Hdir.
Qed.

End PocketAlgorithm.

Lemma pocket_follows_spec_witness :
  pocket Sample.offset Sample.unmerged Sample.never_crosses
         10 [Sample.square20] 3 (2 # 5) true
  = pocket_spec Sample.offset Sample.unmerged Sample.never_crosses
         10 [Sample.square20] 3 (2 # 5) true.
Proof.
  apply (pocket_follows_spec Sample.offset Sample.unmerged Sample.never_crosses
           10 [Sample.square20] 3 (2 # 5) true).
  intros _. split; intros; reflexivity.
Defined.

(** ** The pocket loop stops *)
Section PocketTermination.

Variable offset : Paths -> Q -> Paths.
Variable merge : option Paths -> Paths -> Paths.
Variable crosses : option Paths -> JsPoint -> JsPoint -> bool.
Variable inradius : Paths -> Q.

(** The step between two passes is strictly negative. *)
Lemma pocket_step_negative (cutterDia overlap : Q) :
  0 < cutterDia -> 0 <= overlap -> overlap < 1 -> - cutterDia * (1 - overlap) < 0.
Proof.
  intros Hc _ Ho.
  assert (H : 0 < cutterDia * (1 - overlap)) by (apply Qmult_lt_0_compat; lra).
  assert (E : - cutterDia * (1 - overlap) == - (cutterDia * (1 - overlap))) by ring.
  rewrite E. lra.
Qed.

(** More fuel does not change a result. *)
Lemma pocket_passes_more_fuel (climb : bool) (delta : Q) (fuel : nat) :
  forall (current acc res : Paths) (fuel' : nat),
    pocket_passes offset fuel climb delta current acc = Some res ->
    (fuel <= fuel')%nat ->
    pocket_passes offset fuel' climb delta current acc = Some res.
Proof.
  induction fuel as [|fuel IH]; intros current acc res fuel' H Hle; [discriminate|].
  destruct fuel' as [|fuel']; [lia|].
  destruct current as [|c current]; [exact H|].
  simpl in *. apply IH; [exact H|lia].
Qed.

Lemma inradius_direct (climb : bool) (g : Paths) :
  (forall g, inradius (map (@rev JsPoint) g) == inradius g) ->
  inradius (direct climb g) == inradius g.
Proof.
  intros Hrev. destruct climb; simpl; [apply Hrev|reflexivity].
Qed.

(** When every offset takes at least [eps] off the inradius, a set whose
    inradius is below [k] times [eps] is used up after at most [k]
    passes. *)
Lemma pocket_passes_stop (climb : bool) (delta eps : Q) :
  (forall g, 0 <= inradius g) ->
  (forall g, inradius (map (@rev JsPoint) g) == inradius g) ->
  (forall g, offset g delta <> [] -> inradius (offset g delta) <= inradius g - eps) ->
  forall (k : nat) (current acc : Paths),
    inradius current < inject_Z (Z.of_nat k) * eps ->
    exists res, pocket_passes offset (S k) climb delta current acc = Some res.
Proof.
  intros Hnn Hrev Hs.
  induction k as [|k IH]; intros current acc Hk.
  - specialize (Hnn current).
    change (inject_Z (Z.of_nat 0)) with 0 in Hk. lra.
  - destruct current as [|c current]; [now exists acc|].
    set (cur := c :: current) in *.
    change (pocket_passes offset (S (S k)) climb delta cur acc)
      with (pocket_passes offset (S k) climb delta
              (offset (direct climb cur) delta) (direct climb cur ++ acc)).
    destruct (offset (direct climb cur) delta) as [|n next] eqn:Hnext;
      [now eexists|].
    rewrite <- Hnext. apply IH.
    pose proof (inradius_direct climb cur Hrev) as Hdir.
    specialize (Hs (direct climb cur)).
    lapply Hs; [clear Hs; intros Hs|rewrite Hnext; discriminate].
    rewrite Nat2Z.inj_succ, <- Z.add_1_r, inject_Z_plus in Hk.
    change (inject_Z 1) with 1 in Hk.
    assert (E : (inject_Z (Z.of_nat k) + 1) * eps
                == inject_Z (Z.of_nat k) * eps + eps) by ring.
    rewrite E in Hk. lra.
Qed.

(** While the offset gives back the set it is given, the loop goes on. *)
Lemma pocket_passes_fixed (delta : Q) (g : Paths) :
  g <> [] -> offset g delta = g ->
  forall (fuel : nat) (acc : Paths), pocket_passes offset fuel false delta g acc = None.
Proof.
  intros Hne Hfix. induction fuel as [|fuel IH]; intros acc; [reflexivity|].
  rewrite pocket_passes_step by exact Hne. cbn [direct]. rewrite Hfix. apply IH.
Qed.

(** A step of more than two grid units is above the tolerance of the
    offset. *)
Lemma step_above_tolerance (step : Q) :
  2 < step -> offset_tolerance (- step) < step.
Proof.
  intros H. unfold offset_tolerance.
  assert (E : Qabs (- step) == step).
  { rewrite Qabs_opp. apply Qabs_pos. lra. }
  rewrite E.
  assert (Hdiv : step / 256 == step * (1 # 256)) by field.
  rewrite Hdiv.
  destruct (Q.max_spec 1 (step * (1 # 256))) as [[_ ->]|[_ ->]]; lra.
Qed.

(** C10, as amended.  For every geometry, every cutter diameter above 0
    and every overlap in [0, 1) with a step [cutterDia * (1 - overlap)] of
    more than two grid units, the loop of [pocket] stops: the offset
    applied in each iteration is strictly negative and larger than the
    tolerance of the offset; with an offset that shrinks as the
    specification says, up to its tolerance, and leaves no contour where
    there is no room, the current set is empty after finitely many
    iterations and [pocket] returns; a larger bound on the number of loop
    tests gives the same result. *)
Theorem pocket_terminates (geometry : Paths) (cutterDia overlap : Q) (climb : bool) :
  shrinking_within_tolerance offset inradius ->
  0 < cutterDia -> 0 <= overlap -> overlap < 1 ->
  2 < cutterDia * (1 - overlap) ->
  - cutterDia * (1 - overlap) < 0
  /\ exists (fuel : nat) (result : list CamPath),
      forall fuel', (fuel <= fuel')%nat ->
        pocket offset merge crosses fuel' geometry cutterDia overlap climb = Some result.
Proof.
  intros (Hnn & Hrev & Hshrink) Hc Ho0 Ho1 Hstep.
  pose proof (pocket_step_negative cutterDia overlap Hc Ho0 Ho1) as Hdelta.
  split; [exact Hdelta|].
  pose proof (step_above_tolerance _ Hstep) as Htol.
  assert (Ed : - (cutterDia * (1 - overlap)) == - cutterDia * (1 - overlap)) by ring.
  set (delta := - cutterDia * (1 - overlap)) in *.
  set (eps := - delta - offset_tolerance delta).
  assert (Heps : 0 < eps).
  { unfold eps. unfold offset_tolerance in *. rewrite <- Ed. rewrite <- Ed in Hdelta.
    lra. }
  assert (Hs : forall g, offset g delta <> [] -> inradius (offset g delta) <= inradius g - eps).
  { intros g Hg. specialize (Hshrink g delta Hdelta Hg). unfold eps. lra. }
  set (g0 := offset geometry (- cutterDia / 2)).
  destruct (Qarchimedean (inradius g0 / eps)) as [p Hp].
  assert (Hk : inradius g0 < inject_Z (Z.of_nat (Pos.to_nat p)) * eps).
  { rewrite positive_nat_Z.
    apply (Qmult_lt_r _ _ eps) in Hp; [|exact Heps].
    assert (E : inradius g0 / eps * eps == inradius g0) by (field; lra).
    rewrite E in Hp. exact Hp. }
  destruct (pocket_passes_stop climb delta eps Hnn Hrev Hs (Pos.to_nat p) g0 [] Hk)
    as [res Hres].
  exists (S (Pos.to_nat p)).
  exists (mergePaths merge crosses (Some (direct climb g0)) res).
  intros fuel' Hle. rewrite pocket_computes. cbv zeta. fold g0. fold delta.
  now rewrite (pocket_passes_more_fuel climb delta _ _ _ _ fuel' Hres Hle).
Qed.

End PocketTermination.

(** ** The shape of paths *)
Section PathShape.

Lemma same_point_refl (a : JsPoint) : same_point a a = true.
Proof. destruct a; simpl; [reflexivity|]. now rewrite !Qeq_bool_refl. Qed.

Lemma same_point_sym (a b : JsPoint) : same_point a b = same_point b a.
Proof.
  destruct a, b; simpl; try reflexivity.
  now rewrite (Qeq_bool_comm X), (Qeq_bool_comm Y).
Qed.

Lemma js_first_rev (p : Path) : js_first (rev p) = js_last p.
Proof.
  unfold js_first, js_last. induction p as [|a p IH]; [reflexivity|].
  simpl rev. destruct p as [|b p]; [reflexivity|].
  change (List.last (a :: b :: p) Undefined) with (List.last (b :: p) Undefined).
  rewrite <- IH. simpl rev.
  destruct (rev p ++ [b]) as [|c l] eqn:E; [|reflexivity].
  now apply app_eq_nil in E as [_ E].
Qed.

Lemma js_last_rev (p : Path) : js_last (rev p) = js_first p.
Proof. rewrite <- (rev_involutive p) at 2. now rewrite js_first_rev. Qed.

Lemma js_last_snoc (p : Path) (a : JsPoint) : js_last (p ++ [a]) = a.
Proof. unfold js_last. apply last_last. Qed.

Lemma no_repeat_snoc2 (l : Path) (a b : JsPoint) :
  no_repeat (l ++ [a; b]) = (no_repeat (l ++ [a]) && negb (same_point a b))%bool.
Proof.
  induction l as [|c l IH]; simpl.
  - now rewrite andb_true_r.
  - destruct l as [|d l]; simpl in *.
    + now rewrite !andb_true_r.
    + rewrite IH. now rewrite andb_assoc.
Qed.

Lemma no_repeat_rev (p : Path) : no_repeat (rev p) = no_repeat p.
Proof.
  induction p as [|a p IH]; [reflexivity|].
  destruct p as [|b l]; [reflexivity|].
  change (rev (a :: b :: l)) with ((rev l ++ [b]) ++ [a]).
  rewrite <- app_assoc. simpl app. rewrite no_repeat_snoc2.
  change (rev l ++ [b]) with (rev (b :: l)). rewrite IH.
  change (no_repeat (a :: b :: l))
    with (negb (same_point a b) && no_repeat (b :: l))%bool.
  now rewrite andb_comm, (same_point_sym b a).
Qed.

Lemma open_ended_rev (p : Path) : open_ended (rev p) = open_ended p.
Proof.
  unfold open_ended. now rewrite js_first_rev, js_last_rev, same_point_sym.
Qed.

Lemma well_shaped_rev (p : Path) : well_shaped p -> well_shaped (rev p).
Proof. unfold well_shaped. now rewrite no_repeat_rev, open_ended_rev. Qed.

Lemma well_shaped_direct (reverse : bool) (ps : Paths) :
  Forall well_shaped ps -> Forall well_shaped (direct reverse ps).
Proof.
  intros H. destruct reverse; simpl; [|exact H].
  induction H; simpl; constructor; auto using well_shaped_rev.
Qed.

End PathShape.

(** ** engrave *)
Section EngraveFacts.

Variable merge : option Paths -> Paths -> Paths.
Variable crosses : option Paths -> JsPoint -> JsPoint -> bool.

Lemma engrave_copy_length (climb : bool) (p : Path) :
  length (engrave_copy climb p) = S (length p).
Proof.
  unfold engrave_copy. rewrite length_app. simpl.
  destruct climb; [|rewrite length_rev]; lia.
Qed.

(** The copy ends with its own first slot. *)
Lemma engrave_copy_closed (climb : bool) (p : Path) :
  js_last (engrave_copy climb p) = js_first (engrave_copy climb p).
Proof.
  unfold engrave_copy. rewrite js_last_snoc.
  now destruct (if climb then p else rev p).
Qed.

(** Whatever the merger does, every path that [engrave] returns is
    marked safe to close. *)
Lemma engrave_safeToClose (geometry : Paths) (climb : bool) (cp : CamPath) :
  In cp (engrave merge crosses geometry climb) -> safeToClose cp = true.
Proof.
  unfold engrave. intros H. apply in_map_iff in H as (c & <- & _). reflexivity.
Qed.

(** The paths of the result are those the merger returns for the closed
    copies of the contours. *)
Lemma engrave_paths (geometry : Paths) (climb : bool) :
  map path (engrave merge crosses geometry climb)
  = merge None (map (engrave_copy climb) geometry).
Proof.
  unfold engrave, mergePaths. rewrite !map_map. simpl. apply map_id.
Qed.

(** When the merger leaves the paths apart, the result lists the closed
    copies of the contours. *)
Lemma engrave_unmerged (geometry : Paths) (climb : bool) :
  unclipped_paths_stay_apart merge ->
  engrave merge crosses geometry climb
  = map (fun p => {| path := engrave_copy climb p; safeToClose := true |}) geometry.
Proof.
  intros Hmerge. unfold engrave, mergePaths. rewrite Hmerge, !map_map. reflexivity.
Qed.

(** C6. For every geometry and climb flag, [engrave] returns one
    CamPath per input path, in order; the path of each is the contour
    (listed backwards unless [climb] is set) with its first vertex
    repeated at the end, so a contour of n vertices gives a path of n+1;
    every CamPath is marked safe to close.  No cutter diameter is among
    the arguments of [engrave].  The merger, called without a clip
    polygon, is taken to join nothing. *)
Theorem engrave_one_closed_path_per_contour (geometry : Paths) (climb : bool) :
  unclipped_paths_stay_apart merge ->
  length (engrave merge crosses geometry climb) = length geometry
  /\ Forall2 (fun cp contour =>
                path cp = (let copy := if climb then contour else rev contour in
                           copy ++ [js_first copy])
                /\ length (path cp) = S (length contour)
                /\ js_last (path cp) = js_first (path cp)
                /\ safeToClose cp = true)
             (engrave merge crosses geometry climb) geometry.
Proof.
  intros Hmerge. rewrite (engrave_unmerged geometry climb Hmerge).
  split; [apply length_map|].
  induction geometry as [|p g IH]; simpl; constructor; [|exact IH].
  simpl. repeat split.
  - apply engrave_copy_length.
  - apply engrave_copy_closed.
Qed.

End EngraveFacts.

Lemma engrave_one_closed_path_per_contour_witness :
  length (engrave Sample.unmerged Sample.never_crosses [Sample.square20; Sample.tab_S4] false) = 2%nat
  /\ Forall2 (fun cp contour =>
                path cp = (let copy := rev contour in copy ++ [js_first copy])
                /\ length (path cp) = S (length contour)
                /\ js_last (path cp) = js_first (path cp)
                /\ safeToClose cp = true)
             (engrave Sample.unmerged Sample.never_crosses [Sample.square20; Sample.tab_S4] false)
             [Sample.square20; Sample.tab_S4].
Proof.
  apply (engrave_one_closed_path_per_contour Sample.unmerged Sample.never_crosses
           [Sample.square20; Sample.tab_S4] false).
  intros paths. reflexivity.
Defined.

(** ** The shape of the paths the compilers return *)
Section CompilerShapes.

Variable offset : Paths -> Q -> Paths.
Variable merge : option Paths -> Paths -> Paths.
Variable crosses : option Paths -> JsPoint -> JsPoint -> bool.
Variable diff : Paths -> Paths -> Paths.
Variable add : Q -> Q -> Q.

Lemma mergePaths_paths (clip : option Paths) (ps : Paths) :
  map path (mergePaths merge crosses clip ps) = merge clip ps.
Proof. unfold mergePaths. rewrite map_map. simpl. apply map_id. Qed.

Lemma mergePaths_shape (clip : option Paths) (ps : Paths) :
  merge_keeps_shape merge -> Forall well_shaped ps ->
  Forall (fun cp => well_shaped (path cp)) (mergePaths merge crosses clip ps).
Proof.
  intros Hm Hps. apply (proj1 (List.Forall_map path well_shaped _)).
  rewrite mergePaths_paths. now apply Hm.
Qed.

Lemma pocket_passes_shape (climb : bool) (delta : Q) (fuel : nat) :
  offset_well_shaped offset ->
  forall current acc res,
    Forall well_shaped current -> Forall well_shaped acc ->
    pocket_passes offset fuel climb delta current acc = Some res ->
    Forall well_shaped res.
Proof.
  intros Ho. induction fuel as [|fuel IH]; intros current acc res Hc Ha H; [discriminate|].
  destruct current as [|c current]; simpl in H; [now injection H as <-|].
  apply IH in H; [exact H|apply Ho|].
  apply Forall_app. split; [|exact Ha].
  now apply (well_shaped_direct climb (c :: current)).
Qed.

Lemma outline_loop_shape (needReverse : bool) (eachWidth eachOffset width : Q) (fuel : nat) :
  offset_well_shaped offset ->
  forall currentWidth current allPaths res,
    Forall well_shaped current -> Forall well_shaped allPaths ->
    outline_loop offset add fuel needReverse eachWidth eachOffset width
                 currentWidth current allPaths = Some res ->
    Forall well_shaped res.
Proof.
  intros Ho. induction fuel as [|fuel IH]; intros cw current allPaths res Hc Ha H;
    [discriminate|].
  simpl in H. destruct (Qle_bool cw width); [|now injection H as <-].
  assert (Hacc : Forall well_shaped (direct needReverse current ++ allPaths)).
  { apply Forall_app. split; [now apply well_shaped_direct|exact Ha]. }
  destruct (js_lt width (add cw eachWidth) && js_lt 0 (width - cw))%bool.
  - injection H as <-. apply Forall_app. split; [|exact Hacc].
    apply well_shaped_direct, Ho.
  - apply IH in H; [exact H|apply Ho|exact Hacc].
Qed.

(** C5, as the code has it.  The paths that [pocket] and [outline]
    return are the merger's; they have consecutive vertices that differ
    and a first vertex that is not the last whenever the offset produces
    such paths and the merger hands them on.  The paths that [engrave]
    returns are closed explicitly: the last vertex of each is its first
    vertex again. *)
Theorem compiled_paths_shape :
  offset_well_shaped offset -> merge_keeps_shape merge ->
  (forall fuel geometry cutterDia overlap climb res,
      pocket offset merge crosses fuel geometry cutterDia overlap climb = Some res ->
      Forall (fun cp => well_shaped (path cp)) res)
  /\ (forall fuel geometry cutterDia isInside width overlap climb res,
         outline offset merge crosses diff add fuel geometry cutterDia isInside width overlap
                 climb
         = Some res ->
         Forall (fun cp => well_shaped (path cp)) res)
  /\ (unclipped_paths_stay_apart merge ->
      forall geometry climb,
        Forall (fun cp => js_last (path cp) = js_first (path cp)
                          /\ open_ended (path cp) = false)
               (engrave merge crosses geometry climb)).
Proof.
  intros Ho Hm. split; [|split].
  - intros fuel geometry cutterDia overlap climb res H.
    rewrite pocket_computes in H. cbv zeta in H.
    destruct (pocket_passes offset fuel climb _ _ []) as [acc|] eqn:E; [|discriminate].
    injection H as <-. apply mergePaths_shape; [exact Hm|].
    eapply pocket_passes_shape; [exact Ho| |constructor|exact E]. apply Ho.
  - intros fuel geometry cutterDia isInside width overlap climb res H.
    unfold outline in H. destruct isInside.
    + destruct (outline_loop offset add fuel _ _ _ _ _ _ []) as [acc|] eqn:E; [|discriminate].
      injection H as <-. apply mergePaths_shape; [exact Hm|].
      eapply outline_loop_shape; [exact Ho| |constructor|exact E]. apply Ho.
    + destruct (outline_loop offset add fuel _ _ _ _ _ _ []) as [acc|] eqn:E; [|discriminate].
      injection H as <-. apply mergePaths_shape; [exact Hm|].
      eapply outline_loop_shape; [exact Ho| |constructor|exact E]. apply Ho.
  - intros Hu geometry climb. rewrite (engrave_unmerged merge crosses geometry climb Hu).
    apply List.Forall_forall. intros cp Hcp. apply in_map_iff in Hcp as (p & <- & _). simpl.
    pose proof (engrave_copy_closed climb p) as Hclosed.
    split; [exact Hclosed|].
    unfold open_ended. now rewrite Hclosed, same_point_refl.
Qed.

End CompilerShapes.

(** ** The concrete geometry meets what is assumed of the absent one *)
Module SampleFacts.
Import Sample.

Lemma fold_min_lower (a : Q) (l : list Q) :
  fold_right Qmin a l <= a /\ forall v, In v l -> fold_right Qmin a l <= v.
Proof.
  induction l as [|b l [IHa IHl]]; simpl.
  - split; [lra|intros v []].
  - split.
    + eapply Qle_trans; [apply Q.le_min_r|exact IHa].
    + intros v [<-|Hv]; [apply Q.le_min_l|].
      eapply Qle_trans; [apply Q.le_min_r|now apply IHl].
Qed.

Lemma fold_min_attained (a : Q) (l : list Q) :
  exists v, In v (a :: l) /\ fold_right Qmin a l == v.
Proof.
  induction l as [|b l (v & Hv & E)]; simpl.
  - exists a. split; [now left|reflexivity].
  - destruct (Q.min_spec b (fold_right Qmin a l)) as [[_ E']|[_ E']].
    + exists b. split; [right; now left|exact E'].
    + exists v. split; [|now rewrite E'].
      destruct Hv as [->|Hv]; [now left|right; now right].
Qed.

Lemma lo_lower (l : list Q) (v : Q) : In v l -> lo l <= v.
Proof.
  destruct l as [|a l]; [intros []|]. simpl.
  destruct (fold_min_lower a l) as [Ha Hl].
  intros [<-|Hv]; auto.
Qed.

Lemma lo_attained (l : list Q) : l <> [] -> exists v, In v l /\ lo l == v.
Proof. destruct l as [|a l]; [congruence|]. intros _. apply fold_min_attained. Qed.

(** The least element depends on the members only. *)
Lemma lo_members (l l' : list Q) :
  l <> [] -> (forall v, In v l <-> In v l') -> lo l == lo l'.
Proof.
  intros Hne Hsame.
  assert (Hne' : l' <> []).
  { destruct l as [|a l]; [congruence|]. intros ->. now apply (Hsame a); left. }
  destruct (lo_attained l Hne) as (v & Hv & E).
  destruct (lo_attained l' Hne') as (v' & Hv' & E').
  apply Qle_antisym.
  - rewrite E'. apply lo_lower. now apply Hsame.
  - rewrite E. apply lo_lower. now apply Hsame.
Qed.

Lemma hi_members (l l' : list Q) :
  l <> [] -> (forall v, In v l <-> In v l') -> hi l == hi l'.
Proof.
  intros Hne Hsame. unfold hi. apply Qopp_comp. apply lo_members.
  - destruct l; [congruence|discriminate].
  - intros v. rewrite !in_map_iff.
    split; intros (w & <- & Hw); exists w; (split; [reflexivity|now apply Hsame]).
Qed.

Lemma in_Xs_rev (p : Path) (v : Q) : In v (Xs (rev p)) <-> In v (Xs p).
Proof.
  unfold Xs. rewrite !in_flat_map.
  split; intros (w & Hw & H); exists w; (split; [|exact H]); now apply in_rev in Hw + apply -> in_rev in Hw.
Qed.

Lemma in_Ys_rev (p : Path) (v : Q) : In v (Ys (rev p)) <-> In v (Ys p).
Proof.
  unfold Ys. rewrite !in_flat_map.
  split; intros (w & Hw & H); exists w; (split; [|exact H]); now apply in_rev in Hw + apply -> in_rev in Hw.
Qed.

(** A point has both coordinates. *)
Lemma Xs_Ys_nil (p : Path) : Xs p = [] <-> Ys p = [].
Proof.
  induction p as [|[|X Y] p IH]; simpl; [tauto|exact IH|split; discriminate].
Qed.

Lemma box_of_members (xs ys xs' ys' : list Q) :
  (xs = [] <-> ys = []) ->
  (forall v, In v xs <-> In v xs') -> (forall v, In v ys <-> In v ys') ->
  same_bbox (box_of xs ys) (box_of xs' ys').
Proof.
  intros Hxy Hx Hy. unfold box_of.
  destruct xs as [|a xs].
  - destruct xs' as [|a' xs']; [exact I|]. now apply (Hx a'); left.
  - destruct xs' as [|a' xs']; [now apply (Hx a); left|].
    assert (Hys : ys <> []) by (intros E; apply Hxy in E; discriminate).
    repeat split; simpl.
    + now apply (lo_members (a :: xs) (a' :: xs')).
    + now apply (hi_members (a :: xs) (a' :: xs')).
    + now apply lo_members.
    + now apply hi_members.
Qed.

Lemma bbox_rev (p : Path) : same_bbox (bbox (rev p)) (bbox p).
Proof.
  unfold bbox. apply box_of_members.
  - apply Xs_Ys_nil.
  - apply in_Xs_rev.
  - apply in_Ys_rev.
Qed.

Lemma inradius_path_rev (p : Path) : inradius_path (rev p) == inradius_path p.
Proof.
  unfold inradius_path. pose proof (bbox_rev p) as H.
  destruct (bbox (rev p)) as [b|], (bbox p) as [b'|]; simpl in H; try contradiction;
    [|reflexivity].
  destruct H as (E1 & E2 & E3 & E4). now rewrite E1, E2, E3, E4.
Qed.

Lemma inradius_rev (g : Paths) : inradius (map (@rev JsPoint) g) == inradius g.
Proof.
  induction g as [|p g IH]; simpl; [reflexivity|].
  now rewrite inradius_path_rev, IH.
Qed.

Lemma inradius_path_nonneg (p : Path) : 0 <= inradius_path p.
Proof. unfold inradius_path. destruct (bbox p); [apply Q.le_max_l|lra]. Qed.

Lemma inradius_nonneg (g : Paths) : 0 <= inradius g.
Proof.
  induction g as [|p g IH]; simpl; [lra|].
  eapply Qle_trans; [exact IH|apply Q.le_max_r].
Qed.

(** The bounding rectangle of a rectangle. *)
Lemma bbox_rectangle (b : Box) :
  x_lo b <= x_hi b -> y_lo b <= y_hi b -> same_bbox (bbox (rectangle b)) (Some b).
Proof.
  intros Hx Hy. unfold bbox, rectangle, box_of, hi, lo. simpl.
  repeat split; simpl; minmax.
Qed.

Lemma rectangle_well_shaped (b : Box) :
  x_lo b < x_hi b -> y_lo b < y_hi b -> well_shaped (rectangle b).
Proof.
  intros Hx Hy.
  assert (Ex : Qeq_bool (x_lo b) (x_hi b) = false).
  { destruct (Qeq_bool (x_lo b) (x_hi b)) eqn:E; [|reflexivity].
    apply Qeq_bool_eq in E. lra. }
  assert (Ey : Qeq_bool (y_lo b) (y_hi b) = false).
  { destruct (Qeq_bool (y_lo b) (y_hi b)) eqn:E; [|reflexivity].
    apply Qeq_bool_eq in E. lra. }
  assert (Ex' : Qeq_bool (x_hi b) (x_lo b) = false) by now rewrite Qeq_bool_comm.
  assert (Ey' : Qeq_bool (y_hi b) (y_lo b) = false) by now rewrite Qeq_bool_comm.
  unfold well_shaped, open_ended, rectangle. simpl.
  rewrite ?Ex, ?Ey, ?Ex', ?Ey', ?Qeq_bool_refl. simpl.
  rewrite ?Ex, ?Ey, ?Ex', ?Ey', ?Qeq_bool_refl.
  split; reflexivity.
Qed.

(** What [offset_path] keeps is a rectangle with room inside. *)
Lemma offset_path_kept (delta : Q) (p q : Path) :
  In q (offset_path delta p) ->
  exists b, bbox p = Some b
            /\ x_lo b - delta < x_hi b + delta /\ y_lo b - delta < y_hi b + delta
            /\ offset_path delta p = [q]
            /\ q = rectangle {| x_lo := x_lo b - delta; x_hi := x_hi b + delta;
                                y_lo := y_lo b - delta; y_hi := y_hi b + delta |}.
Proof.
  unfold offset_path. destruct (bbox p) as [b|]; [|intros []]. simpl.
  destruct (js_lt (x_lo b - delta) (x_hi b + delta)) eqn:Ex; [|intros []].
  destruct (js_lt (y_lo b - delta) (y_hi b + delta)) eqn:Ey; [|intros []].
  simpl. intros [<-|[]]. exists b.
  apply js_lt_iff in Ex, Ey. repeat split; assumption.
Qed.

Lemma offset_well_shaped_sample : offset_well_shaped offset.
Proof.
  intros g delta. apply List.Forall_forall. intros q Hq.
  apply in_flat_map in Hq as (p & _ & Hq).
  apply offset_path_kept in Hq as (b & _ & Hx & Hy & _ & ->).
  now apply rectangle_well_shaped.
Qed.

Lemma merge_keeps_shape_sample : merge_keeps_shape unmerged.
Proof. intros clip ps H. exact H. Qed.

Lemma inradius_offset_path (delta : Q) (p q : Path) :
  In q (offset_path delta p) ->
  inradius_path q <= inradius_path p + delta /\ 0 <= inradius_path p + delta.
Proof.
  intros Hq. apply offset_path_kept in Hq as (b & Hb & Hx & Hy & _ & ->).
  set (b' := {| x_lo := x_lo b - delta; x_hi := x_hi b + delta;
                y_lo := y_lo b - delta; y_hi := y_hi b + delta |}).
  assert (Hb' : same_bbox (bbox (rectangle b')) (Some b')).
  { apply bbox_rectangle; simpl; lra. }
  unfold inradius_path. rewrite Hb.
  destruct (bbox (rectangle b')) as [c|]; [|contradiction].
  destruct Hb' as (E1 & E2 & E3 & E4). simpl in E1, E2, E3, E4.
  rewrite E1, E2, E3, E4.
  assert (Hhalf : forall a, a / 2 == a * (1 # 2)) by (intros a; field).
  rewrite !Hhalf.
  split; minmax.
Qed.

Lemma inradius_offset (g : Paths) (delta : Q) :
  offset g delta <> [] -> inradius (offset g delta) <= inradius g + delta.
Proof.
  induction g as [|p g IH]; [now intros []|].
  unfold offset in *. simpl flat_map. simpl inradius at 2.
  destruct (offset_path delta p) as [|q qs] eqn:Hp; simpl app.
  - intros Hne. eapply Qle_trans; [now apply IH|].
    pose proof (Q.le_max_r (inradius_path p) (inradius g)). lra.
  - intros _.
    assert (Hq : In q (offset_path delta p)) by (rewrite Hp; now left).
    destruct (offset_path_kept delta p q Hq) as (_ & _ & _ & _ & E & _).
    rewrite Hp in E. injection E as ->. simpl app.
    destruct (inradius_offset_path delta p q Hq) as [Hle Hnn].
    pose proof (Q.le_max_l (inradius_path p) (inradius g)) as Hl.
    pose proof (Q.le_max_r (inradius_path p) (inradius g)) as Hr.
    simpl inradius. apply Q.max_lub; [lra|].
    destruct (flat_map (offset_path delta) g) as [|r rs] eqn:Hg.
    + simpl. lra.
    + eapply Qle_trans; [apply IH; discriminate|lra].
Qed.

Lemma offset_tolerance_least (delta : Q) : 2 <= offset_tolerance delta.
Proof.
  unfold offset_tolerance.
  pose proof (Q.le_max_l 1 (Qabs delta / 256)). lra.
Qed.

(** The exact offset of rectangles shrinks as the specification says. *)
Lemma offset_shrinks : shrinking_within_tolerance offset inradius.
Proof.
  split; [apply inradius_nonneg|]. split; [apply inradius_rev|].
  intros g delta _ Hg. pose proof (inradius_offset g delta Hg).
  pose proof (offset_tolerance_least delta). lra.
Qed.

(** A coordinate is within half a unit of its grid point. *)
Lemma nearest_bounds (q : Q) : q - (1 # 2) < nearest q /\ nearest q <= q + (1 # 2).
Proof.
  unfold nearest. split.
  - pose proof (Qlt_floor (q + (1 # 2))) as H.
    rewrite inject_Z_plus in H. change (inject_Z 1) with 1 in H. lra.
  - apply Qfloor_le.
Qed.

(** What [grid_offset_path] keeps is a rectangle with room inside. *)
Lemma grid_offset_path_kept (delta : Q) (p q : Path) :
  In q (grid_offset_path delta p) ->
  exists b,
    let b' := {| x_lo := nearest (x_lo b - delta); x_hi := nearest (x_hi b + delta);
                 y_lo := nearest (y_lo b - delta); y_hi := nearest (y_hi b + delta) |} in
    bbox p = Some b
    /\ x_lo b' < x_hi b' /\ y_lo b' < y_hi b'
    /\ grid_offset_path delta p = [q]
    /\ q = rectangle b'.
Proof.
  unfold grid_offset_path. destruct (bbox p) as [b|]; [|intros []]. cbn [x_lo x_hi y_lo y_hi].
  destruct (js_lt (nearest (x_lo b - delta)) (nearest (x_hi b + delta))) eqn:Ex; [|intros []].
  destruct (js_lt (nearest (y_lo b - delta)) (nearest (y_hi b + delta))) eqn:Ey; [|intros []].
  simpl. intros [<-|[]]. exists b.
  apply js_lt_iff in Ex, Ey. repeat split; assumption.
Qed.

Lemma inradius_grid_offset_path (delta : Q) (p q : Path) :
  In q (grid_offset_path delta p) ->
  inradius_path q <= inradius_path p + delta + (1 # 2)
  /\ 0 <= inradius_path p + delta + (1 # 2).
Proof.
  intros Hq. apply grid_offset_path_kept in Hq as (b & Hb & Hx & Hy & _ & ->).
  cbn [x_lo x_hi y_lo y_hi] in Hx, Hy.
  set (b' := {| x_lo := nearest (x_lo b - delta); x_hi := nearest (x_hi b + delta);
                y_lo := nearest (y_lo b - delta); y_hi := nearest (y_hi b + delta) |}).
  assert (Hb' : same_bbox (bbox (rectangle b')) (Some b')).
  { apply bbox_rectangle; simpl; lra. }
  unfold inradius_path. rewrite Hb.
  destruct (bbox (rectangle b')) as [c|]; [|contradiction].
  destruct Hb' as (E1 & E2 & E3 & E4). simpl in E1, E2, E3, E4.
  rewrite E1, E2, E3, E4.
  destruct (nearest_bounds (x_lo b - delta)) as [Hxl _].
  destruct (nearest_bounds (x_hi b + delta)) as [_ Hxh].
  destruct (nearest_bounds (y_lo b - delta)) as [Hyl _].
  destruct (nearest_bounds (y_hi b + delta)) as [_ Hyh].
  assert (Hhalf : forall a, a / 2 == a * (1 # 2)) by (intros a; field).
  rewrite !Hhalf.
  split; minmax.
Qed.

Lemma inradius_grid_offset (g : Paths) (delta : Q) :
  grid_offset g delta <> [] ->
  inradius (grid_offset g delta) <= inradius g + delta + (1 # 2).
Proof.
  induction g as [|p g IH]; [now intros []|].
  unfold grid_offset in *. simpl flat_map. simpl inradius at 2.
  destruct (grid_offset_path delta p) as [|q qs] eqn:Hp; simpl app.
  - intros Hne. eapply Qle_trans; [now apply IH|].
    pose proof (Q.le_max_r (inradius_path p) (inradius g)). lra.
  - intros _.
    assert (Hq : In q (grid_offset_path delta p)) by (rewrite Hp; now left).
    destruct (grid_offset_path_kept delta p q Hq) as (_ & _ & _ & _ & E & _).
    rewrite Hp in E. injection E as ->. simpl app.
    destruct (inradius_grid_offset_path delta p q Hq) as [Hle Hnn].
    pose proof (Q.le_max_l (inradius_path p) (inradius g)) as Hl.
    pose proof (Q.le_max_r (inradius_path p) (inradius g)) as Hr.
    simpl inradius. apply Q.max_lub; [lra|].
    destruct (flat_map (grid_offset_path delta) g) as [|r rs] eqn:Hg.
    + simpl. lra.
    + eapply Qle_trans; [apply IH; discriminate|lra].
Qed.

(** The offset on the grid shrinks as the specification says: each side
    is off by half a grid unit at most. *)
Lemma grid_offset_shrinks : shrinking_within_tolerance grid_offset inradius.
Proof.
  split; [apply inradius_nonneg|]. split; [apply inradius_rev|].
  intros g delta _ Hg. pose proof (inradius_grid_offset g delta Hg).
  pose proof (offset_tolerance_least delta). lra.
Qed.

End SampleFacts.

(** ** The geometry of the examples, put to use *)

Lemma pocket_terminates_witness :
  - 5 * (1 - (2 # 5)) < 0
  /\ exists (fuel : nat) (result : list CamPath),
      forall fuel', (fuel <= fuel')%nat ->
        pocket Sample.grid_offset Sample.unmerged Sample.never_crosses
               fuel' [Sample.square20] 5 (2 # 5) true = Some result.
Proof.
  apply (pocket_terminates Sample.grid_offset Sample.unmerged Sample.never_crosses
           Sample.inradius [Sample.square20] 5 (2 # 5) true).
  - apply SampleFacts.grid_offset_shrinks.
  - reflexivity.
  - discriminate.
  - reflexivity.
  - reflexivity.
Defined.

(** C10 as it is stated fails on the grid.  A cutter of one grid unit
    with an overlap of 3/4 has a step of a quarter of a unit; the offset
    on the grid, which shrinks as the specification says, gives back the
    square it is given, and the loop of [pocket] does not end, whatever
    the bound on the number of its tests. *)
Lemma pocket_never_stops_on_a_small_step :
  shrinking_within_tolerance Sample.grid_offset Sample.inradius
  /\ 0 < 1 /\ 0 <= 3 # 4 /\ 3 # 4 < 1
  /\ forall fuel,
      pocket Sample.grid_offset Sample.unmerged Sample.never_crosses
             fuel [Sample.square20] 1 (3 # 4) false = None.
Proof.
  split; [apply SampleFacts.grid_offset_shrinks|].
  split; [reflexivity|]. split; [discriminate|]. split; [reflexivity|].
  intros fuel. rewrite pocket_computes. cbv zeta.
  rewrite (pocket_passes_fixed Sample.grid_offset (- (1) * (1 - (3 # 4)))
             (Sample.grid_offset [Sample.square20] (- (1) / 2)));
    [reflexivity|discriminate|reflexivity].
Qed.

(** C5 as the specification states it fails on [engrave]: the path it
    returns for a triangle ends where it starts. *)
Lemma engrave_returns_a_closed_path :
  ~ (forall cp,
        In cp (engrave Sample.unmerged Sample.never_crosses [[Pt 1 1; Pt 2 2; Pt 3 1]] false) ->
        well_shaped (path cp)).
Proof.
  intros H.
  destruct (H {| path := [Pt 3 1; Pt 2 2; Pt 1 1; Pt 3 1]; safeToClose := true |}) as [_ Hopen].
  - now left.
  - discriminate Hopen.
Qed.

Lemma compiled_paths_shape_witness :
  exists res,
    pocket Sample.offset Sample.unmerged Sample.never_crosses
           10 [Sample.square20] 3 (2 # 5) false = Some res
    /\ Forall (fun cp => well_shaped (path cp)) res
    /\ Forall (fun cp => js_last (path cp) = js_first (path cp) /\ open_ended (path cp) = false)
              (engrave Sample.unmerged Sample.never_crosses [Sample.square20] false).
Proof.
  destruct (compiled_paths_shape Sample.offset Sample.unmerged Sample.never_crosses
              (fun a _ => a) Qplus
              SampleFacts.offset_well_shaped_sample SampleFacts.merge_keeps_shape_sample)
    as (Hpocket & _ & Hengrave).
  eexists. split; [vm_compute; reflexivity|]. split.
  - apply (Hpocket 10%nat [Sample.square20] 3 (2 # 5) false). vm_compute. reflexivity.
  - apply Hengrave. intros paths. reflexivity.
Defined.

(** ** Sorting the intersections *)
Section SortingFacts.

Variable A : Type.
Variable key : A -> Q.

Lemma insert_by_perm (a : A) (l : list A) : Permutation (insert_by key a l) (a :: l).
Proof.
  induction l as [|b l IH]; simpl; [reflexivity|].
  destruct (Qle_bool (key a) (key b)); [reflexivity|].
  rewrite IH. apply perm_swap.
Qed.

Lemma sort_by_perm (l : list A) : Permutation (sort_by key l) l.
Proof.
  induction l as [|a l IH]; simpl; [reflexivity|].
  unfold sort_by in *. simpl. rewrite insert_by_perm. now constructor.
Qed.

Lemma insert_by_sorted (a : A) (l : list A) :
  StronglySorted (by_key key) l -> StronglySorted (by_key key) (insert_by key a l).
Proof.
  induction l as [|b l IH]; intros Hs; simpl.
  - constructor; constructor.
  - inversion Hs as [|? ? Hl Hb]; subst.
    destruct (Qle_bool (key a) (key b)) eqn:E.
    + apply Qle_bool_iff in E. constructor; [exact Hs|].
      constructor; [exact E|].
      eapply List.Forall_impl; [|exact Hb].
      intros c Hc. unfold by_key in *. lra.
    + assert (Hba : key b <= key a).
      { destruct (Qlt_le_dec (key b) (key a)) as [H|H]; [lra|].
        apply Qle_bool_iff in H. congruence. }
      constructor; [now apply IH|].
      apply List.Forall_forall. intros c Hc.
      apply (Permutation_in _ (insert_by_perm a l)) in Hc.
      destruct Hc as [<-|Hc]; [exact Hba|].
      now apply (proj1 (List.Forall_forall _ _) Hb).
Qed.

Lemma sort_by_sorted (l : list A) : StronglySorted (by_key key) (sort_by key l).
Proof.
  induction l as [|a l IH]; [constructor|].
  unfold sort_by in *. simpl. now apply insert_by_sorted.
Qed.

End SortingFacts.

(** ** Chains of sub-paths *)
Section ChainFacts.

Lemma js_first_app (c : Path) (v : JsPoint) : c <> [] -> js_first (c ++ [v]) = js_first c.
Proof. destruct c; [congruence|reflexivity]. Qed.

Lemma tl_snoc (c : Path) (v : JsPoint) : c <> [] -> tl (c ++ [v]) = tl c ++ [v].
Proof. destruct c; [congruence|reflexivity]. Qed.

Lemma inner_snoc (c : Path) (v : JsPoint) : c <> [] -> inner (c ++ [v]) = tl c.
Proof. intros H. unfold inner. rewrite tl_snoc by exact H. apply removelast_last. Qed.

Lemma join_chain_snoc (ps : Paths) (c : Path) :
  join_chain (ps ++ [c]) = match ps with [] => c | _ => join_chain ps ++ tl c end.
Proof.
  destruct ps as [|f ps]; simpl; [apply app_nil_r|].
  now rewrite flat_map_app, app_assoc; simpl; rewrite app_nil_r.
Qed.

(** A vertex pushed on the current sub-path comes last in the chain. *)
Lemma join_chain_push (ps : Paths) (c : Path) (v : JsPoint) :
  c <> [] -> join_chain (ps ++ [c ++ [v]]) = join_chain (ps ++ [c]) ++ [v].
Proof.
  intros Hc. rewrite !join_chain_snoc. destruct ps as [|f ps]; [reflexivity|].
  now rewrite tl_snoc, app_assoc.
Qed.

(** Starting the next sub-path at the vertex just pushed adds nothing. *)
Lemma join_chain_split (ps : Paths) (c : Path) (v : JsPoint) :
  join_chain ((ps ++ [c]) ++ [[v]]) = join_chain (ps ++ [c]).
Proof.
  rewrite (join_chain_snoc (ps ++ [c])). simpl tl. rewrite app_nil_r.
  now destruct ps.
Qed.

Lemma chained_snoc2 (l : Paths) (c d : Path) :
  chained (l ++ [c; d]) <-> chained (l ++ [c]) /\ js_last c = js_first d.
Proof.
  induction l as [|e l IH]; simpl; [tauto|].
  destruct l as [|e' l]; simpl in *; [tauto|]. tauto.
Qed.

Lemma chained_change_last (l : Paths) (c c' : Path) :
  js_first c = js_first c' -> chained (l ++ [c]) -> chained (l ++ [c']).
Proof.
  intros Hf. induction l as [|e l IH]; simpl; [trivial|].
  destruct l as [|e' l]; simpl in *; [now rewrite Hf|]. tauto.
Qed.

Lemma alternating_snoc (ins : JsPoint -> bool) (ps : Paths) (c : Path) :
  forall side,
    alternating ins side (ps ++ [c])
    <-> alternating ins side ps
        /\ forall v, In v (inner c) -> ins v = xorb side (Nat.odd (length ps)).
Proof.
  induction ps as [|f ps IH]; intros side; simpl.
  - rewrite xorb_false_r. unfold inner. tauto.
  - rewrite IH. rewrite Nat.odd_succ, <- Nat.negb_odd.
    replace (xorb (negb side) (Nat.odd (length ps)))
      with (xorb side (negb (Nat.odd (length ps)))) by (now destruct side, (Nat.odd _)).
    tauto.
Qed.

End ChainFacts.

(** ** separateTabs *)
Section TabSplitter.

Variable contains : Polygon -> Point2d -> bool.
Variable intersect : Point2d -> Point2d -> Polygon -> list Point2d.
Variable distance : Point2d -> Point2d -> Q.

Lemma new_Point_to_internal (p : Point2d) : new_Point (to_internal p) = Normal p.
Proof. now destruct p. Qed.

Lemma mapM_new_Point (poly : Polygon) : mapM new_Point (map to_internal poly) = Normal poly.
Proof.
  induction poly as [|p poly IH]; [reflexivity|].
  simpl. destruct p as [px py]. simpl. now rewrite IH.
Qed.

Lemma differs_to_internal (p1 p0 : Point2d) :
  differs (to_internal p1) (to_internal p0) = Normal (moved p1 p0).
Proof.
  unfold differs, moved, to_internal. simpl.
  now destruct (Qeq_bool (x p1) (x p0)).
Qed.

Lemma inside_to_internal (tab : Polygon) (p : Point2d) :
  inside contains tab (to_internal p) = contains tab p.
Proof. now destruct p. Qed.

Lemma js_last_to_internal (front : list Point2d) (start : Point2d) :
  js_last (map to_internal (front ++ [start])) = to_internal start.
Proof. rewrite map_app. apply js_last_snoc. Qed.

Lemma length_crossings (tab : Polygon) (p0 p1 : Point2d) :
  length (crossings intersect distance tab p0 p1) = length (intersect p0 p1 tab).
Proof. apply Permutation_length, sort_by_perm. Qed.

(** With a single tab polygon the two branches of the loop body do the
    same. *)
Lemma each_tab_single (tab : Polygon) (p0 p1 : Point2d) (ip1 : JsPoint)
      (currPath : Path) (paths : Paths) :
  each_tab intersect distance p0 p1 ip1 [tab] currPath paths
  = let '(currPath1, paths1) :=
      split_at (crossings intersect distance tab p0 p1) currPath paths in
    (currPath1 ++ [ip1], paths1).
Proof.
  unfold each_tab, crossings.
  destruct (intersect p0 p1 tab) as [|i l] eqn:E; simpl; [reflexivity|].
  now destruct (split_at _ currPath paths).
Qed.

Lemma walk_single (tab : Polygon) (pts : list Point2d) :
  forall (p0 : Point2d) (currPath : Path) (paths : Paths),
    walk intersect distance [tab] (map to_internal pts) (to_internal p0) p0 currPath paths
    = Normal (walk_one intersect distance tab pts p0 currPath paths).
Proof.
  induction pts as [|p1 pts IH]; intros p0 currPath paths; [reflexivity|].
  cbn [map walk walk_one]. rewrite differs_to_internal. cbn [bind].
  destruct (moved p1 p0); [|apply IH].
  rewrite new_Point_to_internal. cbn [bind]. rewrite each_tab_single.
  destruct (split_at _ currPath paths) as [c1 ps1]. apply IH.
Qed.

(** What the splits at the crossings of one segment do to the chain. *)
Lemma split_at_facts (ints : list Point2d) :
  forall (c : Path) (ps : Paths),
    c <> [] ->
    let '(c', ps') := split_at ints c ps in
    c' <> []
    /\ length ps' = (length ps + length ints)%nat
    /\ join_chain (ps' ++ [c']) = join_chain (ps ++ [c]) ++ map to_internal ints
    /\ (chained (ps ++ [c]) -> chained (ps' ++ [c']))
    /\ (ints = [] -> c' = c /\ ps' = ps)
    /\ (ints <> [] -> length c' = 1%nat)
    /\ (forall ins side,
           alternating ins side ps ->
           (forall v, In v (tl c) -> ins v = xorb side (Nat.odd (length ps))) ->
           alternating ins side ps').
Proof.
  induction ints as [|i ints IH]; intros c ps Hc; simpl.
  - repeat split; auto; try congruence. now rewrite app_nil_r.
  - specialize (IH [to_internal i] (ps ++ [c ++ [to_internal i]])).
    destruct (split_at ints _ _) as [c' ps'].
    destruct IH as (H1 & H2 & H3 & H4 & H5 & H6 & H7); [discriminate|].
    split; [exact H1|]. split; [rewrite H2, length_app; simpl; lia|].
    split.
    { rewrite H3, join_chain_split, join_chain_push by exact Hc.
      now rewrite <- app_assoc. }
    split.
    { intros Hch. apply H4. rewrite <- app_assoc. simpl app.
      apply chained_snoc2. split; [|apply js_last_snoc].
      eapply chained_change_last; [|exact Hch].
      symmetry. now apply js_first_app. }
    split; [discriminate|]. split.
    { intros _. destruct ints as [|j ints]; [now destruct (H5 eq_refl) as [-> _]|].
      apply H6. discriminate. }
    intros ins side Halt Htl. apply H7; [|intros v []].
    apply alternating_snoc. split; [exact Halt|].
    intros v Hv. rewrite inner_snoc in Hv by exact Hc. now apply Htl.
Qed.

(** What the walk along a path does to the chain. *)
Lemma walk_one_facts (tab : Polygon) (pts : list Point2d) :
  forall (p0 : Point2d) (c : Path) (ps : Paths),
    c <> [] ->
    let '(c', ps') := walk_one intersect distance tab pts p0 c ps in
    c' <> []
    /\ join_chain (ps' ++ [c'])
       = join_chain (ps ++ [c]) ++ closed_walk intersect distance tab p0 pts
    /\ (chained (ps ++ [c]) -> chained (ps' ++ [c']))
    /\ (closed_walk intersect distance tab p0 pts = [] -> c' = c /\ ps' = ps)
    /\ (closed_walk intersect distance tab p0 pts <> [] -> (2 <= length c')%nat)
    /\ (crossing_parity contains intersect tab p0 pts = true ->
        Nat.odd (length ps) = contains tab p0 ->
        alternating (inside contains tab) false ps ->
        (forall v, In v (tl c) -> inside contains tab v = Nat.odd (length ps)) ->
        alternating (inside contains tab) false ps'
        /\ (forall v, In v (tl c') -> inside contains tab v = Nat.odd (length ps'))).
Proof.
  induction pts as [|p1 pts IH]; intros p0 c ps Hc; cbn [walk_one closed_walk crossing_parity].
  - repeat split; auto; try congruence. now rewrite app_nil_r.
  - destruct (moved p1 p0); [|now apply IH].
    pose proof (split_at_facts (crossings intersect distance tab p0 p1) c ps Hc) as Hs.
    destruct (split_at _ c ps) as [c1 ps1].
    destruct Hs as (S1 & S2 & S3 & S4 & S5 & S6 & S7).
    assert (Hc1 : c1 ++ [to_internal p1] <> []) by (destruct c1; discriminate).
    specialize (IH p1 (c1 ++ [to_internal p1]) ps1 Hc1).
    destruct (walk_one intersect distance tab pts p1 _ ps1) as [c' ps'].
    destruct IH as (W1 & W2 & W3 & W4 & W5 & W6).
    split; [exact W1|]. split.
    { rewrite W2, join_chain_push, S3 by exact S1.
      rewrite <- !app_assoc. reflexivity. }
    split.
    { intros Hch. apply W3. eapply chained_change_last; [|now apply S4].
      symmetry. now apply js_first_app. }
    split.
    { intros E. now destruct (map to_internal _). }
    split.
    { intros _.
      destruct (closed_walk intersect distance tab p1 pts) as [|w ws] eqn:E.
      - destruct (W4 eq_refl) as [-> _]. rewrite length_app. simpl.
        destruct c1; [congruence|simpl; lia].
      - apply W5. discriminate. }
    intros Hpar Hodd Halt Htl.
    apply andb_true_iff in Hpar as [Hpar Hrest]. apply eqb_prop in Hpar.
    assert (Hodd1 : Nat.odd (length ps1) = contains tab p1).
    { rewrite S2, Nat.odd_add, length_crossings, Hpar, Hodd.
      now destruct (contains tab p0), (contains tab p1). }
    apply W6; [exact Hrest|exact Hodd1| |].
    + apply S7; [exact Halt|]. intros v Hv. now apply Htl.
    + intros v Hv. rewrite tl_snoc in Hv by exact S1.
      apply in_app_or in Hv as [Hv|[<-|[]]].
      * destruct (crossings intersect distance tab p0 p1) as [|i l] eqn:E.
        -- destruct (S5 eq_refl) as [-> ->]. now apply Htl.
        -- assert (L : length c1 = 1%nat) by (apply S6; discriminate).
           destruct c1 as [|a [|b c1]]; try discriminate. destruct Hv.
      * now rewrite inside_to_internal.
Qed.

End TabSplitter.

Section TabSplitterResults.

Variable contains : Polygon -> Point2d -> bool.
Variable intersect : Point2d -> Point2d -> Polygon -> list Point2d.
Variable distance : Point2d -> Point2d -> Q.

(** The crossings of a segment are the intersections the library
    reports, nearest to the start of the segment first. *)
Lemma crossings_sorted (tab : Polygon) (p0 p1 : Point2d) :
  Permutation (crossings intersect distance tab p0 p1) (intersect p0 p1 tab)
  /\ StronglySorted (fun a b => distance a p0 <= distance b p0)
                    (crossings intersect distance tab p0 p1).
Proof.
  split; [apply sort_by_perm|].
  apply (sort_by_sorted Point2d (fun a => distance a p0)).
Qed.

(** When the walk starts inside a tab polygon the function does not
    return: it reads [paths] before [const paths] has run. *)
Lemma separateTabs_start_inside (toolPath : Path) (tabGeometry : Paths)
      (tabPolys : list Polygon) (p0 : Point2d) :
  mapM (mapM new_Point) tabGeometry = Normal tabPolys ->
  new_Point (js_last toolPath) = Normal p0 ->
  existsb (fun tab => contains tab p0) tabPolys = true ->
  separateTabs contains intersect distance toolPath tabGeometry = Throw ReferenceError.
Proof.
  intros Ht Hp Hin. unfold separateTabs. rewrite Ht. cbn [bind].
  rewrite Hp. cbn [bind]. now rewrite Hin.
Qed.

(** C3, as the code has it, for one tab polygon and a walk that does
    not start inside it.  The sub-paths returned form a chain; put end
    to end they are the closed walk of the tool path: its last vertex,
    and then, for every vertex that is not the one before it, the
    intersections of the segment leading to it, nearest first, and the
    vertex.  Nothing is returned when no vertex differs from the last.
    When every segment walked crosses the boundary an odd number of
    times exactly if its ends are on different sides, the vertices
    strictly within the sub-paths are outside the tab in the first,
    inside in the second, and so on in turn. *)
Theorem separateTabs_closed_walk (tab : Polygon) (front : list Point2d) (start : Point2d) :
  contains tab start = false ->
  exists out,
    separateTabs contains intersect distance
                 (map to_internal (front ++ [start])) [map to_internal tab] = Normal out
    /\ chained out
    /\ join_chain out
       = match closed_walk intersect distance tab start (front ++ [start]) with
         | [] => []
         | walked => to_internal start :: walked
         end
    /\ (forall p0 p1,
           Permutation (crossings intersect distance tab p0 p1) (intersect p0 p1 tab)
           /\ StronglySorted (fun a b => distance a p0 <= distance b p0)
                             (crossings intersect distance tab p0 p1))
    /\ (crossing_parity contains intersect tab start (front ++ [start]) = true ->
        alternating (inside contains tab) false out).
Proof.
  intros Hout. unfold separateTabs. cbn [mapM]. rewrite mapM_new_Point. cbn [bind].
  rewrite js_last_to_internal, new_Point_to_internal. cbn [bind existsb].
  rewrite Hout. cbn [orb]. rewrite walk_single. cbn [bind].
  pose proof (walk_one_facts contains intersect distance tab (front ++ [start]) start
                [to_internal start] []) as H.
  destruct (walk_one intersect distance tab (front ++ [start]) start _ []) as [c' ps'].
  destruct H as (W1 & W2 & W3 & W4 & W5 & W6); [discriminate|].
  destruct (closed_walk intersect distance tab start (front ++ [start])) as [|w ws] eqn:E.
  - destruct (W4 eq_refl) as [-> ->]. simpl. exists []. simpl.
    repeat split; try apply crossings_sorted.
  - assert (L : (2 <= length c')%nat) by (apply W5; discriminate).
    replace (1 <? length c')%nat with true
      by (symmetry; apply Nat.ltb_lt; lia).
    exists (ps' ++ [c']). split; [reflexivity|].
    split; [now apply W3|]. split; [exact W2|].
    split; [intros p0 p1; apply crossings_sorted|].
    intros Hpar. destruct (W6 Hpar) as [Halt Htl]; [now rewrite Hout|exact I|intros v []|].
    apply alternating_snoc. split; [exact Halt|].
    intros v Hv. apply Htl. unfold inner in Hv.
    clear - Hv. induction (tl c') as [|a l IH]; [destruct Hv|].
    destruct l as [|b l]; [destruct Hv|].
    destruct Hv as [<-|Hv]; [now left|right; now apply IH].
Qed.

End TabSplitterResults.

(** C2 fails on the code where the walk starts inside a tab polygon:
    the tool path ends at (5, 0), inside the tab of scenario S4, and the
    call throws instead of returning sub-paths. *)
Theorem separateTabs_throws_inside_a_tab
        (intersect : Point2d -> Point2d -> Polygon -> list Point2d)
        (distance : Point2d -> Point2d -> Q) :
  separateTabs Sample.contains intersect distance [Pt 0 0; Pt 5 0] [Sample.tab_S4]
  = Throw ReferenceError.
Proof. reflexivity. Qed.

(** C3 as the specification states it fails: a tab far from the path is
    not met by any segment, yet the sub-path returned is not the tool
    path; it starts with the last vertex. *)
Lemma separateTabs_starts_at_the_last_vertex :
  let P := [Pt 0 5; Pt 10 5; Pt 10 8] in
  separateTabs Sample.contains Sample.intersect Sample.distance2 P [Sample.tab_S4]
  = Normal [[Pt 10 8; Pt 0 5; Pt 10 5; Pt 10 8]]
  /\ concat [[Pt 10 8; Pt 0 5; Pt 10 5; Pt 10 8]] <> P
  /\ Sample.intersect {| x := 10; y := 8 |} {| x := 0; y := 5 |}
       [{| x := 4; y := -1 |}; {| x := 6; y := -1 |}; {| x := 6; y := 1 |}; {| x := 4; y := 1 |}] = []
  /\ Sample.intersect {| x := 0; y := 5 |} {| x := 10; y := 5 |}
       [{| x := 4; y := -1 |}; {| x := 6; y := -1 |}; {| x := 6; y := 1 |}; {| x := 4; y := 1 |}] = []
  /\ Sample.intersect {| x := 10; y := 5 |} {| x := 10; y := 8 |}
       [{| x := 4; y := -1 |}; {| x := 6; y := -1 |}; {| x := 6; y := 1 |}; {| x := 4; y := 1 |}] = [].
Proof.
  cbv zeta. split; [vm_compute; reflexivity|]. split; [discriminate|].
  repeat split; vm_compute; reflexivity.
Qed.

Lemma separateTabs_closed_walk_witness :
  exists out,
    separateTabs Sample.contains Sample.intersect Sample.distance2
                 (map to_internal ([{| x := 0; y := 0 |}] ++ [{| x := 10; y := 0 |}]))
                 [map to_internal [{| x := 4; y := -1 |}; {| x := 6; y := -1 |};
                                   {| x := 6; y := 1 |}; {| x := 4; y := 1 |}]]
    = Normal out
    /\ chained out
    /\ join_chain out = [Pt 10 0; Pt 6 0; Pt 4 0; Pt 0 0; Pt 4 0; Pt 6 0; Pt 10 0]
    /\ alternating
         (inside Sample.contains [{| x := 4; y := -1 |}; {| x := 6; y := -1 |};
                                  {| x := 6; y := 1 |}; {| x := 4; y := 1 |}])
         false out.
Proof.
  destruct (separateTabs_closed_walk Sample.contains Sample.intersect Sample.distance2
              [{| x := 4; y := -1 |}; {| x := 6; y := -1 |}; {| x := 6; y := 1 |}; {| x := 4; y := 1 |}]
              [{| x := 0; y := 0 |}] {| x := 10; y := 0 |})
    as (out & Hrun & Hchain & Hjoin & _ & Halt).
  - vm_compute. reflexivity.
  - exists out. split; [exact Hrun|]. split; [exact Hchain|]. split.
    + rewrite Hjoin. vm_compute. reflexivity.
    + apply Halt. vm_compute. reflexivity.
Defined.

(** The loop pushes the vertex once per tab polygon: without tabs nothing
    is returned, and with two tabs every vertex comes twice. *)
Example separateTabs_without_tabs :
  separateTabs Sample.contains Sample.intersect Sample.distance2 Sample.path_S4 [] = Normal [].
Proof. vm_compute. reflexivity. Qed.

Example separateTabs_two_tabs :
  separateTabs Sample.contains Sample.intersect Sample.distance2
               [Pt 0 5; Pt 10 5] [Sample.tab_S4; Sample.tab_S4]
  = Normal [[Pt 10 5; Pt 0 5; Pt 0 5; Pt 10 5; Pt 10 5]].
Proof. vm_compute. reflexivity. Qed.

(** ** generateGcode, the revision that writes the postamble itself *)
Section InlineFacts.

Import Inline.

Variable Gcode_generate : GenerateArgs -> list string.
Variable InternalPaths_offset : Paths -> Q -> Paths.
Variable InternalPaths_clip_union : Paths -> Paths -> Paths.
Variable internal_to : string -> Q.
Variable Number_toString : Q -> string.
Variable Number_toFixed2 : Q -> string.

Local Abbreviation generateGcode :=
  (generateGcode Gcode_generate InternalPaths_offset InternalPaths_clip_union
                 internal_to Number_toString Number_toFixed2).
Local Abbreviation emitted_lines :=
  (emitted_lines Gcode_generate InternalPaths_offset InternalPaths_clip_union
                 internal_to Number_toString Number_toFixed2).
Local Abbreviation operation_blocks :=
  (operation_blocks Gcode_generate InternalPaths_offset InternalPaths_clip_union
                    internal_to Number_toString).
Local Abbreviation operation_lines := (operation_lines Gcode_generate internal_to Number_toString).
Local Abbreviation preamble := (preamble Number_toString Number_toFixed2).
Local Abbreviation postamble := (postamble Number_toString).
Local Abbreviation return_line := (return_line Number_toString).

Lemma fold_operation_lines (f : Operation -> list string * list Alert) (ops : list Operation) :
  forall lines shown,
    fold_left (fun '(lines, shown) op => let '(l, a) := f op in (app lines l, app shown a))
              ops (lines, shown)
    = (lines ++ flat_map (fun op => fst (f op)) ops,
       shown ++ flat_map (fun op => snd (f op)) ops).
Proof.
  induction ops as [|op ops IH]; intros lines shown; simpl.
  - now rewrite !app_nil_r.
  - destruct (f op) as [l a]. rewrite IH. simpl. now rewrite <- !app_assoc.
Qed.

(** With no operation to generate, the call returns at once and leaves
    the view model as it was. *)
Lemma generateGcode_idle (i : Inputs) (s : ViewState) :
  enabled_ops (operations i) = [] -> generateGcode i s = Returns s.
Proof.
  intros H. unfold Inline.generateGcode. rewrite H. simpl.
  now destruct (allowGen i).
Qed.

(** With an operation to generate and units G-code knows, the call
    writes the lines of [emitted_lines] to the [gcode] observable. *)
Lemma generateGcode_runs (i : Inputs) (s : ViewState) (unit_line : string) :
  allowGen i = true -> enabled_ops (operations i) <> [] ->
  unit_directive (units i) = Normal unit_line ->
  exists s', generateGcode i s = Returns s'
             /\ gcode s' = join_lines (emitted_lines i unit_line).
Proof.
  intros Hallow Hops Hunit. unfold Inline.generateGcode, Inline.emitted_lines,
    Inline.operation_blocks.
  rewrite Hallow. simpl negb. cbv iota.
  destruct (enabled_ops (operations i)) as [|op ops] eqn:E; [congruence|].
  simpl length. simpl Nat.eqb. cbv iota.
  destruct (origin_offset _ _ _ _ _) as [ox oy].
  rewrite Hunit.
  destruct (js_lt (tool_passDepth i) 0); rewrite fold_operation_lines;
    eexists; (split; [reflexivity|reflexivity]).
Qed.

Lemma unit_directive_known (gunits : string) :
  gunits = "mm"%string \/ gunits = "inch"%string ->
  exists unit_line,
    unit_directive gunits = Normal unit_line
    /\ (unit_line = "G20 ; Set units to inches"%string
        \/ unit_line = "G21 ; Set units to mm"%string).
Proof. intros [->| ->]; eexists; (split; [reflexivity|]); auto. Qed.

(** No line of the preamble and no header line of an operation is the
    return move. *)
Lemma return_line_not_in_preamble (i : Inputs) (unit_line : string) (ox oy r : Q) :
  unit_line = "G20 ; Set units to inches"%string \/ unit_line = "G21 ; Set units to mm"%string ->
  ~ In (return_line r) (preamble i unit_line ox oy).
Proof.
  intros Hu Hin. unfold Inline.preamble, Inline.return_line in Hin. simpl in Hin.
  destruct Hin as [H|[H|[H|[H|[H|[]]]]]]; try discriminate H.
  destruct Hu as [-> | ->]; discriminate H.
Qed.

Lemma return_line_not_in_operation
      (gunits : string) (passDepth plungeRate rapidRate cutRate safeZ topZ tabZ ox oy : Q)
      (tabGeometry : Paths) (op : Operation) (r : Q) :
  (forall args, ~ In (return_line r) (Gcode_generate args)) ->
  ~ In (return_line r)
      (fst (operation_lines gunits passDepth plungeRate rapidRate cutRate
                            safeZ topZ tabZ ox oy tabGeometry op)).
Proof.
  intros Hgen Hin. unfold Inline.operation_lines, Inline.return_line in Hin.
  destruct (js_lt (cutDepth op) 0); simpl in Hin;
    repeat (destruct Hin as [H|Hin]; [discriminate H|]);
    now apply Hgen in Hin.
Qed.

Lemma return_line_not_in_blocks (i : Inputs) :
  (forall args, ~ In (return_line (rapidRate i)) (Gcode_generate args)) ->
  ~ In (return_line (rapidRate i)) (operation_blocks i).
Proof.
  intros Hgen Hin. unfold Inline.operation_blocks in Hin.
  destruct (origin_offset _ _ _ _ _) as [ox oy].
  apply in_flat_map in Hin as (op & _ & Hin).
  now apply return_line_not_in_operation in Hin.
Qed.

Lemma last_postamble (body : list string) (back : bool) (r : Q) :
  List.last (body ++ postamble back r) EmptyString = end_line.
Proof.
  unfold Inline.postamble. rewrite app_assoc. apply last_last.
Qed.

Lemma penultimate_postamble (body : list string) (back : bool) (r : Q) :
  ~ In (return_line r) body ->
  penultimate (body ++ postamble back r) = Some (return_line r) <-> back = true.
Proof.
  intros Hbody. unfold penultimate, Inline.postamble.
  destruct back; simpl app; rewrite rev_app_distr; simpl.
  - tauto.
  - split; [|discriminate]. intros H.
    destruct (rev body) as [|l ls] eqn:E; [discriminate|].
    injection H as ->. exfalso. apply Hbody.
    apply in_rev. rewrite E. now left.
Qed.

(** Lines joined by newlines: the last line follows a newline. *)
Lemma join_lines_last (lines : list string) (l : string) :
  lines <> [] ->
  join_lines (lines ++ [l]) = (join_lines lines ++ String (Ascii.ascii_of_nat 10) l)%string.
Proof.
  unfold join_lines. induction lines as [|a lines IH]; [congruence|]. intros _.
  destruct lines as [|b lines]; [reflexivity|].
  change (String.concat ?sep ((a :: b :: lines) ++ [l]))
    with (a ++ sep ++ String.concat sep ((b :: lines) ++ [l]))%string.
  rewrite IH by discriminate.
  change (String.concat ?sep (a :: b :: lines))
    with (a ++ sep ++ String.concat sep (b :: lines))%string.
  now rewrite !append_assoc.
Qed.

(** What is emitted but for its last line is not empty, and the last
    line is [M2 ; end program]. *)
Lemma emitted_lines_split (i : Inputs) (unit_line : string) :
  removelast (emitted_lines i unit_line) <> []
  /\ emitted_lines i unit_line = removelast (emitted_lines i unit_line) ++ [end_line].
Proof.
  unfold Inline.emitted_lines, Inline.postamble.
  destruct (origin_offset _ _ _ _ _) as [ox oy].
  rewrite !app_assoc. rewrite removelast_last. split; [|reflexivity].
  unfold Inline.preamble. discriminate.
Qed.

(** What is emitted ends with the postamble: [M2 ; end program] last,
    and before it the return move exactly when [back] is set. *)
Lemma emitted_lines_end (i : Inputs) (unit_line : string) :
  unit_line = "G20 ; Set units to inches"%string \/ unit_line = "G21 ; Set units to mm"%string ->
  (forall args, ~ In (return_line (rapidRate i)) (Gcode_generate args)) ->
  List.last (emitted_lines i unit_line) EmptyString = end_line
  /\ (penultimate (emitted_lines i unit_line) = Some (return_line (rapidRate i))
      <-> returnTo00 i = true)
  /\ (returnTo00 i = false -> ~ In (return_line (rapidRate i)) (emitted_lines i unit_line)).
Proof.
  intros Hline Hgen. unfold Inline.emitted_lines.
  destruct (origin_offset _ _ _ _ _) as [ox oy].
  set (body := preamble i unit_line ox oy ++ operation_blocks i).
  assert (Hbody : ~ In (return_line (rapidRate i)) body).
  { intros Hin.
    destruct (in_app_or (preamble i unit_line ox oy) (operation_blocks i) _ Hin) as [H|H].
    - now apply return_line_not_in_preamble in H.
    - now apply return_line_not_in_blocks in H. }
  rewrite app_assoc. fold body.
  split; [apply last_postamble|]. split; [now apply penultimate_postamble|].
  intros Hback Hin. rewrite Hback in Hin.
  destruct (in_app_or body (postamble false (rapidRate i)) _ Hin) as [H|[H|[]]];
    [now apply Hbody|].
  unfold Inline.end_line, Inline.return_line in H. discriminate H.
Qed.

(** C4, as the code has it.  For every job there is something to
    generate for (generation is not locked and some operation is enabled
    with tool paths; its units mm or inch; the emitter of the operations
    writing no return move of its own), the call returns and stores,
    joined by newlines, the line sequence [emitted_lines]: the text ends
    with a newline and [M2 ; end program].  The sequence ends with the
    line [M2 ; end program]; the line before that one is
    [G0 X0 Y0 F<rapidRate> ; Return to 0,0] if and only if [returnTo00] is
    set, and when [returnTo00] is not set no such line is emitted at
    all. *)
Theorem generateGcode_postamble (i : Inputs) (s : ViewState) :
  allowGen i = true -> enabled_ops (operations i) <> [] ->
  units i = "mm"%string \/ units i = "inch"%string ->
  (forall args, ~ In (return_line (rapidRate i)) (Gcode_generate args)) ->
  exists s' unit_line,
    unit_directive (units i) = Normal unit_line
    /\ generateGcode i s = Returns s'
    /\ gcode s' = join_lines (emitted_lines i unit_line)
    /\ gcode s' = (join_lines (removelast (emitted_lines i unit_line))
                   ++ String (Ascii.ascii_of_nat 10) end_line)%string
    /\ List.last (emitted_lines i unit_line) EmptyString = end_line
    /\ (penultimate (emitted_lines i unit_line) = Some (return_line (rapidRate i))
        <-> returnTo00 i = true)
    /\ (returnTo00 i = false
        -> ~ In (return_line (rapidRate i)) (emitted_lines i unit_line)).
Proof.
  intros Hallow Hops Hunits Hgen.
  destruct (unit_directive_known (units i) Hunits) as (unit_line & Hdir & Hline).
  destruct (generateGcode_runs i s unit_line Hallow Hops Hdir) as (s' & Hrun & Hgcode).
  exists s', unit_line. split; [exact Hdir|]. split; [exact Hrun|]. split; [exact Hgcode|].
  split; [|now apply emitted_lines_end].
  destruct (emitted_lines_split i unit_line) as [Hne Hsplit].
  rewrite Hgcode. rewrite Hsplit at 1. now apply join_lines_last.
Qed.

End InlineFacts.

(** ** generateGcode, the revision that drives a generator *)
Section GeneratorFacts.

Import Generator.

Variable G : Type.
Variable Generator_new : JobOptions -> G.
Variable Generator_addOperation : OpCard -> Job G -> Job G.
Variable Generator_end : Job G -> list string.
Variable CutPaths_offset : Paths -> Q -> Paths.
Variable CutPaths_union : Paths -> Paths -> Paths.
Variable integer_to : string -> Q.

Local Abbreviation generateGcode :=
  (generateGcode G Generator_new Generator_addOperation Generator_end
                 CutPaths_offset CutPaths_union integer_to).
Local Abbreviation prepare_job :=
  (prepare_job G Generator_new CutPaths_offset CutPaths_union integer_to).
Local Abbreviation loaded_job :=
  (loaded_job G Generator_new Generator_addOperation CutPaths_offset CutPaths_union integer_to).
Local Abbreviation add_operations := (add_operations G Generator_addOperation).
Local Abbreviation opCards := (opCards G Generator_addOperation).


Lemma make_opCard_fields (job_passDepth : Q) (op : Operation) :
  let opCard := fst (make_opCard job_passDepth op) in
  c_precalculatedZ opCard = is_precalc (operation op)
  /\ c_passDepth opCard = (if is_precalc (operation op) then cutDepth op else job_passDepth)
  /\ c_cutDepth opCard = (if js_lt (cutDepth op) 0 then 0 else cutDepth op)
  /\ snd (make_opCard job_passDepth op) = cut_alerts op.
Proof.
  unfold make_opCard, cut_alerts. simpl.
  destruct (js_lt (cutDepth op) 0); simpl; repeat split; reflexivity.
Qed.

Lemma add_operations_cards (ops : list Operation) :
  forall (job : Job G) (shown : list Alert),
    add_operations ops job shown
    = (fold_left (fun job opCard => Generator_addOperation opCard job) (opCards ops job) job,
       shown ++ flat_map cut_alerts ops).
Proof.
  induction ops as [|op ops IH]; intros job shown.
  - unfold Generator.add_operations. simpl. now rewrite app_nil_r.
  - unfold Generator.add_operations in *. simpl.
    pose proof (make_opCard_fields (passDepth (options G job)) op) as (_ & _ & _ & Ha).
    destruct (make_opCard (passDepth (options G job)) op) as [opCard a]. simpl in *.
    rewrite IH, Ha. now rewrite <- app_assoc.
Qed.

Lemma prepare_job_passDepth (i : Inputs) :
  passDepth (options G (fst (prepare_job i)))
  = (if js_lt (tool_passDepth i) 0 then 0 else tool_passDepth i)
  /\ snd (prepare_job i) = pass_alerts i.
Proof.
  unfold Generator.prepare_job, pass_alerts.
  destruct (origin_offset _ _ _ _ _) as [ox oy]. simpl.
  destruct (js_lt (tool_passDepth i) 0); simpl; split; reflexivity.
Qed.

Lemma generateGcode_idle_generator (i : Inputs) (s : ViewState) :
  enabled_ops (operations i) = [] -> generateGcode i s = Returns s.
Proof.
  intros H. unfold Generator.generateGcode. rewrite H. simpl.
  now destruct (allowGen i).
Qed.

(** With an operation to generate the call runs to its end: it shows
    the alerts, hands every card to the generator and stores what
    [job.end()] returns. *)
Lemma generateGcode_runs_generator (i : Inputs) (s : ViewState) :
  allowGen i = true -> enabled_ops (operations i) <> [] ->
  generateGcode i s
  = Returns {| gcode := Generator_end (loaded_job i);
               gcodeS := join_lines (Generator_end (loaded_job i));
               alerts := alerts s ++ pass_alerts i ++ flat_map cut_alerts (enabled_ops (operations i));
               events := events s ++ ["UPDATE_SIMULATION"%string];
               tutorial := tutorial s ++ [5%nat] |}.
Proof.
  intros Hallow Hops. unfold Generator.generateGcode, Generator.loaded_job.
  rewrite Hallow. simpl negb. cbv iota.
  destruct (enabled_ops (operations i)) as [|op ops] eqn:E; [congruence|].
  simpl length. simpl Nat.eqb. cbv iota.
  pose proof (prepare_job_passDepth i) as [_ Hshown].
  destruct (prepare_job i) as [job shown]. simpl in Hshown. subst shown.
  rewrite add_operations_cards. reflexivity.
Qed.


Lemma opCards_length (ops : list Operation) :
  forall job : Job G, length (opCards ops job) = length ops.
Proof.
  induction ops as [|op ops IH]; intros job; simpl; [reflexivity|]. now rewrite IH.
Qed.

Lemma opCards_cutDepth (ops : list Operation) :
  forall job : Job G, Forall (fun c => 0 <= c_cutDepth c) (opCards ops job).
Proof.
  induction ops as [|op ops IH]; intros job; simpl; constructor; [|apply IH].
  destruct (make_opCard_fields (passDepth (options G job)) op) as (_ & _ & H & _).
  rewrite H. destruct (js_lt (cutDepth op) 0) eqn:E; [lra|].
  now apply js_lt_false_iff in E.
Qed.

(** This revision never throws. *)
Lemma generateGcode_returns (i : Inputs) (s : ViewState) :
  exists s', generateGcode i s = Returns s'.
Proof.
  destruct (allowGen i) eqn:Hallow.
  - destruct (enabled_ops (operations i)) as [|op ops] eqn:Hops.
    + exists s. now apply generateGcode_idle_generator.
    + eexists. apply generateGcode_runs_generator; [exact Hallow|].
      rewrite Hops. discriminate.
  - exists s. unfold Generator.generateGcode. now rewrite Hallow.
Qed.

(** The cut depth of every card is that of its operation, or 0 when
    that one is below 0. *)
Lemma opCards_clamped (ops : list Operation) :
  forall job : Job G,
    Forall2 (fun op c => c_cutDepth c = (if js_lt (cutDepth op) 0 then 0 else cutDepth op)
                         /\ 0 <= c_cutDepth c)
            ops (opCards ops job).
Proof.
  induction ops as [|op ops IH]; intros job; simpl; constructor; [|apply IH].
  destruct (make_opCard_fields (passDepth (options G job)) op) as (_ & _ & H & _).
  split; [exact H|]. rewrite H.
  destruct (js_lt (cutDepth op) 0) eqn:E; [lra|]. now apply js_lt_false_iff in E.
Qed.

(** While [job.addOperation] leaves the pass depth of the generator
    alone, every card that is not precalculated carries it. *)
Lemma opCards_passDepth (ops : list Operation) :
  (forall c job, passDepth (options G (Generator_addOperation c job))
                 = passDepth (options G job)) ->
  forall job : Job G,
    Forall (fun c => c_precalculatedZ c = false -> c_passDepth c = passDepth (options G job))
           (opCards ops job).
Proof.
  intros Hkeep. induction ops as [|op ops IH]; intros job; simpl; constructor.
  - destruct (make_opCard_fields (passDepth (options G job)) op) as (H1 & H2 & _).
    rewrite H1, H2. now intros ->.
  - specialize (IH (Generator_addOperation (fst (make_opCard (passDepth (options G job)) op))
                                           job)).
    now rewrite Hkeep in IH.
Qed.

(** C9, as the code has it.  For every job there is something to
    generate for (generation is not locked and some operation is enabled
    with tool paths), whatever its depths, generation does not fail: the
    call returns and stores what [job.end()] returns once every card has
    been added.  A pass depth below 0 is shown to the host as
    [passDepthTooSmall] and the pass depth of the generator is set to 0;
    for every operation with a cut depth below 0, [cutDepthTooSmall] is
    shown and the cut depth of its card is set to 0.  Generation goes on
    with these values: no card has a cut depth below 0, and the cards of
    the operations that are not precalculated carry the pass depth of the
    generator, which is not below 0 (for the first card, and for every
    card when [job.addOperation] leaves that pass depth alone). *)
Theorem generateGcode_clamps_depths (i : Inputs) (s : ViewState) :
  allowGen i = true -> enabled_ops (operations i) <> [] ->
  let job := fst (prepare_job i) in
  let cards := opCards (enabled_ops (operations i)) job in
  exists s',
    generateGcode i s = Returns s'
    /\ gcode s' = Generator_end (loaded_job i)
    /\ passDepth (options G job)
       = (if js_lt (tool_passDepth i) 0 then 0 else tool_passDepth i)
    /\ 0 <= passDepth (options G job)
    /\ (tool_passDepth i < 0 ->
        In (mkAlert "passDepthTooSmall" "alert-warning" [tool_passDepth i]) (alerts s'))
    /\ (forall op, In op (enabled_ops (operations i)) -> cutDepth op < 0 ->
          In (mkAlert "cutDepthTooSmall" "alert-warning" []) (alerts s'))
    /\ Forall2 (fun op c => c_cutDepth c = (if js_lt (cutDepth op) 0 then 0 else cutDepth op)
                            /\ 0 <= c_cutDepth c)
               (enabled_ops (operations i)) cards
    /\ (forall c, head cards = Some c -> c_precalculatedZ c = false ->
          c_passDepth c = passDepth (options G job))
    /\ ((forall c j, passDepth (options G (Generator_addOperation c j))
                     = passDepth (options G j)) ->
        Forall (fun c => c_precalculatedZ c = false ->
                         c_passDepth c = passDepth (options G job)) cards).
Proof.
  intros Hallow Hops. cbv zeta.
  eexists. split; [now apply generateGcode_runs_generator|].
  simpl. split; [reflexivity|].
  destruct (prepare_job_passDepth i) as [Hpd _].
  split; [exact Hpd|]. split; [|split; [|split; [|split; [|split]]]].
  - rewrite Hpd. destruct (js_lt (tool_passDepth i) 0) eqn:E; [lra|].
    now apply js_lt_false_iff in E.
  - intros Hneg. apply js_lt_iff in Hneg.
    apply in_or_app. right. apply in_or_app. left.
    unfold pass_alerts. rewrite Hneg. now left.
  - intros op Hop Hneg. apply js_lt_iff in Hneg.
    apply in_or_app. right. apply in_or_app. right.
    apply in_flat_map. exists op. split; [exact Hop|].
    unfold cut_alerts. rewrite Hneg. now left.
  - apply opCards_clamped.
  - intros c Hc Hpre.
    destruct (enabled_ops (operations i)) as [|op ops]; [discriminate Hc|].
    simpl in Hc. injection Hc as <-.
    destruct (make_opCard_fields (passDepth (options G (fst (prepare_job i)))) op)
      as (H1 & H2 & _).
    rewrite H1 in Hpre. now rewrite H2, Hpre.
  - intros Hkeep. now apply opCards_passDepth.
Qed.

End GeneratorFacts.

(** ** Jobs without operations *)
Section NoOperations.

Variable Gcode_generate : Inline.GenerateArgs -> list string.
Variable InternalPaths_offset : Paths -> Q -> Paths.
Variable InternalPaths_clip_union : Paths -> Paths -> Paths.
Variable internal_to : string -> Q.
Variable Number_toString : Q -> string.
Variable Number_toFixed2 : Q -> string.
Variable G : Type.
Variable Generator_new : Generator.JobOptions -> G.
Variable Generator_addOperation : Generator.OpCard -> Generator.Job G -> Generator.Job G.
Variable Generator_end : Generator.Job G -> list string.
Variable CutPaths_offset : Paths -> Q -> Paths.
Variable CutPaths_union : Paths -> Paths -> Paths.
Variable integer_to : string -> Q.

(** C8, as the code has it.  For every job in which no operation is
    both enabled and has tool paths, [generateGcode] returns at once, in
    either revision: no line is emitted, no alert shown, no event
    dispatched, and the [gcode] observable keeps the value it had. *)
Theorem generateGcode_without_operations
        (i : Inline.Inputs) (s : Inline.ViewState)
        (i' : Generator.Inputs) (s' : Generator.ViewState) :
  Inline.enabled_ops (Inline.operations i) = [] ->
  Generator.enabled_ops (Generator.operations i') = [] ->
  Inline.generateGcode Gcode_generate InternalPaths_offset InternalPaths_clip_union
                       internal_to Number_toString Number_toFixed2 i s
  = Returns s
  /\ Generator.generateGcode G Generator_new Generator_addOperation Generator_end
                             CutPaths_offset CutPaths_union integer_to i' s'
     = Returns s'.
Proof.
  intros H H'. split.
  - now apply generateGcode_idle.
  - now apply generateGcode_idle_generator.
Qed.

End NoOperations.

(** ** The jobs of the examples *)

Lemma generateGcode_without_operations_witness :
  Inline.generateGcode Sample.generate Sample.offset (fun a _ => a) Sample.scale
                       Sample.number Sample.number
                       (Sample.job [Sample.pocket_op false] false) Sample.blank
  = Returns Sample.blank
  /\ Generator.generateGcode (list Generator.OpCard) (fun _ => []) Sample.keep_card
                             Sample.card_lines Sample.offset (fun a _ => a) Sample.scale
                             (Sample.generator_job [] 1) Sample.generator_blank
     = Returns Sample.generator_blank.
Proof.
  apply (generateGcode_without_operations
           Sample.generate Sample.offset (fun a _ => a) Sample.scale Sample.number Sample.number
           (list Generator.OpCard) (fun _ => []) Sample.keep_card Sample.card_lines
           Sample.offset (fun a _ => a) Sample.scale
           (Sample.job [Sample.pocket_op false] false) Sample.blank
           (Sample.generator_job [] 1) Sample.generator_blank);
    reflexivity.
Defined.

(** C8 as the specification states it fails: for a job without
    operations neither revision emits a preamble or a postamble; the
    G-code stays as it was, here empty. *)
Lemma generateGcode_emits_nothing_without_operations :
  Inline.generateGcode Sample.generate Sample.offset (fun a _ => a) Sample.scale
                       Sample.number Sample.number (Sample.job [] false) Sample.blank
  = Returns Sample.blank
  /\ Inline.gcode Sample.blank = EmptyString
  /\ Generator.generateGcode (list Generator.OpCard) (fun _ => []) Sample.keep_card
                             Sample.card_lines Sample.offset (fun a _ => a) Sample.scale
                             (Sample.generator_job [] 1) Sample.generator_blank
     = Returns Sample.generator_blank
  /\ Generator.gcode Sample.generator_blank = [].
Proof. repeat split. Qed.

Lemma generateGcode_postamble_witness :
  exists s' lines,
    Inline.generateGcode Sample.generate Sample.offset (fun a _ => a) Sample.scale
                         Sample.number Sample.number
                         (Sample.job [Sample.pocket_op true] true) Sample.blank
    = Returns s'
    /\ Inline.gcode s' = Inline.join_lines lines
    /\ List.last lines EmptyString = "M2 ; end program"%string
    /\ penultimate lines = Some ("G0 X0 Y0 F1000 ; Return to 0,0"%string).
Proof.
  destruct (generateGcode_postamble
              Sample.generate Sample.offset (fun a _ => a) Sample.scale
              Sample.number Sample.number
              (Sample.job [Sample.pocket_op true] true) Sample.blank)
    as (s' & unit_line & _ & Hrun & Hgcode & _ & Hlast & Hback & _).
  - reflexivity.
  - discriminate.
  - left. reflexivity.
  - intros args [H|[]]. discriminate H.
  - exists s'. eexists. split; [exact Hrun|]. split; [exact Hgcode|].
    split; [exact Hlast|]. now apply Hback.
Defined.

(** C4 as the specification states it fails on a job without
    operations: the call returns at the guard, the G-code stays empty,
    and an empty text is not a line sequence that ends with
    [M2 ; end program], although [returnTo00] is set. *)
Lemma generateGcode_without_end_line :
  Inline.generateGcode Sample.generate Sample.offset (fun a _ => a) Sample.scale
                       Sample.number Sample.number (Sample.job [] true) Sample.blank
  = Returns Sample.blank
  /\ Inline.returnTo00 (Sample.job [] true) = true
  /\ ~ exists lines,
        Inline.gcode Sample.blank = Inline.join_lines lines
        /\ List.last lines EmptyString = Inline.end_line.
Proof.
  split; [reflexivity|]. split; [reflexivity|].
  intros (lines & Hjoin & Hlast).
  destruct lines as [|l [|l' lines]].
  - discriminate Hlast.
  - simpl in Hjoin, Hlast. subst l. discriminate Hjoin.
  - simpl in Hjoin. destruct l; discriminate Hjoin.
Qed.

Lemma generateGcode_clamps_depths_witness :
  let i := Sample.generator_job [Sample.engrave_op (-3); Sample.engrave_op 2] (-1) in
  exists s',
    Generator.generateGcode (list Generator.OpCard) (fun _ => []) Sample.keep_card
                            Sample.card_lines Sample.offset (fun a _ => a) Sample.scale
                            i Sample.generator_blank
    = Returns s'
    /\ Generator.gcode s' = [("; letters")%string; ("; letters")%string]
    /\ Generator.alerts s' = [mkAlert "passDepthTooSmall" "alert-warning" [-1];
                              mkAlert "cutDepthTooSmall" "alert-warning" []]
    /\ map (fun c => (Generator.c_cutDepth c, Generator.c_passDepth c))
           (Generator.opCards (list Generator.OpCard) Sample.keep_card
              (Generator.enabled_ops (Generator.operations i))
              (fst (Generator.prepare_job (list Generator.OpCard) (fun _ => []) Sample.offset
                      (fun a _ => a) Sample.scale i)))
       = [(0, 0); (2, 0)].
Proof.
  cbv zeta.
  destruct (generateGcode_clamps_depths
              (list Generator.OpCard) (fun _ => []) Sample.keep_card Sample.card_lines
              Sample.offset (fun a _ => a) Sample.scale
              (Sample.generator_job [Sample.engrave_op (-3); Sample.engrave_op 2] (-1))
              Sample.generator_blank)
    as (s' & Hrun & Hgcode & _); [reflexivity|discriminate|].
  exists s'. split; [exact Hrun|]. split; [|split].
  - rewrite Hgcode. vm_compute. reflexivity.
  - vm_compute in Hrun. injection Hrun as <-. reflexivity.
  - vm_compute. reflexivity.
Defined.

(** C9 as the specification states it fails.  On a job without
    operations the pass depth is below 0, and the call returns at the
    guard without a warning and without a line.  On a job with a Perforate operation of
    cut depth -3 the card handed to the generator has its cut depth set
    to 0 and keeps -3 as its pass depth. *)
Lemma generateGcode_depths_left_negative :
  (Generator.tool_passDepth (Sample.generator_job [] (-1)) < 0
   /\ Generator.generateGcode (list Generator.OpCard) (fun _ => []) Sample.keep_card
                              Sample.card_lines Sample.offset (fun a _ => a) Sample.scale
                              (Sample.generator_job [] (-1)) Sample.generator_blank
      = Returns Sample.generator_blank
   /\ Generator.alerts Sample.generator_blank = []
   /\ Generator.gcode Sample.generator_blank = [])
  /\ (let i := Sample.generator_job [Sample.perforate_op (-3)] 1 in
      map (fun c => (Generator.c_cutDepth c, Generator.c_passDepth c))
          (Generator.opCards (list Generator.OpCard) Sample.keep_card
             (Generator.enabled_ops (Generator.operations i))
             (fst (Generator.prepare_job (list Generator.OpCard) (fun _ => []) Sample.offset
                     (fun a _ => a) Sample.scale i)))
      = [(0, -3)]).
Proof. repeat split. Qed.

(** The card of a Perforate operation with a cut depth below 0: the cut
    depth is set to 0 after the pass depth was taken from it. *)
Example perforate_card_negative_depth :
  let opCard := fst (Generator.make_opCard 1 (Sample.perforate_op (-3))) in
  Generator.c_cutDepth opCard = 0 /\ Generator.c_passDepth opCard = -3.
Proof. split; reflexivity. Qed.

(** * Further properties of the code *)

(** ** outline *)
Section OutlineFacts.

Variable offset : Paths -> Q -> Paths.
Variable merge : option Paths -> Paths -> Paths.
Variable crosses : option Paths -> JsPoint -> JsPoint -> bool.
Variable diff : Paths -> Paths -> Paths.
Variable add : Q -> Q -> Q.

(** [outline] is its loop, run on the start contours, merged within the
    bounds. *)
Lemma outline_parts (fuel : nat) (geometry : Paths) (cutterDia : Q) (isInside : bool)
      (width overlap : Q) (climb : bool) :
  outline offset merge crosses diff add fuel geometry cutterDia isInside width overlap climb
  = match outline_loop offset add fuel (outline_needReverse isInside climb)
                       (cutterDia * (1 - overlap))
                       (if isInside then - (cutterDia * (1 - overlap))
                        else cutterDia * (1 - overlap))
                       width cutterDia (outline_start offset geometry cutterDia isInside) [] with
    | None => None
    | Some allPaths =>
        Some (mergePaths merge crosses
                (Some (outline_bounds offset diff geometry cutterDia isInside width))
                         allPaths)
    end.
Proof. unfold outline. now destruct isInside. Qed.

(** While the sum with the step is not above the running width, the
    loop goes on once it is entered. *)
Lemma outline_loop_stuck (r : bool) (each eo width : Q) :
  (forall cw, cw <= width -> add cw each <= cw) ->
  forall (fuel : nat) (cw : Q) (cur acc : Paths),
    cw <= width -> outline_loop offset add fuel r each eo width cw cur acc = None.
Proof.
  intros Hadd. induction fuel as [|fuel IH]; intros cw cur acc Hcw; [reflexivity|].
  cbn [outline_loop]. pose proof (Hadd cw Hcw) as Hnext.
  replace (Qle_bool cw width) with true by (symmetry; now apply Qle_bool_iff).
  replace (js_lt width (add cw each)) with false by (symmetry; apply js_lt_false_iff; lra).
  cbn [andb]. apply IH. lra.
Qed.

(** When the sum of a width and the step is that width again, the loop
    goes on with the same width. *)
Lemma outline_loop_absorbed (r : bool) (each eo width cw : Q) :
  cw <= width -> add cw each = cw ->
  forall (fuel : nat) (cur acc : Paths),
    outline_loop offset add fuel r each eo width cw cur acc = None.
Proof.
  intros Hcw Hsame. induction fuel as [|fuel IH]; intros cur acc; [reflexivity|].
  cbn [outline_loop]. rewrite Hsame.
  replace (Qle_bool cw width) with true by (symmetry; now apply Qle_bool_iff).
  replace (js_lt width cw) with false by (symmetry; now apply js_lt_false_iff).
  cbn [andb]. apply IH.
Qed.

(** X1. With a width of at least the cutter diameter, [outline] never
    returns when its running width cannot grow, whatever the geometry:
    when the step [cutterDia * (1 - overlap)] is zero or negative (an
    overlap of 1 or more; a sum with such a term is not above the other
    term), or when the sum of the cutter diameter and the step is the
    cutter diameter again (the step is lost in the rounding of the
    sum). *)
Theorem outline_never_returns (geometry : Paths) (cutterDia : Q) (isInside : bool)
        (width overlap : Q) (climb : bool) :
  cutterDia <= width ->
  ((forall a b, b <= 0 -> add a b <= a) /\ cutterDia * (1 - overlap) <= 0)
  \/ add cutterDia (cutterDia * (1 - overlap)) = cutterDia ->
  forall fuel,
    outline offset merge crosses diff add fuel geometry cutterDia isInside width overlap climb
    = None.
Proof.
  intros Hw H fuel. rewrite outline_parts.
  destruct H as [[Hadd Hstep]|Hsame].
  - rewrite outline_loop_stuck; [reflexivity| |exact Hw].
    intros cw _. now apply Hadd.
  - now rewrite outline_loop_absorbed.
Qed.

(** X2. When the width asked for is below the cutter diameter, [outline]
    makes no pass: the merger is handed no path at all. *)
Theorem outline_narrower_than_cutter (fuel : nat) (geometry : Paths) (cutterDia : Q)
        (isInside : bool) (width overlap : Q) (climb : bool) :
  width < cutterDia ->
  outline offset merge crosses diff add (S fuel) geometry cutterDia isInside width overlap
          climb
  = Some (mergePaths merge crosses
            (Some (outline_bounds offset diff geometry cutterDia isInside width)) []).
Proof.
  intros Hw. rewrite outline_parts. cbn [outline_loop].
  replace (Qle_bool cutterDia width) with false; [reflexivity|].
  symmetry. apply not_true_is_false. intros H. apply Qle_bool_iff in H. lra.
Qed.

(** X3. When the width is the cutter diameter and the sum of the cutter
    diameter and the step comes out above it (the step is positive and
    is not lost in the rounding of the sum), [outline] makes one pass:
    the geometry offset by half the cutter diameter (inwards for an
    inside cut), each contour reversed for a climb cut inside and for a
    conventional cut outside. *)
Theorem outline_single_pass (fuel : nat) (geometry : Paths) (cutterDia : Q)
        (isInside : bool) (width overlap : Q) (climb : bool) :
  width == cutterDia -> width < add cutterDia (cutterDia * (1 - overlap)) ->
  outline offset merge crosses diff add (S (S fuel)) geometry cutterDia isInside width overlap
          climb
  = Some (mergePaths merge crosses
            (Some (outline_bounds offset diff geometry cutterDia isInside width))
            (direct (outline_needReverse isInside climb)
                    (outline_start offset geometry cutterDia isInside))).
Proof.
  intros Hw Hp. rewrite outline_parts. cbn [outline_loop].
  replace (Qle_bool cutterDia width) with true by (symmetry; apply Qle_bool_iff; lra).
  replace (js_lt 0 (width - cutterDia)) with false by (symmetry; apply js_lt_false_iff; lra).
  rewrite andb_false_r.
  replace (Qle_bool (add cutterDia (cutterDia * (1 - overlap))) width) with false.
  - now rewrite app_nil_r.
  - symmetry. apply not_true_is_false. intros H. apply Qle_bool_iff in H. lra.
Qed.

(** X4. When the width is above the cutter diameter and below the sum of
    the cutter diameter and the step, [outline] makes two passes, the
    later one first in what is merged: the start contours, and these
    offset by [width - cutterDia]. That last offset is positive for an
    inside cut as for an outside cut. *)
Theorem outline_last_pass (fuel : nat) (geometry : Paths) (cutterDia : Q)
        (isInside : bool) (width overlap : Q) (climb : bool) :
  cutterDia < width -> width < add cutterDia (cutterDia * (1 - overlap)) ->
  let first := direct (outline_needReverse isInside climb)
                      (outline_start offset geometry cutterDia isInside) in
  outline offset merge crosses diff add (S fuel) geometry cutterDia isInside width overlap
          climb
  = Some (mergePaths merge crosses
            (Some (outline_bounds offset diff geometry cutterDia isInside width))
            (direct (outline_needReverse isInside climb) (offset first (width - cutterDia))
             ++ first)).
Proof.
  intros Hlo Hhi. cbv zeta. rewrite outline_parts. cbn [outline_loop].
  replace (Qle_bool cutterDia width) with true by (symmetry; apply Qle_bool_iff; lra).
  replace (js_lt width (add cutterDia (cutterDia * (1 - overlap)))) with true
    by (symmetry; now apply js_lt_iff).
  replace (js_lt 0 (width - cutterDia)) with true by (symmetry; apply js_lt_iff; lra).
  cbn [andb]. now rewrite app_nil_r.
Qed.

End OutlineFacts.

Lemma outline_never_returns_witness :
  outline Sample.offset Sample.unmerged Sample.never_crosses Trial.diff Qplus
          1000 [Sample.square20] 4 true 6 1 false
  = None
  /\ outline Sample.offset Sample.unmerged Sample.never_crosses Trial.diff Trial.add_whole
             1000 [Sample.square20] 4 true 6 (15 # 16) false
     = None.
Proof.
  split.
  - apply (outline_never_returns Sample.offset Sample.unmerged Sample.never_crosses
             Trial.diff Qplus [Sample.square20] 4 true 6 1 false); [discriminate|].
    left. split; [intros a b Hb; lra|discriminate].
  - apply (outline_never_returns Sample.offset Sample.unmerged Sample.never_crosses
             Trial.diff Trial.add_whole [Sample.square20] 4 true 6 (15 # 16) false);
      [discriminate|].
    right. reflexivity.
Defined.

Lemma outline_narrower_than_cutter_witness :
  outline Sample.offset Sample.unmerged Sample.never_crosses Trial.diff Qplus
          1 [Sample.square20] 4 true 3 (1 # 2) false
  = Some [].
Proof.
  rewrite (outline_narrower_than_cutter Sample.offset Sample.unmerged Sample.never_crosses
             Trial.diff Qplus 0 [Sample.square20] 4 true 3 (1 # 2) false); reflexivity.
Defined.

Lemma outline_single_pass_witness :
  option_map (map path)
    (outline Sample.offset Sample.unmerged Sample.never_crosses Trial.diff Qplus
             2 [Sample.square20] 4 false 4 (1 # 2) true)
  = Some [[Pt (-4 # 2) (-4 # 2); Pt (44 # 2) (-4 # 2); Pt (44 # 2) (44 # 2); Pt (-4 # 2) (44 # 2)]].
Proof.
  rewrite (outline_single_pass Sample.offset Sample.unmerged Sample.never_crosses
             Trial.diff Qplus 0 [Sample.square20] 4 false 4 (1 # 2) true);
    [vm_compute; reflexivity|reflexivity|reflexivity].
Defined.

Lemma outline_last_pass_witness :
  option_map (map path)
    (outline Sample.offset Sample.unmerged Sample.never_crosses Trial.diff Qplus
             1 [Sample.square20] 4 true 5 (1 # 2) true)
  = Some [[Pt (2 # 2) (38 # 2); Pt (38 # 2) (38 # 2); Pt (38 # 2) (2 # 2); Pt (2 # 2) (2 # 2)];
          [Pt (4 # 2) (36 # 2); Pt (36 # 2) (36 # 2); Pt (36 # 2) (4 # 2); Pt (4 # 2) (4 # 2)]].
Proof.
  rewrite (outline_last_pass Sample.offset Sample.unmerged Sample.never_crosses
             Trial.diff Qplus 0 [Sample.square20] 4 true 5 (1 # 2) true);
    [vm_compute; reflexivity|reflexivity|reflexivity].
Defined.

(** ** pocket: a shape with no room for the cutter *)
Section PocketEdge.

Variable offset : Paths -> Q -> Paths.
Variable merge : option Paths -> Paths -> Paths.
Variable crosses : option Paths -> JsPoint -> JsPoint -> bool.

(** X5. When nothing is left of the geometry once it is shrunk by half the
    cutter diameter, [pocket] returns without a pass, whatever the overlap:
    the merger gets an empty clip polygon and no path. *)
Theorem pocket_too_small (fuel : nat) (geometry : Paths) (cutterDia overlap : Q) (climb : bool) :
  offset geometry (- cutterDia / 2) = [] ->
  pocket offset merge crosses (S fuel) geometry cutterDia overlap climb
  = Some (mergePaths merge crosses (Some []) []).
Proof.
  intros H. unfold pocket, Store.alloc. rewrite H. reflexivity.
Qed.

(** X6. The clip polygon of [pocket] shares its path arrays with the first
    pass, so the in-place reversal of a climb cut reaches it: the merger
    gets, as clip polygon, the geometry shrunk by half the cutter diameter
    with every contour reversed when [climb] is set, and as it was offset
    when it is not; the paths it gets are the passes, the innermost first. *)
Theorem pocket_clip_follows_climb (fuel : nat) (geometry : Paths) (cutterDia overlap : Q)
        (climb : bool) :
  pocket offset merge crosses fuel geometry cutterDia overlap climb
  = option_map
      (mergePaths merge crosses
                  (Some (if climb
                         then map (@rev JsPoint) (offset geometry (- cutterDia / 2))
                         else offset geometry (- cutterDia / 2))))
      (pocket_passes offset fuel climb (- cutterDia * (1 - overlap))
                     (offset geometry (- cutterDia / 2)) []).
Proof.
  rewrite pocket_computes. cbv zeta.
  destruct (pocket_passes offset fuel climb _ _ []); [|reflexivity].
  now destruct climb.
Qed.

End PocketEdge.

Lemma pocket_too_small_witness :
  pocket Sample.offset Sample.unmerged Sample.never_crosses 1 [Trial.square2] 4 1 true
  = Some [].
Proof.
  rewrite (pocket_too_small Sample.offset Sample.unmerged Sample.never_crosses
             0 [Trial.square2] 4 1 true); reflexivity.
Defined.

(** ** separateTabs: any number of tab polygons *)
Section TabWalkFacts.

Variable contains : Polygon -> Point2d -> bool.
Variable intersect : Point2d -> Point2d -> Polygon -> list Point2d.
Variable distance : Point2d -> Point2d -> Q.

Lemma mapM_polygons (tabs : list Polygon) :
  mapM (mapM new_Point) (map (map to_internal) tabs) = Normal tabs.
Proof.
  induction tabs as [|tab tabs IH]; [reflexivity|].
  cbn [map mapM]. rewrite mapM_new_Point. cbn [bind]. now rewrite IH.
Qed.

(** Reading the coordinates of points throws nothing but a TypeError. *)
Lemma mapM_new_Point_throws (poly : Path) (e : JsError) :
  mapM new_Point poly = Throw e -> e = TypeError.
Proof.
  induction poly as [|p poly IH]; [discriminate|].
  cbn [mapM]. destruct p as [|X Y]; cbn; [congruence|].
  destruct (mapM new_Point poly); cbn; [discriminate|]. intros H. injection H as <-.
  now apply IH.
Qed.

Lemma mapM_polygons_throws (tabGeometry : Paths) (e : JsError) :
  mapM (mapM new_Point) tabGeometry = Throw e -> e = TypeError.
Proof.
  induction tabGeometry as [|poly g IH]; [discriminate|].
  cbn [mapM]. destruct (mapM new_Point poly) eqn:E; cbn.
  - destruct (mapM (mapM new_Point) g); cbn; [discriminate|]. intros H. injection H as <-.
    now apply IH.
  - intros H. injection H as <-. now apply mapM_new_Point_throws in E.
Qed.

(** X7. A tool path that is empty, or whose last slot is [undefined], makes
    [separateTabs] throw a TypeError, whatever the tabs are: the walk starts
    by reading the coordinates of the last vertex. *)
Theorem separateTabs_without_last_vertex (toolPath : Path) (tabGeometry : Paths) :
  js_last toolPath = Undefined ->
  separateTabs contains intersect distance toolPath tabGeometry = Throw TypeError.
Proof.
  intros H. unfold separateTabs.
  destruct (mapM (mapM new_Point) tabGeometry) as [polys|e] eqn:E; cbn [bind].
  - now rewrite H.
  - now rewrite (mapM_polygons_throws _ _ E).
Qed.

Lemma split_at_lengths (ints : list Point2d) :
  forall (c : Path) (ps : Paths),
    c <> [] -> Forall (fun c => (2 <= length c)%nat) ps ->
    let '(c', ps') := split_at ints c ps in
    c' <> []
    /\ Forall (fun c => (2 <= length c)%nat) ps'
    /\ length ps' = (length ps + length ints)%nat
    /\ (ints = [] -> c' = c /\ ps' = ps)
    /\ (ints <> [] -> length c' = 1%nat)
    /\ js_first (hd c' ps') = js_first (hd c ps).
Proof.
  induction ints as [|i ints IH]; intros c ps Hc Hps; cbn [split_at].
  - repeat split; auto; congruence.
  - specialize (IH [to_internal i] (ps ++ [c ++ [to_internal i]])).
    destruct (split_at ints _ _) as [c' ps'].
    destruct IH as (H1 & H2 & H3 & H4 & H5 & H6); [discriminate| |].
    { apply Forall_app. split; [exact Hps|]. constructor; [|constructor].
      rewrite length_app. simpl. destruct c; [congruence|simpl; lia]. }
    split; [exact H1|]. split; [exact H2|].
    split; [rewrite H3, length_app; simpl; lia|].
    split; [discriminate|]. split.
    + intros _. destruct ints as [|j ints]; [now destruct (H4 eq_refl) as [-> _]|].
      apply H5. discriminate.
    + rewrite H6. destruct ps as [|p ps]; [|reflexivity].
      cbn. now apply js_first_app.
Qed.

Lemma segment_meets_cons (tab : Polygon) (tabs : list Polygon) (p0 p1 : Point2d) :
  segment_meets intersect (tab :: tabs) p0 p1
  = (length (intersect p0 p1 tab) + segment_meets intersect tabs p0 p1)%nat.
Proof. reflexivity. Qed.

Lemma walk_meets_no_tabs (pts : list Point2d) :
  forall p0, walk_meets intersect [] p0 pts = 0%nat.
Proof.
  induction pts as [|q pts IH]; intros p0; [reflexivity|].
  cbn [walk_meets]. destruct (moved q p0); [|apply IH].
  unfold segment_meets. simpl. apply IH.
Qed.

Lemma walk_meets_no_stops (tabs : list Polygon) (pts : list Point2d) :
  forall p0, stops p0 pts = [] -> walk_meets intersect tabs p0 pts = 0%nat.
Proof.
  induction pts as [|q pts IH]; intros p0 Hs; [reflexivity|].
  cbn [walk_meets stops] in *. destruct (moved q p0); [discriminate|now apply IH].
Qed.

Lemma flat_map_repeat_0 (vs : list Point2d) :
  flat_map (fun v => repeat (to_internal v) 0) vs = [].
Proof. induction vs as [|v vs IH]; [reflexivity|exact IH]. Qed.

Lemma first_of_chain_push (c : Path) (ps : Paths) (v : JsPoint) :
  c <> [] -> js_first (hd (c ++ [v]) ps) = js_first (hd c ps).
Proof. intros Hc. destruct ps; [now apply js_first_app|reflexivity]. Qed.

Lemma chained_push (c : Path) (ps : Paths) (v : JsPoint) :
  c <> [] -> chained (ps ++ [c]) -> chained (ps ++ [c ++ [v]]).
Proof. intros Hc. apply chained_change_last. symmetry. now apply js_first_app. Qed.

(** What the loop over the tab polygons does for one segment. *)
Lemma each_tab_facts (p0 p1 : Point2d) (ip1 : JsPoint) (tabs : list Polygon) :
  forall (c : Path) (ps : Paths),
    c <> [] -> Forall (fun c => (2 <= length c)%nat) ps ->
    let '(c', ps') := each_tab intersect distance p0 p1 ip1 tabs c ps in
    c' <> []
    /\ Forall (fun c => (2 <= length c)%nat) ps'
    /\ length ps' = (length ps + segment_meets intersect tabs p0 p1)%nat
    /\ (tabs <> [] -> (2 <= length c')%nat)
    /\ (segment_meets intersect tabs p0 p1 = 0%nat ->
        c' = c ++ repeat ip1 (length tabs) /\ ps' = ps)
    /\ js_first (hd c' ps') = js_first (hd c ps)
    /\ (chained (ps ++ [c]) -> chained (ps' ++ [c'])).
Proof.
  induction tabs as [|tab tabs IH]; intros c ps Hc Hps; cbn [each_tab].
  - unfold segment_meets. simpl. rewrite app_nil_r, Nat.add_0_r.
    repeat split; auto; congruence.
  - rewrite segment_meets_cons.
    destruct (intersect p0 p1 tab) as [|i ints] eqn:E.
    + cbn [length Nat.ltb Nat.leb Nat.add].
      specialize (IH (c ++ [ip1]) ps).
      destruct (each_tab intersect distance p0 p1 ip1 tabs (c ++ [ip1]) ps) as [c' ps'].
      destruct IH as (H1 & H2 & H3 & H4 & H5 & H6 & H7); [now destruct c|exact Hps|].
      split; [exact H1|]. split; [exact H2|]. split; [rewrite H3; simpl; lia|].
      split; [|split; [|split]].
      * intros _. destruct tabs as [|t tabs]; [|apply H4; discriminate].
        cbn in H5. destruct (H5 eq_refl) as [-> _].
        rewrite app_nil_r, length_app. simpl. destruct c; [congruence|simpl; lia].
      * simpl. intros Hz. destruct (H5 Hz) as [-> ->].
        rewrite <- app_assoc. now split.
      * rewrite H6. now apply first_of_chain_push.
      * intros Hch. apply H7. now apply chained_push.
    + replace (0 <? length (i :: ints))%nat with true by reflexivity.
      pose proof (split_at_lengths (sort_by (fun a => distance a p0) (i :: ints)) c ps Hc Hps)
        as Hs.
      pose proof (split_at_facts (sort_by (fun a => distance a p0) (i :: ints)) c ps Hc)
        as Hf.
      destruct (split_at _ c ps) as [c1 ps1].
      destruct Hs as (S1 & S2 & S3 & _ & _ & S6).
      destruct Hf as (_ & _ & _ & F4 & _).
      rewrite (Permutation_length (sort_by_perm _ _ (i :: ints))) in S3.
      specialize (IH (c1 ++ [ip1]) ps1).
      destruct (each_tab intersect distance p0 p1 ip1 tabs (c1 ++ [ip1]) ps1) as [c' ps'].
      destruct IH as (H1 & H2 & H3 & H4 & H5 & H6 & H7); [now destruct c1|exact S2|].
      split; [exact H1|]. split; [exact H2|].
      split; [rewrite H3, S3; simpl; lia|].
      split; [|split; [simpl; discriminate|split]].
      * intros _. destruct tabs as [|t tabs]; [|apply H4; discriminate].
        cbn in H5. destruct (H5 eq_refl) as [-> _].
        rewrite app_nil_r, length_app. simpl. destruct c1; [congruence|simpl; lia].
      * rewrite H6, first_of_chain_push by exact S1. exact S6.
      * intros Hch. apply H7. apply chained_push; [exact S1|]. now apply F4.
Qed.

(** What the walk along a path of points does. *)
Lemma walk_facts (tabs : list Polygon) (pts : list Point2d) :
  forall (p0 : Point2d) (c : Path) (ps : Paths),
    c <> [] -> Forall (fun c => (2 <= length c)%nat) ps ->
    exists c' ps',
      walk intersect distance tabs (map to_internal pts) (to_internal p0) p0 c ps
      = Normal (c', ps')
      /\ c' <> []
      /\ Forall (fun c => (2 <= length c)%nat) ps'
      /\ length ps' = (length ps + walk_meets intersect tabs p0 pts)%nat
      /\ (tabs <> [] -> stops p0 pts <> [] -> (2 <= length c')%nat)
      /\ (walk_meets intersect tabs p0 pts = 0%nat ->
          c' = c ++ flat_map (fun v => repeat (to_internal v) (length tabs)) (stops p0 pts)
          /\ ps' = ps)
      /\ js_first (hd c' ps') = js_first (hd c ps)
      /\ (chained (ps ++ [c]) -> chained (ps' ++ [c'])).
Proof.
  induction pts as [|p1 pts IH]; intros p0 c ps Hc Hps;
    cbn [map walk walk_meets stops].
  - exists c, ps. rewrite app_nil_r, Nat.add_0_r. repeat split; auto; congruence.
  - rewrite differs_to_internal. cbn [bind].
    destruct (moved p1 p0); [|now apply IH].
    rewrite new_Point_to_internal. cbn [bind].
    pose proof (each_tab_facts p0 p1 (to_internal p1) tabs c ps Hc Hps) as He.
    destruct (each_tab intersect distance p0 p1 (to_internal p1) tabs c ps) as [c1 ps1].
    destruct He as (E1 & E2 & E3 & E4 & E5 & E6 & E7).
    destruct (IH p1 c1 ps1 E1 E2) as (c' & ps' & W0 & W1 & W2 & W3 & W4 & W5 & W6 & W7).
    exists c', ps'. split; [exact W0|]. split; [exact W1|]. split; [exact W2|].
    split; [rewrite W3, E3; lia|]. split; [|split; [|split]].
    + intros Ht _. destruct (stops p1 pts) as [|v vs] eqn:Es; [|apply W4; [exact Ht|discriminate]].
      assert (Hz : walk_meets intersect tabs p1 pts = 0%nat) by now apply walk_meets_no_stops.
      destruct (W5 Hz) as [-> _]. cbn [flat_map]. rewrite app_nil_r. now apply E4.
    + intros Hz. cbn [flat_map].
      destruct (E5 ltac:(lia)) as [-> ->]. destruct (W5 ltac:(lia)) as [-> ->].
      rewrite <- app_assoc. now split.
    + now rewrite W6.
    + intros Hch. apply W7. now apply E7.
Qed.

(** X8. Without tab polygons nothing is returned: no vertex is ever pushed,
    so the only sub-path stays one vertex long and is dropped. *)
Theorem separateTabs_no_tabs (front : list Point2d) (start : Point2d) :
  separateTabs contains intersect distance (map to_internal (front ++ [start])) [] = Normal [].
Proof.
  unfold separateTabs. cbn [mapM bind].
  rewrite js_last_to_internal, new_Point_to_internal. cbn [bind existsb].
  destruct (walk_facts [] (front ++ [start]) start [to_internal start] [])
    as (c' & ps' & W0 & _ & _ & _ & _ & W5 & _ & _); [discriminate|constructor|].
  rewrite W0. cbn [bind].
  destruct (W5 (walk_meets_no_tabs _ _)) as [-> ->].
  cbn [length]. now rewrite flat_map_repeat_0.
Qed.

(** X9. For any tab polygons and a walk that starts outside them all, every
    sub-path returned has at least two vertices, and there is one sub-path
    more than the segments walked meet tab boundaries: each meeting point
    ends one sub-path and starts the next. The sub-paths form a chain, each
    starting at the vertex where the one before ends, and the first of them
    starts at the last vertex of the tool path. Nothing is returned when
    there is no tab polygon or no vertex differs from the last one. *)
Theorem separateTabs_subpaths (tabs : list Polygon) (front : list Point2d) (start : Point2d) :
  existsb (fun tab => contains tab start) tabs = false ->
  exists out,
    separateTabs contains intersect distance
                 (map to_internal (front ++ [start])) (map (map to_internal) tabs)
    = Normal out
    /\ Forall (fun c => (2 <= length c)%nat) out
    /\ length out = match tabs, stops start (front ++ [start]) with
                    | _ :: _, _ :: _ => S (walk_meets intersect tabs start (front ++ [start]))
                    | _, _ => 0%nat
                    end
    /\ chained out
    /\ match out with
       | [] => True
       | first :: _ => js_first first = to_internal start
       end.
Proof.
  intros Hout. unfold separateTabs. rewrite mapM_polygons. cbn [bind].
  rewrite js_last_to_internal, new_Point_to_internal. cbn [bind]. rewrite Hout.
  destruct (walk_facts tabs (front ++ [start]) start [to_internal start] [])
    as (c' & ps' & W0 & W1 & W2 & W3 & W4 & W5 & W6 & W7); [discriminate|constructor|].
  rewrite W0. cbn [bind].
  assert (Hidle : tabs = [] \/ stops start (front ++ [start]) = [] ->
                  c' = [to_internal start] /\ ps' = []).
  { intros Hi.
    assert (Hz : walk_meets intersect tabs start (front ++ [start]) = 0%nat).
    { destruct Hi as [-> | Hs]; [apply walk_meets_no_tabs|now apply walk_meets_no_stops]. }
    destruct (W5 Hz) as [-> ->]. split; [|reflexivity].
    destruct Hi as [-> | ->]; [|reflexivity].
    cbn [length]. now rewrite flat_map_repeat_0. }
  destruct tabs as [|tab tabs].
  { destruct Hidle as [-> ->]; [now left|]. exists []. repeat split. constructor. }
  destruct (stops start (front ++ [start])) as [|v vs] eqn:Es.
  { destruct Hidle as [-> ->]; [now right|]. exists []. repeat split. constructor. }
  assert (L : (2 <= length c')%nat) by (apply W4; discriminate).
  replace (1 <? length c')%nat with true by (symmetry; apply Nat.ltb_lt; lia).
  exists (ps' ++ [c']). split; [reflexivity|]. split; [|split; [|split]].
  - apply Forall_app. split; [exact W2|]. now constructor.
  - rewrite length_app, W3. simpl. lia.
  - now apply W7.
  - cbn in W6. destruct ps' as [|p ps']; exact W6.
Qed.

(** X10. When no segment walked meets a tab boundary, the path comes back as
    one sub-path: the last vertex, then every vertex the walk moves to, each
    as many times as there are tab polygons. *)
Theorem separateTabs_untouched (tabs : list Polygon) (front : list Point2d) (start : Point2d) :
  existsb (fun tab => contains tab start) tabs = false ->
  walk_meets intersect tabs start (front ++ [start]) = 0%nat ->
  separateTabs contains intersect distance
               (map to_internal (front ++ [start])) (map (map to_internal) tabs)
  = Normal (let whole := to_internal start
                         :: flat_map (fun v => repeat (to_internal v) (length tabs))
                                     (stops start (front ++ [start])) in
            if (1 <? length whole)%nat then [whole] else []).
Proof.
  intros Hout Hz. unfold separateTabs. rewrite mapM_polygons. cbn [bind].
  rewrite js_last_to_internal, new_Point_to_internal. cbn [bind]. rewrite Hout.
  destruct (walk_facts tabs (front ++ [start]) start [to_internal start] [])
    as (c' & ps' & W0 & _ & _ & _ & _ & W5 & _ & _); [discriminate|constructor|].
  rewrite W0. cbn [bind]. destruct (W5 Hz) as [-> ->]. cbn [app].
  now destruct (1 <? _)%nat.
Qed.

End TabWalkFacts.

Lemma separateTabs_without_last_vertex_witness :
  separateTabs Sample.contains Sample.intersect Sample.distance2 [] [Sample.tab_S4]
  = Throw TypeError.
Proof.
  apply (separateTabs_without_last_vertex Sample.contains Sample.intersect Sample.distance2
           [] [Sample.tab_S4]).
  reflexivity.
Defined.

Lemma separateTabs_subpaths_witness :
  exists out,
    separateTabs Sample.contains Sample.intersect Sample.distance2
      (map to_internal ([{| x := 0; y := 0 |}] ++ [{| x := 10; y := 0 |}]))
      (map (map to_internal) [Trial.tab_near; Trial.tab_far])
    = Normal out
    /\ Forall (fun c => (2 <= length c)%nat) out
    /\ length out = 5%nat.
Proof.
  destruct (separateTabs_subpaths Sample.contains Sample.intersect Sample.distance2
              [Trial.tab_near; Trial.tab_far] [{| x := 0; y := 0 |}] {| x := 10; y := 0 |})
    as (out & Hrun & Hlen & Hcount & _).
  - vm_compute. reflexivity.
  - exists out. split; [exact Hrun|]. split; [exact Hlen|].
    rewrite Hcount. vm_compute. reflexivity.
Defined.

Lemma separateTabs_untouched_witness :
  separateTabs Sample.contains Sample.intersect Sample.distance2
    (map to_internal ([{| x := 0; y := 5 |}] ++ [{| x := 10; y := 5 |}]))
    (map (map to_internal) [Trial.tab_near; Trial.tab_far])
  = Normal [[Pt 10 5; Pt 0 5; Pt 0 5; Pt 10 5; Pt 10 5]].
Proof.
  rewrite (separateTabs_untouched Sample.contains Sample.intersect Sample.distance2
             [Trial.tab_near; Trial.tab_far] [{| x := 0; y := 5 |}] {| x := 10; y := 5 |});
    vm_compute; reflexivity.
Defined.

(** ** The work origin *)

(** X11. The offset of the work origin. For [Bounding box] it is the left
    edge of the tool-path box and twice the page bottom less the box bottom,
    plus the extra offsets: the left edge of the page plays no part. For
    [Centre] half the width and half the height of the box come on top. Any
    other origin, [SVG page] included, gives the lower left corner of the
    page plus the extra offsets. *)
Theorem origin_offset_cases (origin : string) (svgBB tpBB : BBox) (extraOffsetX extraOffsetY : Q) :
  let ox := fst (origin_offset origin svgBB tpBB extraOffsetX extraOffsetY) in
  let oy := snd (origin_offset origin svgBB tpBB extraOffsetX extraOffsetY) in
  (origin = "Bounding box"%string ->
   ox == bb_left tpBB + extraOffsetX
   /\ oy == 2 * bb_bottom svgBB - bb_bottom tpBB + extraOffsetY)
  /\ (origin = "Centre"%string ->
      ox == bb_left tpBB + bb_width tpBB / 2 + extraOffsetX
      /\ oy == 2 * bb_bottom svgBB - bb_bottom tpBB + bb_height tpBB / 2 + extraOffsetY)
  /\ (origin <> "Bounding box"%string -> origin <> "Centre"%string ->
      ox = bb_left svgBB + extraOffsetX /\ oy = bb_bottom svgBB + extraOffsetY).
Proof.
  cbv zeta. unfold origin_offset. split; [|split].
  - intros ->. cbn. split; field.
  - intros ->. cbn. split; field.
  - intros H1 H2.
    apply String.eqb_neq in H1, H2. rewrite H1, H2. cbn. auto.
Qed.

(** ** generateGcode, the revision that writes the postamble itself:
    units, arguments, alerts, saving *)
Section InlineCallFacts.

Import Inline InlineCalls.

Variable Gcode_generate : GenerateArgs -> list string.
Variable InternalPaths_offset : Paths -> Q -> Paths.
Variable InternalPaths_clip_union : Paths -> Paths -> Paths.
Variable internal_to : string -> Q.
Variable Number_toString : Q -> string.
Variable Number_toFixed2 : Q -> string.

(** The lines and the alerts of one operation, by header and call. *)
Lemma operation_lines_split (i : Inputs) (op : Operation) :
  operation_lines Gcode_generate internal_to Number_toString
    (units i) (clamped (tool_passDepth i)) (plungeRate i) (rapidRate i) (cutRate i)
    (zSafeMove i) (topZ i) (topZ i - maxCutDepth i)
    (fst (origin_offset (origin i) (svgBB i) (tpBB i) (extraOffsetX i) (extraOffsetY i)))
    (snd (origin_offset (origin i) (svgBB i) (tpBB i) (extraOffsetX i) (extraOffsetY i)))
    (build_tabGeometry InternalPaths_offset InternalPaths_clip_union (diameter i) (tabs i)) op
  = (operation_header Number_toString i op
     ++ Gcode_generate (operation_args InternalPaths_offset InternalPaths_clip_union
                                       internal_to i op),
     if js_lt (cutDepth op) 0 then [mkAlert "cutDepthTooSmall" "alert-warning" []] else []).
Proof.
  unfold operation_lines, operation_header, operation_args, clamped.
  now destruct (js_lt (cutDepth op) 0).
Qed.

(** What a run that gets past the units leaves behind. *)
Lemma generateGcode_state (i : Inputs) (s : ViewState) (unit_line : string) :
  allowGen i = true -> enabled_ops (operations i) <> [] ->
  unit_directive (units i) = Normal unit_line ->
  generateGcode Gcode_generate InternalPaths_offset InternalPaths_clip_union
                internal_to Number_toString Number_toFixed2 i s
  = Returns
      {| gcode := join_lines
                    (preamble Number_toString Number_toFixed2 i unit_line
                       (fst (origin_offset (origin i) (svgBB i) (tpBB i)
                                           (extraOffsetX i) (extraOffsetY i)))
                       (snd (origin_offset (origin i) (svgBB i) (tpBB i)
                                           (extraOffsetX i) (extraOffsetY i)))
                     ++ flat_map
                          (fun op =>
                             operation_header Number_toString i op
                             ++ Gcode_generate
                                  (operation_args InternalPaths_offset InternalPaths_clip_union
                                                  internal_to i op))
                          (enabled_ops (operations i))
                     ++ postamble Number_toString (returnTo00 i) (rapidRate i));
         alerts := alerts s
                   ++ (if js_lt (tool_passDepth i) 0
                       then [mkAlert "passDepthTooSmall" "alert-warning" [tool_passDepth i]]
                       else [])
                   ++ flat_map (fun op => if js_lt (cutDepth op) 0
                                          then [mkAlert "cutDepthTooSmall" "alert-warning" []]
                                          else [])
                               (enabled_ops (operations i));
         events := events s ++ ["UPDATE_SIMULATION"%string];
         tutorial := tutorial s ++ [5%nat] |}.
Proof.
  intros Hallow Hops Hunit. unfold generateGcode. rewrite Hallow. cbn [negb].
  destruct (enabled_ops (operations i)) as [|op0 ops0] eqn:E; [congruence|].
  cbn [length Nat.eqb]. rewrite <- E. clear E op0 ops0 Hops.
  rewrite Hunit.
  pose proof (operation_lines_split i) as Hsplit. unfold clamped in Hsplit.
  destruct (origin_offset _ _ _ _ _) as [ox oy]. cbn [fst snd] in *.
  destruct (js_lt (tool_passDepth i) 0); rewrite fold_operation_lines;
    rewrite (List.flat_map_ext _ _ (fun op => f_equal fst (Hsplit op)));
    rewrite (List.flat_map_ext _ _ (fun op => f_equal snd (Hsplit op)));
    cbn [fst snd alerts events tutorial gcode app]; now rewrite <- !app_assoc.
Qed.

(** What a run that meets units it does not know leaves behind. *)
Lemma generateGcode_throws (i : Inputs) (s : ViewState) (e : JsError) :
  allowGen i = true -> enabled_ops (operations i) <> [] ->
  unit_directive (units i) = Throw e ->
  exists s',
    generateGcode Gcode_generate InternalPaths_offset InternalPaths_clip_union
                  internal_to Number_toString Number_toFixed2 i s
    = Throws e s'
    /\ gcode s' = gcode s /\ events s' = events s /\ tutorial s' = tutorial s.
Proof.
  intros Hallow Hops Hunit. unfold generateGcode. rewrite Hallow. cbn [negb].
  destruct (enabled_ops (operations i)) as [|op0 ops0] eqn:E; [congruence|].
  cbn [length Nat.eqb]. rewrite Hunit.
  destruct (origin_offset _ _ _ _ _) as [ox oy].
  destruct (js_lt (tool_passDepth i) 0); eexists; (split; [reflexivity|]); auto.
Qed.

Lemma unit_directive_cases (gunits : string) :
  (gunits = "inch"%string /\ unit_directive gunits = Normal "G20 ; Set units to inches"%string)
  \/ (gunits = "mm"%string /\ unit_directive gunits = Normal "G21 ; Set units to mm"%string)
  \/ (gunits <> "inch"%string /\ gunits <> "mm"%string
      /\ unit_directive gunits
         = Throw (Error (gunits ++ " units not supported by gcode")%string)).
Proof.
  unfold unit_directive.
  destruct (String.eqb gunits "inch") eqn:E1.
  { apply String.eqb_eq in E1. now left. }
  destruct (String.eqb gunits "mm") eqn:E2.
  { apply String.eqb_eq in E2. right. now left. }
  apply String.eqb_neq in E1, E2. right. right. auto.
Qed.

Lemma generateGcode_returned (i : Inputs) (s s' : ViewState) :
  allowGen i = true -> enabled_ops (operations i) <> [] ->
  generateGcode Gcode_generate InternalPaths_offset InternalPaths_clip_union
                internal_to Number_toString Number_toFixed2 i s = Returns s' ->
  exists unit_line, unit_directive (units i) = Normal unit_line.
Proof.
  intros Hallow Hops Hrun.
  destruct (unit_directive (units i)) as [l|e] eqn:E; [now exists l|].
  destruct (generateGcode_throws i s e Hallow Hops E) as (s1 & H1 & _).
  rewrite H1 in Hrun. discriminate.
Qed.

(** The array of lines of a run that gets past the units is the one
    [emitted_lines] describes. *)
Lemma emitted_lines_parts (i : Inputs) (unit_line : string) :
  emitted_lines Gcode_generate InternalPaths_offset InternalPaths_clip_union
                internal_to Number_toString Number_toFixed2 i unit_line
  = preamble Number_toString Number_toFixed2 i unit_line
      (fst (origin_offset (origin i) (svgBB i) (tpBB i) (extraOffsetX i) (extraOffsetY i)))
      (snd (origin_offset (origin i) (svgBB i) (tpBB i) (extraOffsetX i) (extraOffsetY i)))
    ++ flat_map
         (fun op =>
            operation_header Number_toString i op
            ++ Gcode_generate
                 (operation_args InternalPaths_offset InternalPaths_clip_union internal_to i op))
         (enabled_ops (operations i))
    ++ postamble Number_toString (returnTo00 i) (rapidRate i).
Proof.
  unfold emitted_lines, operation_blocks.
  pose proof (operation_lines_split i) as Hsplit. unfold clamped in Hsplit.
  destruct (origin_offset _ _ _ _ _) as [ox oy]. cbn [fst snd] in *.
  now rewrite (List.flat_map_ext _ _ (fun op => f_equal fst (Hsplit op))).
Qed.

(** X12. The units of the G-code. A run with an operation to generate writes
    the lines of [emitted_lines], whose third line is [G20 ; Set units to
    inches] for inch and [G21 ; Set units to mm] for mm. For any other unit
    it throws [<unit> units not supported by gcode] and leaves the G-code as
    it was, dispatches no event and does not move the tutorial on. *)
Theorem generateGcode_units (i : Inputs) (s : ViewState) :
  allowGen i = true -> enabled_ops (operations i) <> [] ->
  match generateGcode Gcode_generate InternalPaths_offset InternalPaths_clip_union
                      internal_to Number_toString Number_toFixed2 i s with
  | Returns s' =>
      exists unit_line,
        gcode s'
        = join_lines (emitted_lines Gcode_generate InternalPaths_offset InternalPaths_clip_union
                                    internal_to Number_toString Number_toFixed2 i unit_line)
        /\ nth_error (emitted_lines Gcode_generate InternalPaths_offset InternalPaths_clip_union
                                    internal_to Number_toString Number_toFixed2 i unit_line) 2
           = Some unit_line
        /\ ((units i = "inch"%string /\ unit_line = "G20 ; Set units to inches"%string)
            \/ (units i = "mm"%string /\ unit_line = "G21 ; Set units to mm"%string))
  | Throws e s' =>
      units i <> "inch"%string /\ units i <> "mm"%string
      /\ e = Error (units i ++ " units not supported by gcode")%string
      /\ gcode s' = gcode s /\ events s' = events s /\ tutorial s' = tutorial s
  end.
Proof.
  intros Hallow Hops.
  destruct (unit_directive_cases (units i)) as [[Hu E]|[[Hu E]|(Hu1 & Hu2 & E)]].
  - rewrite (generateGcode_state i s _ Hallow Hops E).
    eexists. rewrite emitted_lines_parts. split; [reflexivity|].
    split; [reflexivity|]. left. split; [exact Hu|reflexivity].
  - rewrite (generateGcode_state i s _ Hallow Hops E).
    eexists. rewrite emitted_lines_parts. split; [reflexivity|].
    split; [reflexivity|]. right. split; [exact Hu|reflexivity].
  - destruct (generateGcode_throws i s _ Hallow Hops E) as (s' & -> & H1 & H2 & H3).
    repeat split; assumption.
Qed.

Lemma clamped_nonneg (depth : Q) : 0 <= clamped depth.
Proof.
  unfold clamped. destruct (js_lt depth 0) eqn:E; [lra|].
  now apply js_lt_false_iff in E.
Qed.

(** X13. What [Gcode.generate] is called with. A run that returns has
    written the preamble, then for every enabled operation with tool paths
    its eight header lines and what [Gcode.generate] returns for the
    arguments of [operation_args], then the postamble. In these arguments
    the pass depth is never negative, the bottom is never above the top,
    there is at least one tool path, and for Perforate the pass depth is the
    whole depth of the cut. *)
Theorem generate_arguments (i : Inputs) (s s' : ViewState) :
  allowGen i = true -> enabled_ops (operations i) <> [] ->
  generateGcode Gcode_generate InternalPaths_offset InternalPaths_clip_union
                internal_to Number_toString Number_toFixed2 i s = Returns s' ->
  (exists unit_line,
      gcode s'
      = join_lines
          (preamble Number_toString Number_toFixed2 i unit_line
             (fst (origin_offset (origin i) (svgBB i) (tpBB i) (extraOffsetX i) (extraOffsetY i)))
             (snd (origin_offset (origin i) (svgBB i) (tpBB i) (extraOffsetX i) (extraOffsetY i)))
           ++ flat_map
                (fun op =>
                   operation_header Number_toString i op
                   ++ Gcode_generate
                        (operation_args InternalPaths_offset InternalPaths_clip_union
                                        internal_to i op))
                (enabled_ops (operations i))
           ++ postamble Number_toString (returnTo00 i) (rapidRate i)))
  /\ Forall (fun op =>
               let a := operation_args InternalPaths_offset InternalPaths_clip_union
                                       internal_to i op in
               0 <= g_passDepth a
               /\ g_botZ a <= g_topZ a
               /\ g_paths a <> []
               /\ (operation op = "Perforate"%string -> g_passDepth a == g_topZ a - g_botZ a))
            (enabled_ops (operations i)).
Proof.
  intros Hallow Hops Hrun. split.
  - destruct (generateGcode_returned i s s' Hallow Hops Hrun) as [unit_line Hunit].
    rewrite (generateGcode_state i s unit_line Hallow Hops Hunit) in Hrun.
    injection Hrun as <-. now exists unit_line.
  - apply List.Forall_forall. intros op Hop. cbv zeta.
    unfold operation_args. cbn [g_passDepth g_botZ g_topZ g_paths].
    pose proof (clamped_nonneg (cutDepth op)) as Hc.
    pose proof (clamped_nonneg (tool_passDepth i)) as Hp.
    split; [destruct (String.eqb (operation op) "Perforate"); assumption|].
    split; [lra|]. split.
    + apply filter_In in Hop as [_ Hop]. apply andb_true_iff in Hop as [_ Hop].
      unfold has_paths in Hop. now destruct (toolPaths op) as [[|tp tps]|].
    + intros E. rewrite E. cbn. ring.
Qed.

Lemma flat_map_alerts {A : Type} (P : A -> bool) (a : Alert) (l : list A) :
  flat_map (fun v => if P v then [a] else []) l = repeat a (length (List.filter P l)).
Proof.
  induction l as [|v l IH]; [reflexivity|].
  cbn [flat_map List.filter]. destruct (P v); cbn; now rewrite IH.
Qed.

(** X14. The warnings of a run that returns: [passDepthTooSmall], with the
    pass depth, if the pass depth is below 0; then [cutDepthTooSmall] once
    for every enabled operation with tool paths whose cut depth is below 0;
    nothing else, and nothing for the other operations. *)
Theorem generateGcode_alerts (i : Inputs) (s s' : ViewState) :
  allowGen i = true -> enabled_ops (operations i) <> [] ->
  generateGcode Gcode_generate InternalPaths_offset InternalPaths_clip_union
                internal_to Number_toString Number_toFixed2 i s = Returns s' ->
  alerts s'
  = alerts s
    ++ (if js_lt (tool_passDepth i) 0
        then [mkAlert "passDepthTooSmall" "alert-warning" [tool_passDepth i]] else [])
    ++ repeat (mkAlert "cutDepthTooSmall" "alert-warning" [])
              (length (List.filter (fun op => js_lt (cutDepth op) 0)
                                   (enabled_ops (operations i)))).
Proof.
  intros Hallow Hops Hrun.
  destruct (generateGcode_returned i s s' Hallow Hops Hrun) as [unit_line Hunit].
  rewrite (generateGcode_state i s unit_line Hallow Hops Hunit) in Hrun.
  injection Hrun as <-. cbn [alerts]. now rewrite flat_map_alerts.
Qed.

Lemma join_lines_not_empty (c : Ascii.ascii) (first : string) (others : list string) :
  join_lines (String c first :: others) <> EmptyString.
Proof. unfold join_lines. destruct others; cbn; discriminate. Qed.

(** X15. After a run that returns with an operation to generate there is
    G-code, and saving it hides the modals and writes the G-code, as it is,
    to the file named by [gcodeFilename]; the alert that asks to generate
    first is not shown. *)
Theorem saveGcodeInFile_after_generateGcode (i : Inputs) (s s' : ViewState)
        (gcodeFilename : string) :
  allowGen i = true -> enabled_ops (operations i) <> [] ->
  generateGcode Gcode_generate InternalPaths_offset InternalPaths_clip_union
                internal_to Number_toString Number_toFixed2 i s = Returns s' ->
  haveGcode s' = true
  /\ saveGcodeInFile gcodeFilename s' = [HideModals; SaveAs (gcode s') gcodeFilename].
Proof.
  intros Hallow Hops Hrun.
  destruct (generateGcode_returned i s s' Hallow Hops Hrun) as [unit_line Hunit].
  rewrite (generateGcode_state i s unit_line Hallow Hops Hunit) in Hrun.
  injection Hrun as <-. unfold haveGcode, saveGcodeInFile. cbn [gcode].
  unfold preamble. cbn [app].
  match goal with
  | |- context [String.eqb (join_lines (?l :: ?ls)) ""] =>
      assert (E : String.eqb (join_lines (l :: ls)) "" = false)
  end.
  { apply String.eqb_neq. apply join_lines_not_empty. }
  rewrite E. split; reflexivity.
Qed.

End InlineCallFacts.

(** ** generateGcode, the revision that drives a generator: what
    matters of the inputs, the cards, saving *)
Section GeneratorUseFacts.

Import Generator GeneratorUse.

Variable G : Type.
Variable Generator_new : JobOptions -> G.
Variable Generator_addOperation : OpCard -> Job G -> Job G.
Variable Generator_end : Job G -> list string.
Variable CutPaths_offset : Paths -> Q -> Paths.
Variable CutPaths_union : Paths -> Paths -> Paths.
Variable integer_to : string -> Q.

Lemma filter_filter_same {A : Type} (P : A -> bool) (l : list A) :
  List.filter P (List.filter P l) = List.filter P l.
Proof.
  induction l as [|a l IH]; [reflexivity|].
  cbn [List.filter]. destruct (P a) eqn:E; [|exact IH].
  cbn [List.filter]. now rewrite E, IH.
Qed.

Lemma build_tabGeometry_filter (diameter : Q) (tabs : list Tab) :
  build_tabGeometry CutPaths_offset CutPaths_union diameter (List.filter tab_enabled tabs)
  = build_tabGeometry CutPaths_offset CutPaths_union diameter tabs.
Proof.
  unfold build_tabGeometry. generalize (@nil (list JsPoint)).
  induction tabs as [|tab tabs IH]; intros acc; [reflexivity|].
  cbn [List.filter fold_left]. destruct (tab_enabled tab) eqn:E; [|apply IH].
  cbn [fold_left]. rewrite E. apply IH.
Qed.

(** X16. Operations that are disabled or have no tool paths, and tabs that
    are disabled, have no part in generation: without them the call ends in
    the same way and leaves the same state. *)
Theorem generateGcode_enabled_only (i : Inputs) (s : ViewState) :
  generateGcode G Generator_new Generator_addOperation Generator_end
                CutPaths_offset CutPaths_union integer_to (only_enabled i) s
  = generateGcode G Generator_new Generator_addOperation Generator_end
                  CutPaths_offset CutPaths_union integer_to i s.
Proof.
  unfold generateGcode, enabled_ops.
  change (operations (only_enabled i))
    with (List.filter (fun op => enabled op && has_paths op)%bool (operations i)).
  change (allowGen (only_enabled i)) with (allowGen i).
  rewrite filter_filter_same.
  replace (prepare_job G Generator_new CutPaths_offset CutPaths_union integer_to (only_enabled i))
    with (prepare_job G Generator_new CutPaths_offset CutPaths_union integer_to i);
    [reflexivity|].
  unfold prepare_job.
  change (tabs (only_enabled i)) with (List.filter tab_enabled (tabs i)).
  rewrite build_tabGeometry_filter. reflexivity.
Qed.

Lemma opCards_fields (ops : list Operation) :
  forall job : Job G,
    map c_name (opCards G Generator_addOperation ops job) = map name ops
    /\ map c_cutType (opCards G Generator_addOperation ops job) = map operation ops
    /\ map c_paths (opCards G Generator_addOperation ops job)
       = map (fun op => default [] (toolPaths op)) ops.
Proof.
  induction ops as [|op ops IH]; intros job; [repeat split|].
  cbn [opCards map].
  destruct (IH (Generator_addOperation
                  (fst (make_opCard (passDepth (options G job)) op)) job)) as (H1 & H2 & H3).
  rewrite H1, H2, H3. unfold make_opCard.
  destruct (js_lt _ 0); repeat split.
Qed.

(** X17. The cards of a run. With an operation to generate, the generator is
    given one card for every enabled operation with tool paths, in the order
    of the operations list, carrying the operation's name, kind and tool
    paths; no card comes without a tool path; and what [job.end()] returns
    after these cards is stored as the G-code. *)
Theorem generateGcode_cards (i : Inputs) (s : ViewState) :
  allowGen i = true -> enabled_ops (operations i) <> [] ->
  let job := fst (prepare_job G Generator_new CutPaths_offset CutPaths_union integer_to i) in
  let cards := opCards G Generator_addOperation (enabled_ops (operations i)) job in
  exists s',
    generateGcode G Generator_new Generator_addOperation Generator_end
                  CutPaths_offset CutPaths_union integer_to i s = Returns s'
    /\ gcode s'
       = Generator_end
           (fold_left (fun job opCard => Generator_addOperation opCard job) cards job)
    /\ map c_name cards = map name (enabled_ops (operations i))
    /\ map c_cutType cards = map operation (enabled_ops (operations i))
    /\ map c_paths cards
       = map (fun op => default [] (toolPaths op)) (enabled_ops (operations i))
    /\ Forall (fun c => c_paths c <> []) cards.
Proof.
  intros Hallow Hops. cbv zeta.
  pose proof (generateGcode_runs_generator G Generator_new Generator_addOperation Generator_end
                CutPaths_offset CutPaths_union integer_to i s Hallow Hops) as Hrun.
  eexists. split; [exact Hrun|]. split; [reflexivity|].
  destruct (opCards_fields (enabled_ops (operations i))
              (fst (prepare_job G Generator_new CutPaths_offset CutPaths_union integer_to i)))
    as (H1 & H2 & H3).
  split; [exact H1|]. split; [exact H2|]. split; [exact H3|].
  apply List.Forall_forall. intros c Hc Hnil.
  apply (in_map c_paths) in Hc. rewrite H3 in Hc.
  apply in_map_iff in Hc as (op & Hop & Hin). rewrite Hnil in Hop.
  apply filter_In in Hin as [_ Hin]. apply andb_true_iff in Hin as [_ Hin].
  unfold has_paths in Hin. destruct (toolPaths op) as [[|tp tps]|]; discriminate.
Qed.

(** X18. What is saved is what is shown. If the text [gcodeS] held the lines
    of [gcode] joined before a call of [generateGcode], it does after it;
    saving then hides the modals and, when there is at least one line,
    writes that text to the file named by [gcodeFilename], and writes
    nothing when there is none. *)
Theorem saveGcodeInFile_saves_gcodeS (i : Inputs) (s : ViewState) (gcodeFilename : string) :
  gcodeS s = join_lines (gcode s) ->
  exists s',
    generateGcode G Generator_new Generator_addOperation Generator_end
                  CutPaths_offset CutPaths_union integer_to i s = Returns s'
    /\ gcodeS s' = join_lines (gcode s')
    /\ saveGcodeInFile gcodeFilename s'
       = HideModals :: match gcode s' with
                       | [] => []
                       | _ :: _ => [SaveAs (gcodeS s') gcodeFilename]
                       end.
Proof.
  intros Hinv.
  destruct (generateGcode_returns G Generator_new Generator_addOperation Generator_end
              CutPaths_offset CutPaths_union integer_to i s) as [s' Hrun].
  exists s'. split; [exact Hrun|].
  assert (Hinv' : gcodeS s' = join_lines (gcode s')).
  { destruct (allowGen i) eqn:Hallow.
    - destruct (enabled_ops (operations i)) as [|op ops] eqn:Hops.
      + rewrite (generateGcode_idle_generator G Generator_new Generator_addOperation
                   Generator_end CutPaths_offset CutPaths_union integer_to i s Hops) in Hrun.
        now injection Hrun as <-.
      + rewrite (generateGcode_runs_generator G Generator_new Generator_addOperation
                   Generator_end CutPaths_offset CutPaths_union integer_to i s Hallow) in Hrun
          by (rewrite Hops; discriminate).
        now injection Hrun as <-.
    - unfold generateGcode in Hrun. rewrite Hallow in Hrun. now injection Hrun as <-. }
  split; [exact Hinv'|].
  unfold saveGcodeInFile, haveGcode. rewrite Hinv'.
  now destruct (gcode s').
Qed.

End GeneratorUseFacts.

(** ** generateGcode, the revision that calls startJob, generateOperation
    and endJob *)
Section StagedFacts.

Import Staged.

Variable Gcode_startJob : JobCard -> list string -> list string.
Variable Gcode_generateOperation : OpCard -> JobCard -> list string -> list string.
Variable Gcode_endJob : JobCard -> list string -> list string.
Variable Clipper_offset : Paths -> Q -> Paths.
Variable Clipper_clip_union : Paths -> Paths -> Paths.
Variable integer_to : string -> Q.
Variable PolyOps_Perforate : string.

Lemma fold_generateOperation (jobCard : JobCard) (ops : list Operation) :
  forall (gcode : list string) (shown : list Alert),
    fold_left (fun '(gcode, shown) op =>
                 let '(opCard, a) := make_opCard PolyOps_Perforate jobCard op in
                 (Gcode_generateOperation opCard jobCard gcode, app shown a))
              ops (gcode, shown)
    = (fold_left (fun gcode opCard => Gcode_generateOperation opCard jobCard gcode)
                 (map (fun op => fst (make_opCard PolyOps_Perforate jobCard op)) ops) gcode,
       shown ++ flat_map (fun op => snd (make_opCard PolyOps_Perforate jobCard op)) ops).
Proof.
  induction ops as [|op ops IH]; intros gcode shown; cbn [fold_left map flat_map].
  - now rewrite app_nil_r.
  - destruct (make_opCard PolyOps_Perforate jobCard op) as [opCard a] eqn:E.
    rewrite IH. cbn [fst snd]. now rewrite <- app_assoc.
Qed.

(** X19. This revision never throws, and without an operation to generate,
    or when generation is locked, it leaves the view model as it was. With
    an operation to generate it calls [Gcode.startJob] on an empty array,
    [Gcode.generateOperation] once for every enabled operation with tool
    paths, in order, and [Gcode.endJob], and stores the lines joined by
    newlines. The job card it passes has a pass depth that is not negative
    and a tab level [maxCutDepth] below the top of the material; no
    operation card has a negative cut depth; a card is marked
    [precalculatedZ] exactly when its operation is [App.PolyOps.Perforate]. *)
Theorem generateGcode_staged (i : Inputs) (s : Inline.ViewState) :
  exists s',
    generateGcode Gcode_startJob Gcode_generateOperation Gcode_endJob
                  Clipper_offset Clipper_clip_union integer_to PolyOps_Perforate i s
    = Returns s'
    /\ (allowGen i = false \/ enabled_ops (operations i) = [] -> s' = s)
    /\ (allowGen i = true -> enabled_ops (operations i) <> [] ->
        let jobCard := fst (job_card Clipper_offset Clipper_clip_union integer_to i) in
        let opCards := map (fun op => fst (make_opCard PolyOps_Perforate jobCard op))
                           (enabled_ops (operations i)) in
        Inline.gcode s'
        = Inline.join_lines
            (Gcode_endJob jobCard
               (fold_left (fun gcode opCard => Gcode_generateOperation opCard jobCard gcode)
                          opCards (Gcode_startJob jobCard [])))
        /\ 0 <= passDepth jobCard
        /\ tabZ jobCard = topZ jobCard - maxCutDepth i
        /\ Forall (fun c => 0 <= c_cutDepth c
                            /\ c_precalculatedZ c = String.eqb (c_cutType c) PolyOps_Perforate)
                  opCards).
Proof.
  unfold generateGcode.
  destruct (allowGen i); cbn [negb];
    [|exists s; split; [reflexivity|split; [reflexivity|discriminate]]].
  destruct (enabled_ops (operations i)) as [|op0 ops0] eqn:E;
    [exists s; split; [reflexivity|split; [reflexivity|congruence]]|].
  cbn [length Nat.eqb]. rewrite <- E.
  assert (Hops : enabled_ops (operations i) <> []) by (rewrite E; discriminate).
  clear E op0 ops0.
  destruct (job_card Clipper_offset Clipper_clip_union integer_to i) as [jobCard shown] eqn:Ej.
  rewrite fold_generateOperation.
  eexists. split; [reflexivity|].
  split; [intros [H|H]; [discriminate H|contradiction]|].
  intros _ _. cbv zeta. cbn [fst Inline.gcode].
  split; [reflexivity|].
  unfold job_card in Ej.
  split; [|split].
  - destruct (js_lt (tool_passDepth i) 0) eqn:Ep; injection Ej as <- _; cbn; [lra|].
    now apply js_lt_false_iff in Ep.
  - destruct (js_lt (tool_passDepth i) 0); injection Ej as <- _; reflexivity.
  - apply List.Forall_forall. intros c Hc. apply in_map_iff in Hc as (op & <- & _).
    unfold make_opCard. cbn [c_cutDepth].
    destruct (js_lt (cutDepth op) 0) eqn:Ec; cbn; split; try reflexivity; [lra|].
    now apply js_lt_false_iff in Ec.
Qed.

End StagedFacts.

(** ** App.showAlert and App.tutorial *)
Section AppFacts.

Import App.

Variable alert_text : string -> option string.
Variable step_text : Z -> option string.
Variable Number_toString : Z -> string.

Lemma scan_text_append (params : list string) (before rest : string) :
  plain before = true ->
  scan params Text (before ++ rest) = (before ++ scan params Text rest)%string.
Proof.
  induction before as [|c before IH]; intros H; [reflexivity|].
  cbn [plain] in H. apply andb_true_iff in H as [Hc H].
  apply negb_true_iff in Hc.
  cbn [append scan]. rewrite Hc. now rewrite IH.
Qed.

(** X20. A message without [$] is shown as it is, whatever the parameters. *)
Theorem expand_plain (template : string) (params : list string) :
  plain template = true -> expand template params = template.
Proof.
  intros H. unfold expand.
  rewrite <- (append_empty template) at 1.
  rewrite scan_text_append by exact H. cbn [scan]. apply append_empty.
Qed.

Lemma scan_index (params : list string) (digits : string) :
  forall (n : nat) (after : string),
    all_digits digits = true -> no_digit_ahead after = true ->
    scan params (Index n) (digits ++ after)
    = (param params (index_of n digits) ++ scan params Text after)%string.
Proof.
  induction digits as [|c digits IH]; intros n after Hd Ha.
  - cbn [append index_of]. destruct after as [|c rest].
    + cbn [scan]. now rewrite append_empty.
    + cbn [no_digit_ahead] in Ha. cbn [scan].
      now destruct (digit c).
  - cbn [all_digits] in Hd. cbn [append scan index_of].
    destruct (digit c) as [d|]; [|discriminate]. cbn [default]. now apply IH.
Qed.

(** X21. A placeholder [$n] is replaced by the n-th parameter, the digits
    read as far as they go, and by the text [undefined] when there is no
    n-th parameter; the text before it, if it has no [$], stays, and the
    text after it is expanded in the same way. *)
Theorem expand_placeholder (before digits after : string) (params : list string) :
  plain before = true -> digits <> EmptyString -> all_digits digits = true ->
  no_digit_ahead after = true ->
  expand (before ++ String dollar digits ++ after) params
  = (before ++ param params (index_of 0 digits) ++ expand after params)%string.
Proof.
  intros Hb Hne Hd Ha. unfold expand.
  rewrite scan_text_append by exact Hb. f_equal.
  destruct digits as [|c digits]; [congruence|].
  cbn [append scan]. change (Ascii.eqb dollar dollar) with true. cbv iota.
  cbn [all_digits] in Hd. cbn [scan index_of].
  destruct (digit c) as [d|]; [|discriminate]. cbn [default].
  rewrite Nat.mul_0_r, Nat.add_0_l. now apply scan_index.
Qed.

Lemma filter_twice {A : Type} (P : A -> bool) (l : list A) :
  List.filter P (List.filter P l) = List.filter P l.
Proof.
  induction l as [|a l IH]; [reflexivity|].
  cbn [List.filter]. destruct (P a) eqn:E; [|exact IH].
  cbn [List.filter]. now rewrite E, IH.
Qed.

(** What one call of [tutorial] does to the current step. *)
Lemma tutorial_step (step : Z) (s : State) :
  ((step <= currentTutorialStep s)%Z -> tutorial alert_text step_text Number_toString step s = s)
  /\ (currentTutorialStep s
      <= currentTutorialStep (tutorial alert_text step_text Number_toString step s))%Z
  /\ (currentTutorialStep (tutorial alert_text step_text Number_toString step s)
      = currentTutorialStep s
      \/ currentTutorialStep (tutorial alert_text step_text Number_toString step s) = step).
Proof.
  unfold tutorial.
  destruct (currentTutorialStep s <? step)%Z eqn:E.
  - apply Z.ltb_lt in E. split; [lia|].
    destruct (step_text step) as [m|]; cbn.
    + split; [lia|now right].
    + destruct (tutorialAlert s); cbn; split; try lia; now left.
  - split; [reflexivity|]. split; [lia|now left].
Qed.

Lemma tutorials_step_grows (steps : list Z) :
  forall s : State,
    (currentTutorialStep s
     <= currentTutorialStep (tutorials alert_text step_text Number_toString steps s))%Z.
Proof.
  induction steps as [|step steps IH]; intros s; [cbn; lia|].
  cbn [tutorials fold_left].
  destruct (tutorial_step step s) as (_ & H & _).
  etransitivity; [exact H|]. apply IH.
Qed.

(** X22. The tutorial does not go backwards: a call for a step that is not
    beyond the current one changes nothing at all, and after any call, or
    any run of calls, the current step is not lower than before; after one
    call it is the one before or the step asked for. *)
Theorem tutorial_never_goes_back (step : Z) (steps : list Z) (s : State) :
  ((step <= currentTutorialStep s)%Z -> tutorial alert_text step_text Number_toString step s = s)
  /\ (currentTutorialStep (tutorial alert_text step_text Number_toString step s)
      = currentTutorialStep s
      \/ currentTutorialStep (tutorial alert_text step_text Number_toString step s) = step)
  /\ (currentTutorialStep s
      <= currentTutorialStep (tutorials alert_text step_text Number_toString steps s))%Z.
Proof.
  destruct (tutorial_step step s) as (H1 & _ & H3).
  split; [exact H1|]. split; [exact H3|]. apply tutorials_step_grows.
Qed.

(** X23. Asking for the same step twice is asking for it once: the second
    call changes nothing, whether the page has a message for the step or
    not. *)
Theorem tutorial_twice (step : Z) (s : State) :
  tutorial alert_text step_text Number_toString step
           (tutorial alert_text step_text Number_toString step s)
  = tutorial alert_text step_text Number_toString step s.
Proof.
  destruct (currentTutorialStep s <? step)%Z eqn:E.
  - destruct (step_text step) as [m|] eqn:Em.
    + apply tutorial_step. unfold tutorial. rewrite E, Em. cbn. lia.
    + assert (Ht : tutorial alert_text step_text Number_toString step s
                   = match tutorialAlert s with
                     | Some r => remove r s
                     | None => s
                     end).
      { unfold tutorial. now rewrite E, Em. }
      rewrite Ht. unfold tutorial. destruct (tutorialAlert s) as [r|] eqn:Er.
      * cbn [remove currentTutorialStep tutorialAlert]. rewrite E, Em.
        unfold remove. cbn [placeholder created tutorialAlert currentTutorialStep].
        rewrite Er. now rewrite filter_twice.
      * rewrite E, Em. now rewrite ?Er.
  - assert (Ht : tutorial alert_text step_text Number_toString step s = s).
    { unfold tutorial. now rewrite E. }
    now rewrite !Ht.
Qed.

(** X24. The tutorial runs through once: when a step has been shown, asking
    for it again changes nothing, whatever steps were asked for in between. *)
Theorem tutorial_runs_once (step : Z) (between : list Z) (s : State) :
  (currentTutorialStep s < step)%Z -> step_text step <> None ->
  let shown := tutorial alert_text step_text Number_toString step s in
  let later := tutorials alert_text step_text Number_toString between shown in
  currentTutorialStep shown = step
  /\ tutorial alert_text step_text Number_toString step later = later.
Proof.
  intros Hlt Htext. cbv zeta.
  assert (Hs : currentTutorialStep (tutorial alert_text step_text Number_toString step s) = step).
  { unfold tutorial. apply Z.ltb_lt in Hlt. rewrite Hlt.
    now destruct (step_text step). }
  split; [exact Hs|].
  apply tutorial_step.
  rewrite <- Hs at 1. apply tutorials_step_grows.
Qed.

(** The state of a run of tutorial calls: no alert, or the one alert
    [tutorialAlert] refers to. *)
Lemma tutorials_invariant (steps : list Z) :
  forall s : State,
    (placeholder s = []
     \/ exists a, placeholder s = [a] /\ tutorialAlert s = Some (ref a)) ->
    let s' := tutorials alert_text step_text Number_toString steps s in
    placeholder s' = []
    \/ exists a, placeholder s' = [a] /\ tutorialAlert s' = Some (ref a).
Proof.
  induction steps as [|step steps IH]; intros s Hs; [exact Hs|].
  cbn [tutorials fold_left]. apply IH. clear IH.
  unfold tutorial. destruct (currentTutorialStep s <? step)%Z; [|exact Hs].
  assert (H1 : placeholder (match tutorialAlert s with
                            | Some r => remove r s
                            | None => s
                            end) = []).
  { destruct Hs as [Hs|(a & Ha & Hr)].
    - destruct (tutorialAlert s); [|exact Hs]. cbn. now rewrite Hs.
    - rewrite Hr. cbn. rewrite Ha. cbn. now rewrite Nat.eqb_refl. }
  destruct (step_text step) as [m|]; [|now left].
  cbn. rewrite H1. right. eexists. split; reflexivity.
Qed.

(** X25. Whatever steps the tutorial is asked for, starting from the
    application as it is constructed, the page never holds more than one
    tutorial alert: the alert of the step before is removed when a new one
    is shown. *)
Theorem tutorial_one_alert (steps : list Z) :
  (length (placeholder (tutorials alert_text step_text Number_toString steps initial)) <= 1)%nat.
Proof.
  destruct (tutorials_invariant steps initial) as [H|(a & H & _)]; [now left| |];
    rewrite H; cbn; lia.
Qed.

End AppFacts.

Lemma expand_plain_witness :
  App.expand "Tabs must be closed paths" ["7"%string] = "Tabs must be closed paths"%string.
Proof. apply (expand_plain "Tabs must be closed paths" ["7"%string]). reflexivity. Defined.

Lemma expand_placeholder_witness :
  App.expand "Pass depth $1 is below 0, and $2 is not given" ["-1"%string]
  = "Pass depth -1 is below 0, and undefined is not given"%string.
Proof.
  exact (expand_placeholder "Pass depth " "1" " is below 0, and $2 is not given" ["-1"%string]
           eq_refl ltac:(discriminate) eq_refl eq_refl).
Defined.

Lemma tutorial_runs_once_witness :
  let page := fun step : Z => if (step =? 4)%Z then None else Some "Do this next"%string in
  let shown := App.tutorial (fun _ => None) page Sample.show_Z 3 App.initial in
  App.currentTutorialStep shown = 3%Z
  /\ App.tutorial (fun _ => None) page Sample.show_Z 3
                  (App.tutorials (fun _ => None) page Sample.show_Z [1; 4; 2]%Z shown)
     = App.tutorials (fun _ => None) page Sample.show_Z [1; 4; 2]%Z shown.
Proof.
  cbv zeta.
  apply (tutorial_runs_once (fun _ => None)
           (fun step : Z => if (step =? 4)%Z then None else Some "Do this next"%string)
           Sample.show_Z 3 [1; 4; 2]%Z App.initial).
  - reflexivity.
  - discriminate.
Defined.

(** ** The selection *)
Section SelectionFacts.

Import Selection.

Variable PathData : Type.
Variable SnapPaths_fromElement : Element -> Completion PathData.

Lemma filter_keeps_all (l : list (SelectedPath PathData)) (r : nat) :
  Forall (fun p => (sp_ref PathData p < r)%nat) l ->
  List.filter (fun p => negb (sp_ref PathData p =? r)%nat) l = l.
Proof.
  induction 1 as [|p l Hp _ IH]; [reflexivity|].
  cbn [List.filter]. replace (sp_ref PathData p =? r)%nat with false.
  - cbn. now rewrite IH.
  - symmetry. apply Nat.eqb_neq. lia.
Qed.

Lemma filter_removes_one (l : list (SelectedPath PathData)) (r : nat) :
  List.NoDup (map (sp_ref PathData) l) -> In r (map (sp_ref PathData) l) ->
  S (length (List.filter (fun p => negb (sp_ref PathData p =? r)%nat) l)) = length l.
Proof.
  induction l as [|p l IH]; intros Hnd Hin; [destruct Hin|].
  cbn [map] in Hnd, Hin. inversion Hnd as [|x xs Hx Hnd']; subst.
  cbn [List.filter length].
  destruct (sp_ref PathData p =? r)%nat eqn:E; cbn [negb].
  - apply Nat.eqb_eq in E. subst r. f_equal.
    clear - Hx. induction l as [|q l IH]; [reflexivity|].
    cbn [map] in Hx. cbn [List.filter].
    destruct (sp_ref PathData q =? sp_ref PathData p)%nat eqn:E; cbn [negb].
    + apply Nat.eqb_eq in E. exfalso. apply Hx. left. exact E.
    + cbn [length]. f_equal. apply IH. intros H. apply Hx. now right.
  - cbn [length]. f_equal. apply IH; [exact Hnd'|].
    destruct Hin as [Hin|Hin]; [|exact Hin].
    apply Nat.eqb_neq in E. congruence.
Qed.

(** X26. The count of the selection is the size of the selection group, and
    that is kept by every click, as long as the class [selectedPath] is
    carried only by the paths of the group: then, after the click, something
    is selected exactly when the group is not empty. *)
Theorem clickOnSvg_keeps_count (elem : Element) (s : State PathData) :
  counted PathData s ->
  (attr_is (el_class elem) "selectedPath" = true ->
   In (el_ref elem) (map (sp_ref PathData) (svgGroup PathData s))) ->
  let s' := snd (clickOnSvg PathData SnapPaths_fromElement elem s) in
  counted PathData s'
  /\ (isSomethingSelected PathData s' = true <-> getSelection PathData s' <> []).
Proof.
  intros (Hn & Hnd & Hlt) Hsel. cbv zeta.
  assert (Hc : counted PathData (snd (clickOnSvg PathData SnapPaths_fromElement elem s))).
  { unfold clickOnSvg.
    destruct (attr_is (el_class elem) "combinedGeometry" || attr_is (el_class elem) "toolPath"
              || attr_is (el_class elem) "tabsGeometry")%bool; [now repeat split|].
    destruct (attr_is (el_class elem) "selectedPath") eqn:Ec.
    - cbn [snd]. unfold counted. cbn [numSelected svgGroup created].
      pose proof (filter_removes_one _ _ Hnd (Hsel eq_refl)) as Hone.
      split; [rewrite Hn; lia|]. split.
      + clear - Hnd. induction (svgGroup PathData s) as [|p l IH]; [constructor|].
        cbn [map] in Hnd. inversion Hnd as [|x xs Hx Hnd']; subst.
        cbn [List.filter]. destruct (negb _); [|now apply IH].
        cbn [map]. constructor; [|now apply IH].
        intros Hin. apply Hx. apply in_map_iff in Hin as (q & Hq & Hin).
        apply filter_In in Hin as [Hin _]. apply in_map_iff. now exists q.
      + apply List.Forall_forall. intros p Hp. apply filter_In in Hp as [Hp _].
        now apply (proj1 (List.Forall_forall _ _) Hlt).
    - destruct (SnapPaths_fromElement elem) as [pd|e]; cbn [snd]; [|now repeat split].
      unfold counted. cbn [numSelected svgGroup created].
      split; [rewrite length_app, Hn; cbn; lia|]. split.
      + rewrite map_app. cbn [map]. apply List.NoDup_app; [exact Hnd| |].
        * repeat constructor. intros [].
        * intros r Hr [<-|[]]. apply in_map_iff in Hr as (q & Hq & Hin).
          apply (proj1 (List.Forall_forall _ _) Hlt) in Hin. cbn in Hq. lia.
      + apply Forall_app. split.
        * apply List.Forall_forall. intros p Hp.
          apply (proj1 (List.Forall_forall _ _) Hlt) in Hp. lia.
        * constructor; [cbn; lia|constructor]. }
  split; [exact Hc|].
  destruct Hc as (Hn' & _ & _). unfold isSomethingSelected, getSelection. rewrite Hn'.
  destruct (svgGroup PathData (snd (clickOnSvg PathData SnapPaths_fromElement elem s)))
    as [|p l].
  - split; intros H; [apply Z.ltb_lt in H; cbn in H; lia|congruence].
  - split; [discriminate|]. intros _. apply Z.ltb_lt. cbn [length]. lia.
Qed.

(** X27. Selecting an element and then clicking the path the selection made
    for it gives back the selection as it was: the same paths in the group
    and the same count. *)
Theorem select_then_deselect (elem : Element) (path : PathData) (s : State PathData) :
  Forall (fun p => (sp_ref PathData p < created PathData s)%nat) (svgGroup PathData s) ->
  (attr_is (el_class elem) "combinedGeometry" || attr_is (el_class elem) "toolPath"
   || attr_is (el_class elem) "tabsGeometry" || attr_is (el_class elem) "selectedPath")%bool
  = false ->
  SnapPaths_fromElement elem = Normal path ->
  let '(handled, s1) := clickOnSvg PathData SnapPaths_fromElement elem s in
  handled = true
  /\ exists made,
      getSelection PathData s1 = getSelection PathData s ++ [made]
      /\ let '(handled2, s2) :=
           clickOnSvg PathData SnapPaths_fromElement (element_of PathData made) s1 in
         handled2 = true
         /\ getSelection PathData s2 = getSelection PathData s
         /\ numSelected PathData s2 = numSelected PathData s.
Proof.
  intros Hlt Hclass Hpath. unfold clickOnSvg at 1.
  apply orb_false_iff in Hclass as [Hclass Hsel]. rewrite Hclass, Hsel, Hpath.
  split; [reflexivity|]. eexists. split; [reflexivity|].
  unfold clickOnSvg, element_of. cbn [el_class el_ref attr_is sp_ref sp_evenodd].
  cbn [String.eqb Ascii.eqb Bool.eqb andb orb]. 
  split; [reflexivity|]. unfold getSelection. cbn [svgGroup numSelected].
  split; [|lia].
  rewrite List.filter_app. cbn [List.filter sp_ref]. rewrite Nat.eqb_refl. cbn [negb].
  rewrite app_nil_r. now apply filter_keeps_all.
Qed.

End SelectionFacts.

(** ** A negative cut depth for Perforate, revision by revision *)

(** X28. The oldest revision clamps the cut depth before it makes it the
    pass depth of a Perforate operation; the two later ones copy the cut
    depth first and clamp afterwards. So for a Perforate operation with a
    cut depth below 0, [Gcode.generate] gets a pass depth of 0 and a bottom
    at the top of the material, whereas the operation card of the later
    revisions has a cut depth of 0 and the negative depth as its pass depth. *)
Theorem perforate_negative_depth
        (offset : Paths -> Q -> Paths) (union : Paths -> Paths -> Paths)
        (internal_to : string -> Q) (PolyOps_Perforate : string) :
  (forall (i : Inline.Inputs) (op : Inline.Operation),
      Inline.operation op = "Perforate"%string -> Inline.cutDepth op < 0 ->
      let a := InlineCalls.operation_args offset union internal_to i op in
      Inline.g_passDepth a = 0 /\ Inline.g_botZ a == Inline.g_topZ a)
  /\ (forall (jobCard : Staged.JobCard) (op : Staged.Operation),
         Staged.operation op = "Perforate"%string -> Staged.cutDepth op < 0 ->
         let c := fst (Staged.make_opCard PolyOps_Perforate jobCard op) in
         Staged.c_cutDepth c = 0 /\ Staged.c_passDepth c = Staged.cutDepth op)
  /\ (forall (job_passDepth : Q) (op : Generator.Operation),
         Generator.is_precalc (Generator.operation op) = true -> Generator.cutDepth op < 0 ->
         let c := fst (Generator.make_opCard job_passDepth op) in
         Generator.c_cutDepth c = 0 /\ Generator.c_passDepth c = Generator.cutDepth op).
Proof.
  split; [|split].
  - intros i op Hk Hneg. apply js_lt_iff in Hneg. cbv zeta.
    unfold InlineCalls.operation_args, InlineCalls.clamped.
    cbn [Inline.g_passDepth Inline.g_botZ Inline.g_topZ]. rewrite Hk, Hneg. cbn.
    split; [reflexivity|ring].
  - intros jobCard op Hk Hneg. apply js_lt_iff in Hneg. cbv zeta.
    unfold Staged.make_opCard. cbn [Staged.c_cutDepth]. rewrite Hneg, Hk. cbn.
    split; reflexivity.
  - intros jp op Hk Hneg. apply js_lt_iff in Hneg. cbv zeta.
    unfold Generator.make_opCard. cbn [Generator.c_cutDepth]. rewrite Hneg, Hk. cbn.
    split; reflexivity.
Qed.

(** ** The further properties, on the examples *)

Lemma generateGcode_units_witness :
  exists s',
    Inline.generateGcode Sample.generate Sample.offset (fun a _ => a) Sample.scale
                         Sample.number Sample.number
                         (Trial.inline_job "cm" (-1) [Trial.inline_op "Pocket" 3]) Sample.blank
    = Throws (Error "cm units not supported by gcode") s'
    /\ Inline.gcode s' = EmptyString.
Proof.
  pose proof (generateGcode_units Sample.generate Sample.offset (fun a _ => a) Sample.scale
                Sample.number Sample.number
                (Trial.inline_job "cm" (-1) [Trial.inline_op "Pocket" 3]) Sample.blank
                eq_refl ltac:(discriminate)) as H.
  destruct (Inline.generateGcode _ _ _ _ _ _ _ _) as [s'|e s'].
  - destruct H as (unit_line & _ & _ & [[Hu _]|[Hu _]]); discriminate Hu.
  - destruct H as (_ & _ & -> & Hg & _). exists s'. split; [reflexivity|exact Hg].
Defined.

Lemma generate_arguments_witness :
  let i := Trial.inline_job "mm" (-1)
             [Trial.inline_op "Perforate" (-2); Trial.inline_op "Pocket" 3] in
  let a := InlineCalls.operation_args Sample.offset (fun a _ => a) Sample.scale i
             (Trial.inline_op "Perforate" (-2)) in
  0 <= Inline.g_passDepth a /\ Inline.g_botZ a <= Inline.g_topZ a.
Proof.
  cbv zeta.
  destruct (Inline.generateGcode Sample.generate Sample.offset (fun a _ => a) Sample.scale
              Sample.number Sample.number
              (Trial.inline_job "mm" (-1)
                 [Trial.inline_op "Perforate" (-2); Trial.inline_op "Pocket" 3])
              Sample.blank) as [s'|e s'] eqn:Hrun; [|vm_compute in Hrun; discriminate Hrun].
  destruct (generate_arguments Sample.generate Sample.offset (fun a _ => a) Sample.scale
              Sample.number Sample.number
              (Trial.inline_job "mm" (-1)
                 [Trial.inline_op "Perforate" (-2); Trial.inline_op "Pocket" 3])
              Sample.blank s' eq_refl ltac:(discriminate) Hrun) as [_ HF].
  destruct (proj1 (List.Forall_forall _ _) HF (Trial.inline_op "Perforate" (-2))
              (or_introl eq_refl)) as (H1 & H2 & _).
  split; [exact H1|exact H2].
Defined.

Lemma generateGcode_alerts_witness :
  exists s',
    Inline.generateGcode Sample.generate Sample.offset (fun a _ => a) Sample.scale
                         Sample.number Sample.number
                         (Trial.inline_job "mm" (-1)
                            [Trial.inline_op "Perforate" (-2); Trial.inline_op "Pocket" 3;
                             Trial.inline_op "Engrave" (-1)])
                         Sample.blank
    = Returns s'
    /\ Inline.alerts s'
       = [mkAlert "passDepthTooSmall" "alert-warning" [-1];
          mkAlert "cutDepthTooSmall" "alert-warning" [];
          mkAlert "cutDepthTooSmall" "alert-warning" []].
Proof.
  destruct (Inline.generateGcode Sample.generate Sample.offset (fun a _ => a) Sample.scale
              Sample.number Sample.number
              (Trial.inline_job "mm" (-1)
                 [Trial.inline_op "Perforate" (-2); Trial.inline_op "Pocket" 3;
                  Trial.inline_op "Engrave" (-1)])
              Sample.blank) as [s'|e s'] eqn:Hrun; [|vm_compute in Hrun; discriminate Hrun].
  exists s'. split; [reflexivity|].
  rewrite (generateGcode_alerts Sample.generate Sample.offset (fun a _ => a) Sample.scale
             Sample.number Sample.number
             (Trial.inline_job "mm" (-1)
                [Trial.inline_op "Perforate" (-2); Trial.inline_op "Pocket" 3;
                 Trial.inline_op "Engrave" (-1)])
             Sample.blank s' eq_refl ltac:(discriminate) Hrun).
  reflexivity.
Defined.

Lemma saveGcodeInFile_after_generateGcode_witness :
  exists s',
    Inline.generateGcode Sample.generate Sample.offset (fun a _ => a) Sample.scale
                         Sample.number Sample.number
                         (Trial.inline_job "inch" 1 [Trial.inline_op "Pocket" 3]) Sample.blank
    = Returns s'
    /\ InlineCalls.saveGcodeInFile "svgcut.nc" s'
       = [HideModals; SaveAs (Inline.gcode s') "svgcut.nc"].
Proof.
  destruct (Inline.generateGcode Sample.generate Sample.offset (fun a _ => a) Sample.scale
              Sample.number Sample.number
              (Trial.inline_job "inch" 1 [Trial.inline_op "Pocket" 3]) Sample.blank)
    as [s'|e s'] eqn:Hrun; [|vm_compute in Hrun; discriminate Hrun].
  exists s'. split; [reflexivity|].
  apply (saveGcodeInFile_after_generateGcode Sample.generate Sample.offset (fun a _ => a)
           Sample.scale Sample.number Sample.number
           (Trial.inline_job "inch" 1 [Trial.inline_op "Pocket" 3]) Sample.blank
           s' "svgcut.nc" eq_refl ltac:(discriminate) Hrun).
Defined.

Lemma generateGcode_cards_witness :
  exists s',
    Generator.generateGcode (list Generator.OpCard) (fun _ => []) Sample.keep_card
                            Sample.card_lines Sample.offset (fun a _ => a) Sample.scale
                            (Sample.generator_job [Sample.perforate_op 2; Sample.engrave_op 2] 1)
                            Sample.generator_blank
    = Returns s'
    /\ Generator.gcode s' = ["; holes"%string; "; letters"%string].
Proof.
  destruct (generateGcode_cards (list Generator.OpCard) (fun _ => []) Sample.keep_card
              Sample.card_lines Sample.offset (fun a _ => a) Sample.scale
              (Sample.generator_job [Sample.perforate_op 2; Sample.engrave_op 2] 1)
              Sample.generator_blank eq_refl ltac:(discriminate))
    as (s' & Hrun & Hgcode & _).
  exists s'. split; [exact Hrun|]. rewrite Hgcode. vm_compute. reflexivity.
Defined.

Lemma saveGcodeInFile_saves_gcodeS_witness :
  exists s',
    Generator.generateGcode (list Generator.OpCard) (fun _ => []) Sample.keep_card
                            Sample.card_lines Sample.offset (fun a _ => a) Sample.scale
                            (Sample.generator_job [Sample.perforate_op 2; Sample.engrave_op 2] 1)
                            Sample.generator_blank
    = Returns s'
    /\ Generator.gcodeS s' = Generator.join_lines (Generator.gcode s')
    /\ GeneratorUse.saveGcodeInFile "svgcut.nc" s'
       = HideModals :: match Generator.gcode s' with
                       | [] => []
                       | _ :: _ => [SaveAs (Generator.gcodeS s') "svgcut.nc"]
                       end.
Proof.
  apply (saveGcodeInFile_saves_gcodeS (list Generator.OpCard) (fun _ => []) Sample.keep_card
           Sample.card_lines Sample.offset (fun a _ => a) Sample.scale
           (Sample.generator_job [Sample.perforate_op 2; Sample.engrave_op 2] 1)
           Sample.generator_blank "svgcut.nc").
  reflexivity.
Defined.

Lemma clickOnSvg_keeps_count_witness :
  let s' := snd (Selection.clickOnSvg string Trial.path_data Trial.drawn Trial.nothing_selected) in
  Selection.counted string s'
  /\ (Selection.isSomethingSelected string s' = true <-> Selection.getSelection string s' <> []).
Proof.
  apply (clickOnSvg_keeps_count string Trial.path_data Trial.drawn Trial.nothing_selected).
  - split; [reflexivity|]. split; constructor.
  - discriminate.
Defined.

Lemma select_then_deselect_witness :
  let '(handled, s1) :=
    Selection.clickOnSvg string Trial.path_data Trial.drawn Trial.nothing_selected in
  handled = true
  /\ exists made,
      Selection.getSelection string s1
      = Selection.getSelection string Trial.nothing_selected ++ [made]
      /\ let '(handled2, s2) :=
           Selection.clickOnSvg string Trial.path_data (Selection.element_of string made) s1 in
         handled2 = true
         /\ Selection.getSelection string s2 = Selection.getSelection string Trial.nothing_selected
         /\ Selection.numSelected string s2 = Selection.numSelected string Trial.nothing_selected.
Proof.
  apply (select_then_deselect string Trial.path_data Trial.drawn
           "M0,0 L20,0 L20,20 Z"%string Trial.nothing_selected).
  - constructor.
  - reflexivity.
  - reflexivity.
Defined.

Lemma origin_offset_cases_witness :
  let box := {| bb_left := 10; bb_bottom := 90; bb_width := 20; bb_height := 30 |} in
  fst (origin_offset "Centre" Sample.page box 1 2) == 21
  /\ snd (origin_offset "Centre" Sample.page box 1 2) == 127.
Proof.
  cbv zeta.
  destruct (origin_offset_cases "Centre" Sample.page
              {| bb_left := 10; bb_bottom := 90; bb_width := 20; bb_height := 30 |} 1 2)
    as (_ & H & _).
  destruct (H eq_refl) as [Hx Hy]. split; [rewrite Hx|rewrite Hy]; reflexivity.
Defined.

Lemma perforate_negative_depth_witness :
  let c := fst (Generator.make_opCard 1 (Sample.perforate_op (-3))) in
  Generator.c_cutDepth c = 0 /\ Generator.c_passDepth c = -3.
Proof.
  cbv zeta.
  destruct (perforate_negative_depth Sample.offset (fun a _ => a) Sample.scale "Perforate")
    as (_ & _ & H).
  apply (H 1 (Sample.perforate_op (-3))); reflexivity.
Defined.
